(** * pgn-viewer: the move tree, its cursor and its serializer

    A shallow embedding of the move-tree core of [pgn-viewer] (the
    TypeScript source of [Path], [Game] and [PgnViewer]) and the proofs of
    its specification.

    Conventions of the embedding.
    - A JavaScript string is a [string]: one [ascii] per code unit (the
      identifiers produced by [scalachessCharPair] are code units below 256).
    - A JavaScript number that is used as an index, a ply or an annotation
      code is an integer, [Z].
    - A [MoveData] object has an identity: it lives in a store (an arena, a
      [list MoveData] addressed by position), and the tree and the cached
      mainline hold references into it, so that a write through one
      reference is seen through the others.
    - The tree of [Node]s is a value.  A write through a node reference that
      was obtained by resolving a path is a rewrite of the tree at the place
      this path resolves to; no node object occurs twice in a tree. *)

From Stdlib Require Import ZArith Ascii String DecimalString.
From stdpp Require Import base option list strings numbers.

Local Open Scope Z_scope.

(** ** JavaScript string primitives *)

Module JsString.

Fixpoint take (n : nat) (s : string) : string :=
  match n, s with
  | S n', String c s' => String c (take n' s')
  | _, _ => EmptyString
  end.

Fixpoint drop (n : nat) (s : string) : string :=
  match n, s with
  | S n', String _ s' => drop n' s'
  | _, _ => s
  end.

Definition len (s : string) : Z := Z.of_nat (String.length s).

(** The relative index of [String.prototype.slice]: a negative index
    counts from the end, and every index is clamped to [0 .. length]. *)
Definition relative (length i : Z) : Z :=
  if i <? 0 then Z.max (length + i) 0 else Z.min i length.

(** [s.slice(from, to)] *)
Definition slice (s : string) (from to : Z) : string :=
  let k := relative (len s) from in
  let final := relative (len s) to in
  take (Z.to_nat (final - k)) (drop (Z.to_nat k) s).

(** [s.slice(from)] *)
Definition sliceFrom (s : string) (from : Z) : string :=
  slice s from (len s).

(** [s.startsWith(prefix)] *)
Fixpoint startsWith (s prefix : string) : bool :=
  match prefix, s with
  | EmptyString, _ => true
  | String p prefix', String c s' =>
      if Ascii.eqb p c then startsWith s' prefix' else false
  | String _ _, EmptyString => false
  end.

(** [s.replace(pattern, replacement)] with a string pattern: the first
    occurrence only. *)
Fixpoint replace (s pattern replacement : string) : string :=
  if startsWith s pattern
  then replacement +:+ drop (String.length pattern) s
  else match s with
       | EmptyString => EmptyString
       | String c s' => String c (replace s' pattern replacement)
       end.

(** The decimal rendering of an integer in a template literal. *)
Definition ofNumber (z : Z) : string := NilZero.string_of_int (Z.to_int z).

(** [parts.join(separator)] *)
Fixpoint join (separator : string) (parts : list string) : string :=
  match parts with
  | [] => EmptyString
  | [p] => p
  | p :: rest => p +:+ separator +:+ join separator rest
  end.

(** [s.substring(from, to)]: the two indices are clamped to
    [0 .. length] and swapped when they are out of order. *)
Definition substring (s : string) (from to : Z) : string :=
  let a := Z.min (Z.max from 0) (len s) in
  let b := Z.min (Z.max to 0) (len s) in
  take (Z.to_nat (Z.max a b - Z.min a b)) (drop (Z.to_nat (Z.min a b)) s).

(** The white space and the line terminators that [trim] removes, among
    the code units below 256: TAB, LF, VT, FF, CR, SP and NBSP. *)
Definition isSpace (c : ascii) : bool :=
  bool_decide (nat_of_ascii c ∈ [9; 10; 11; 12; 13; 32; 160]%nat).

Fixpoint trimStart (s : string) : string :=
  match s with
  | EmptyString => EmptyString
  | String c s' => if isSpace c then trimStart s' else s
  end.

Fixpoint trimEnd (s : string) : string :=
  match s with
  | EmptyString => EmptyString
  | String c s' =>
      match trimEnd s' with
      | EmptyString => if isSpace c then EmptyString else String c EmptyString
      | rest => String c rest
      end
  end.

(** [s.trim()] *)
Definition trim (s : string) : string := trimEnd (trimStart s).

(** The double quote and the line feed. *)
Definition quote : string := String (ascii_of_nat 34) EmptyString.
Definition newline : string := String (ascii_of_nat 10) EmptyString.

End JsString.

(** ** Path *)

Abbreviation Id := string (only parsing).

Module Path.

Record t := mk { path : string }.

Definition head (p : t) : Id := JsString.slice (path p) 0 2.
Definition tail (p : t) : t := mk (JsString.sliceFrom (path p) 2).
Definition init (p : t) : t := mk (JsString.slice (path p) 0 (-2)).
Definition last (p : t) : Id := JsString.sliceFrom (path p) (-2).
Definition empty (p : t) : bool := bool_decide (path p = "").
Definition contains (p other : t) : bool :=
  JsString.startsWith (path p) (path other).
Definition append (p : t) (id : Id) : t := mk (path p +:+ id).
Definition equals (p other : t) : bool :=
  bool_decide (path p = path other).
Definition root : t := mk "".

End Path.

(** The two free functions of the source that work on raw path strings. *)
Definition head (path : string) : string := JsString.slice path 0 2.
Definition tail (path : string) : string := JsString.sliceFrom path 2.


(** ** JavaScript array primitives *)

Module JsArray.

Section Ops.
Context {A : Type}.

(** [xs.splice(start, deleteCount)]: the removed elements and the
    array that is left.  A negative [start] counts from the end. *)
Definition splice (xs : list A) (start deleteCount : Z)
  : list A * list A :=
  let k := Z.to_nat (JsString.relative (Z.of_nat (length xs)) start) in
  let n := Z.to_nat (Z.min (Z.max deleteCount 0)
                           (Z.of_nat (length xs) - Z.of_nat k)) in
  (take n (drop k xs), take k xs ++ drop (k + n) xs).

(** [xs[index] = x] for an index below the length.  A negative number
    names a property of the array object, not one of its elements. *)
Definition assign (xs : list A) (index : Z) (x : A) : list A :=
  if index <? 0 then xs else <[Z.to_nat index := x]> xs.

(** [xs.findIndex(p)], [None] standing for [-1]. *)
Definition findIndex (P : A → Prop) `{∀ x, Decision (P x)}
  (xs : list A) : option nat := fst <$> list_find P xs.

(** [xs.find(p)] *)
Definition find (P : A → Prop) `{∀ x, Decision (P x)}
  (xs : list A) : option A := snd <$> list_find P xs.

(** [xs.unshift(x)] and [xs.push(x)] *)
Definition unshift (xs : list A) (x : A) : list A := x :: xs.
Definition push (xs : list A) (x : A) : list A := xs ++ [x].

(** [xs.splice(start)]: everything from [start] on is removed. *)
Definition spliceFrom (xs : list A) (start : Z) : list A * list A :=
  splice xs start (Z.of_nat (length xs)).

(** [xs.includes(x)] and [xs.indexOf(x)], [None] standing for [-1]. *)
Definition includes `{EqDecision A} (xs : list A) (x : A) : bool :=
  bool_decide (x ∈ xs).
Definition indexOf `{EqDecision A} (xs : list A) (x : A) : option nat :=
  findIndex (λ y, y = x) xs.
End Ops.

End JsArray.

(** ** Path objects and their identity

    [isChildOf] compares two [Path] objects with [===], by identity.  The
    objects allocated so far are a list, a reference to one is its
    position, and [new Path(s)] allocates at the end. *)

Module PathObject.

Definition new (objects : list Path.t) (p : Path.t)
  : nat * list Path.t :=
  (length objects, objects ++ [p]).

(** [this.init()], which allocates the parent path. *)
Definition init (objects : list Path.t) (this : nat)
  : option (nat * list Path.t) :=
  p ← objects !! this; Some (new objects (Path.init p)).

(** [this.init() === parent] *)
Definition isChildOf (objects : list Path.t) (this parent : nat)
  : option (bool * list Path.t) :=
  allocated ← init objects this;
  Some (bool_decide (allocated.1 = parent), allocated.2).

End PathObject.

(** ** Move data and the store of data objects *)

(** A reference to a data object is its position in the store. *)
Abbreviation Ref := nat (only parsing).

Module MoveData.

(** The fields that the operations below read or write.  The others of
    the source ([move], [uci], [fen], [turn], [check], [shapes], [clocks],
    [startingComments], [emt]) are read and written by none of them and
    are left out. *)
Record t := mk {
  path : Path.t;
  ply : Z;
  id : Id;
  san : string;
  comments : list string;
  nags : list Z;
}.

(** [{...d, comments: cs}] and [d.comments = cs] *)
Definition withComments (d : t) (cs : list string) : t :=
  mk (path d) (ply d) (id d) (san d) cs (nags d).

(** [d.nags], written in place. *)
Definition withNags (d : t) (ns : list Z) : t :=
  mk (path d) (ply d) (id d) (san d) (comments d) ns.

End MoveData.

Abbreviation Store := (list MoveData.t) (only parsing).

(** ** Nodes *)

Module Node.

(** [MoveNode = { children: MoveNode[]; data?: ChessMove }]: the root has
    no data, a move node refers to its data object. *)
#[local] Unset Elimination Schemes.
Inductive t := mk { data : option Ref; children : list t }.
#[local] Set Elimination Schemes.

Definition withData (n : t) (d : option Ref) : t := mk d (children n).
Definition withChildren (n : t) (cs : list t) : t := mk (data n) cs.

(** [node.data], read in the store. *)
Definition dataOf (σ : Store) (n : t) : option MoveData.t :=
  r ← data n; σ !! r.

(** [node.data?.id] *)
Definition dataId (σ : Store) (n : t) : option Id :=
  MoveData.id <$> dataOf σ n.

(** Modelled from the spec: the methods [mainlineNodes], [mainline] and
    [end] of the class [Node] of the [chessops] package, of which the
    source only has the declaration; the mainline is the chain obtained by
    always following the first child from the root. *)
Fixpoint mainlineNodes (n : t) : list t :=
  match n with
  | mk _ [] => []
  | mk _ (child :: _) => child :: mainlineNodes child
  end.

Definition mainline (n : t) : list (option Ref) := data <$> mainlineNodes n.

Fixpoint end_ (n : t) : t :=
  match n with
  | mk _ [] => n
  | mk _ (child :: _) => end_ child
  end.

(** A write through the reference that [end] returned: the tree in which
    the last node of the first-child chain is replaced by [f] of it. *)
Fixpoint updateEnd (f : t → t) (n : t) : t :=
  match n with
  | mk _ [] => f n
  | mk d (child :: rest) => mk d (updateEnd f child :: rest)
  end.

(** The number of plies of the game: the steps from the root to a
    childless node along first children. *)
Fixpoint plyCount (n : t) : nat :=
  match n with
  | mk _ [] => 0
  | mk _ (child :: _) => S (plyCount child)
  end.

(** The data of the last node of the mainline, if there is one. *)
Definition lastMainlineData (n : t) : option Ref :=
  node ← list.last (mainlineNodes n); data node.

(** [node.data?.path || Path.root] *)
Definition pathOf (σ : Store) (n : t) : Path.t :=
  default Path.root (MoveData.path <$> dataOf σ n).

(** The nodes of the first-child chain below [n] carry a 2-character
    identifier and the path that leads to them, as [makeMoves] builds
    them: the path of the parent followed by the identifier. *)
Fixpoint chainOk (σ : Store) (n : t) (parentPath : string) : bool :=
  match n with
  | mk _ [] => true
  | mk _ (child :: _) =>
      match dataOf σ child with
      | Some d =>
          bool_decide (String.length (MoveData.id d) = 2%nat) &&
          bool_decide
            (Path.path (MoveData.path d) = parentPath +:+ MoveData.id d) &&
          chainOk σ child (parentPath +:+ MoveData.id d)
      | None => false
      end
  end.

(** Every node of the tree that has data carries a 2-character
    identifier. *)
Fixpoint idsOk (σ : Store) (n : t) : bool :=
  match n with
  | mk d cs =>
      match dataId σ (mk d cs) with
      | Some id => bool_decide (String.length id = 2%nat)
      | None => true
      end && forallb (idsOk σ) cs
  end.

(** Every node below [n] has data, a 2-character identifier and, stored
    in its data, the path that leads to it: the path of its parent
    followed by its identifier.  This is how [makeMoves] builds a tree. *)
Fixpoint pathsOk (σ : Store) (n : t) (path : string) : bool :=
  match n with
  | mk _ cs =>
      forallb
        (λ child,
           match dataOf σ child with
           | Some d =>
               bool_decide (String.length (MoveData.id d) = 2%nat) &&
               bool_decide
                 (Path.path (MoveData.path d) = path +:+ MoveData.id d) &&
               pathsOk σ child (path +:+ MoveData.id d)
           | None => false
           end) cs
  end.

(** Every child that is not a first child has data, all over the tree:
    the variations that [exportNode] writes. *)
Fixpoint variationsHaveData (σ : Store) (n : t) : bool :=
  match n with
  | mk _ [] => true
  | mk _ (child :: rest) =>
      variationsHaveData σ child &&
      forallb (λ v, bool_decide (is_Some (dataOf σ v)) &&
                    variationsHaveData σ v) rest
  end.

(** No two children of a node carry the same identifier, all over the
    tree. *)
Fixpoint siblingsDistinct (σ : Store) (n : t) : bool :=
  match n with
  | mk _ cs =>
      bool_decide (NoDup (omap (dataId σ) cs)) &&
      forallb (siblingsDistinct σ) cs
  end.

(** Two trees, each read in its store, have the same shape and, node by
    node, the same data but for the comments. *)
#[local] Unset Elimination Schemes.
Inductive sameMoves (σ σ' : Store) : t → t → Prop :=
| sameMoves_node (n n' : t) :
    (λ d, MoveData.withComments d []) <$> dataOf σ n
      = (λ d, MoveData.withComments d []) <$> dataOf σ' n' →
    Forall2 (sameMoves σ σ') (children n) (children n') →
    sameMoves σ σ' n n'.
#[local] Set Elimination Schemes.

End Node.

(** [childById]: the first child whose identifier is [id]. *)
Definition childById (σ : Store) (node : Node.t) (id : Id) : option Node.t :=
  JsArray.find (λ child, Node.dataId σ child = Some id) (Node.children node).

(** [nodeAtPathFrom], on a [Path].  The source recurses on the path, which
    gets shorter; the recursion is here on the node, of which the child
    found is a part, with the search of [childById] written out.  The
    equation of the source is [nodeAtPathFrom_eq] below. *)
Fixpoint nodeAtPathFrom (σ : Store) (node : Node.t) (path : Path.t)
  : option Node.t :=
  if Path.empty path then Some node else
  match node with
  | Node.mk _ cs =>
      (fix search (cs : list Node.t) : option Node.t :=
         match cs with
         | [] => None
         | child :: cs' =>
             if decide (Node.dataId σ child = Some (Path.head path))
             then nodeAtPathFrom σ child (Path.tail path)
             else search cs'
         end) cs
  end.

(** ** Game *)

Module Metadata.
Record t := mk { result : option string; comment : option string }.

Definition withResult (m : t) (r : option string) : t := mk r (comment m).
End Metadata.

(** The argument [Ply | "last"] of [pathAtMainlinePly]. *)
Inductive Ply := PlyNumber (n : Z) | PlyLast.

#[global] Instance Ply_eq_dec : EqDecision Ply.
Proof. solve_decision. Defined.

Module Game.

Record t := mk {
  moves : Node.t;
  metadata : Metadata.t;
  mainline : list (option Ref);
}.

(** The constructor: the mainline is computed here, from the tree. *)
Definition new (moves : Node.t) (metadata : Metadata.t) : t :=
  mk moves metadata (Node.mainline moves).

Definition withMoves (g : t) (moves : Node.t) : t :=
  mk moves (metadata g) (mainline g).
Definition withMetadata (g : t) (m : Metadata.t) : t :=
  mk (moves g) m (mainline g).

Definition nodeAt (σ : Store) (g : t) (path : Path.t) : option Node.t :=
  nodeAtPathFrom σ (moves g) path.

Definition pathAtMainlinePly (σ : Store) (g : t) (ply : Ply) : Path.t :=
  if match ply with PlyNumber n => n =? 0 | PlyLast => false end
  then Path.root
  else
    let index :=
      Z.max 0 (Z.min (Z.of_nat (length (mainline g)) - 1)
                     (match ply with PlyLast => 9999 | PlyNumber n => n - 1 end)) in
    match mainline g !! Z.to_nat index with
    | Some (Some r) =>
        match σ !! r with
        | Some d => MoveData.path d
        | None => Path.root
        end
    | _ => Path.root
    end.

End Game.

(** ** The controller *)

Module GoTo.
Inductive t := first | prev | next | last.
End GoTo.

(** What [deleteNode] hands back: [null], [undefined] or a data object. *)
Inductive Deleted := Null | Undefined | Data (r : Ref).

Module PgnViewer.

(** [heap] is the store of the data objects the tree and the cached
    mainline refer to; [game] and [path] are the fields of the class. *)
Record t := mk {
  heap : Store;
  game : Game.t;
  path : Path.t;
}.

Definition withHeap (v : t) (σ : Store) : t := mk σ (game v) (path v).
Definition withPath (v : t) (p : Path.t) : t := mk (heap v) (game v) p.
Definition withMoves (v : t) (moves : Node.t) : t :=
  mk (heap v) (Game.withMoves (game v) moves) (path v).
Definition withResult (v : t) (r : option string) : t :=
  mk (heap v)
     (Game.withMetadata (game v)
        (Metadata.withResult (Game.metadata (game v)) r))
     (path v).

Definition moves (v : t) : Node.t := Game.moves (game v).
Definition result (v : t) : option string :=
  Metadata.result (Game.metadata (game v)).

(** [nodeAtPathOrNullFrom], on the string of a path; its equation is
    [nodeAtPathOrNullFrom_eq] below. *)
Fixpoint nodeAtPathOrNullFrom (σ : Store) (node : Node.t) (path : string)
  : option Node.t :=
  if decide (path = "") then Some node else
  match node with
  | Node.mk _ cs =>
      (fix search (cs : list Node.t) : option Node.t :=
         match cs with
         | [] => None
         | child :: cs' =>
             if decide (Node.dataId σ child = Some (head path))
             then nodeAtPathOrNullFrom σ child (tail path)
             else search cs'
         end) cs
  end.

Definition nodeAtPathOrNull (v : t) (path : string) : option Node.t :=
  nodeAtPathOrNullFrom (heap v) (moves v) path.

(** A write through the reference that [nodeAtPathOrNullFrom] returned:
    the tree in which the node [path] resolves to is replaced by [update]
    of it.  Nothing is written when the path does not resolve. *)
Fixpoint updateAtFrom (σ : Store) (update : Node.t → Node.t)
  (node : Node.t) (path : string) : Node.t :=
  if decide (path = "") then update node else
  match node with
  | Node.mk d cs =>
      Node.mk d
        ((fix search (cs : list Node.t) : list Node.t :=
            match cs with
            | [] => []
            | child :: cs' =>
                if decide (Node.dataId σ child = Some (head path))
                then updateAtFrom σ update child (tail path) :: cs'
                else child :: search cs'
            end) cs)
  end.

(** [updateAt]: the updated node, or [None] for [undefined]. *)
Definition updateAt (v : t) (parentPath : string)
  (update : Node.t → Node.t) : option Node.t * t :=
  match nodeAtPathOrNull v parentPath with
  | Some node =>
      (Some (update node),
       withMoves v (updateAtFrom (heap v) update (moves v) parentPath))
  | None => (None, v)
  end.

(** [addNode]: the new path, or [None] for [undefined]. *)
Definition addNode (v : t) (node : Node.t) (parentPath : string)
  : option string * t :=
  let newPath := parentPath +:+ default "" (Node.dataId (heap v) node) in
  match nodeAtPathOrNull v newPath with
  | Some existing => (Some newPath, v)
  | None =>
      let '(updated, v') :=
        updateAt v parentPath
          (λ parent,
             Node.withChildren parent
               (JsArray.push (Node.children parent) node)) in
      (match updated with Some _ => Some newPath | None => None end, v')
  end.

(** [addNodes]; an empty string is falsy, like [undefined]. *)
Fixpoint addNodes (v : t) (nodes : list Node.t) (path : string)
  : option string * t :=
  match nodes with
  | [] => (Some path, v)
  | node :: rest =>
      match addNode v node path with
      | (Some newPath, v') =>
          if decide (newPath = "") then (None, v')
          else addNodes v' rest newPath
      | (None, v') => (None, v')
      end
  end.

(** [deleteNode]: what it returns and the viewer it leaves. *)
Definition deleteNode (v : t) (nodePath : string) : Deleted * t :=
  let parentId := JsString.slice nodePath 0 (-2) in
  let nodeId := JsString.sliceFrom nodePath (-2) in
  match nodeAtPathOrNull v parentId with
  | None => (Null, v)
  | Some parentNode =>
      match JsArray.findIndex
              (λ child, Node.dataId (heap v) child = Some nodeId)
              (Node.children parentNode) with
      | None => (Null, v)
      | Some index =>
          let v' :=
            withMoves v
              (updateAtFrom (heap v)
                 (λ parent,
                    Node.withChildren parent
                      (JsArray.splice (Node.children parent)
                         (Z.of_nat index) 1).2)
                 (moves v) parentId) in
          let mainline := Node.mainline (moves v') in
          let index := Z.of_nat (length mainline) - 1 in
          (if index <? 0 then Undefined
           else match mainline !! Z.to_nat index with
                | Some (Some r) => Data r
                | _ => Undefined
                end, v')
      end
  end.

(** A write to the comments of the data object [r], seen through every
    reference to this object. *)
Definition writeComments (v : t) (r : Ref) (cs : list string) : t :=
  withHeap v (alter (λ d, MoveData.withComments d cs) r (heap v)).

(** [addComment], [deleteComment] and [editComment] *)
Definition addComment (v : t) (path comment : string) : t :=
  match nodeAtPathOrNull v path with
  | Some (Node.mk (Some r) _) =>
      match heap v !! r with
      | Some d =>
          writeComments v r (JsArray.push (MoveData.comments d) comment)
      | None => v
      end
  | _ => v
  end.

Definition deleteComment (v : t) (path : string) (index : Z) : t :=
  match nodeAtPathOrNull v path with
  | Some (Node.mk (Some r) _) =>
      match heap v !! r with
      | Some d =>
          if index <? Z.of_nat (length (MoveData.comments d))
          then writeComments v r
                 (JsArray.splice (MoveData.comments d) index 1).2
          else v
      | None => v
      end
  | _ => v
  end.

Definition editComment (v : t) (path : string) (index : Z)
  (newComment : string) : t :=
  match nodeAtPathOrNull v path with
  | Some (Node.mk (Some r) _) =>
      match heap v !! r with
      | Some d =>
          if index <? Z.of_nat (length (MoveData.comments d))
          then writeComments v r
                 (JsArray.assign (MoveData.comments d) index newComment)
          else v
      | None => v
      end
  | _ => v
  end.

(** [curNode] and [canGoTo] *)
Definition curNode (v : t) : Node.t :=
  default (moves v) (Game.nodeAt (heap v) (game v) (path v)).

Definition canGoTo (v : t) (to : GoTo.t) : bool :=
  match to with
  | GoTo.prev | GoTo.first => negb (Path.empty (path v))
  | GoTo.next | GoTo.last =>
      match Node.children (curNode v) !! 0%nat with
      | Some _ => true
      | None => false
      end
  end.

(** [findLastNode], the local function of [promoteVariation]. *)
Definition findLastNode (node : Node.t) : Node.t := Node.end_ node.

(** A string is truthy when it is not empty. *)
Definition truthy (s : option string) : option string :=
  match s with
  | Some "" | None => None
  | Some s => Some s
  end.

(** [promoteVariation].  The source takes the reference
    [lastNodeToAddComment] before it reorders the children of the parent
    and writes the [data] field through it afterwards.  The two writes
    touch different fields ([children] of the parent, [data] of a
    childless node), so on the tree value the [data] field is written
    first, at the end of the first-child chain, where the reference was
    taken; the store and the result are written in the order of the
    source. *)
Definition promoteVariation (v : t) (variationPath : string) : t :=
  let lastNodeToAddComment := Node.end_ (moves v) in
  match nodeAtPathOrNull v variationPath with
  | None => v
  | Some variationNode =>
  match Node.dataOf (heap v) variationNode with
  | None => v
  | Some variationData =>
  let parentPath := JsString.slice variationPath 0 (-2) in
  match nodeAtPathOrNull v parentPath with
  | None => v
  | Some parentNode =>
  match JsArray.findIndex
          (λ child,
             Node.dataId (heap v) child = Some (MoveData.id variationData))
          (Node.children parentNode) with
  | None => v
  | Some variationIndex =>
    (* the result of the old mainline goes to its last node *)
    let mainlineResult := truthy (result v) in
    let v1 :=
      match mainlineResult, Node.dataOf (heap v) lastNodeToAddComment with
      | Some res, Some lastData =>
          let newComments :=
            MoveData.comments lastData ++ ["Result: " +:+ res] in
          let fresh := length (heap v) in
          withResult
            (withMoves
               (withHeap v
                  (heap v ++ [MoveData.withComments lastData newComments]))
               (Node.updateEnd (λ n, Node.withData n (Some fresh))
                  (moves v)))
            (Some "*")
      | _, _ => v
      end in
    (* splice the variation out and unshift it *)
    let reorder (parent : Node.t) : Node.t :=
      match JsArray.splice (Node.children parent)
              (Z.of_nat variationIndex) 1 with
      | (removedNode :: _, rest) =>
          Node.withChildren parent (JsArray.unshift rest removedNode)
      | ([], rest) => Node.withChildren parent rest
      end in
    let removedNode : option Node.t :=
      parent ← nodeAtPathOrNull v1 parentPath;
      (JsArray.splice (Node.children parent)
         (Z.of_nat variationIndex) 1).1 !! 0%nat in
    let v2 :=
      withPath
        (withMoves v1 (updateAtFrom (heap v1) reorder (moves v1) parentPath))
        (Path.mk (parentPath +:+
                  default "" (removedNode ≫= Node.dataId (heap v1)))) in
    (* adopt the result that the new mainline ends with *)
    let newMainlineLastNode : option Node.t :=
      findLastNode <$> removedNode in
    let newMainlineResult : option string :=
      node ← newMainlineLastNode;
      d ← Node.dataOf (heap v2) node;
      JsArray.find (λ comment, JsString.startsWith comment "Result:" = true)
        (MoveData.comments d) in
    let v3 :=
      match newMainlineResult with
      | Some found =>
          withResult v2 (Some (JsString.replace found "Result: " ""))
      | None => v2
      end in
    (* clear all comments in mainline *)
    foldl (λ v r, match r with
                  | Some r => writeComments v r []
                  | None => v
                  end)
      v3 (Node.mainline (moves v3))
  end end end end.

(** [node?.data?.ply || 0] *)
Definition plyOf (σ : Store) (node : Node.t) : Z :=
  default 0 (MoveData.ply <$> Node.dataOf σ node).

Definition plyPrefix (σ : Store) (node : Node.t) : string :=
  JsString.ofNumber ((plyOf σ node + 1) / 2) +:+
  (if Z.rem (plyOf σ node) 2 =? 1 then ". " else "... ").

Definition formatNags (nags : list Z) : string :=
  JsString.join " " ((λ nag, "$" +:+ JsString.ofNumber nag) <$> nags).

(** [nags?.length ? ` ${formatNags(nags)}` : ""] *)
Definition nagsText (nags : list Z) : string :=
  match nags with
  | [] => ""
  | _ => " " +:+ formatNags nags
  end.

(** [if (text) s += " " + text] *)
Definition andText (s text : string) : string :=
  match text with
  | "" => s
  | _ => s +:+ " " +:+ text
  end.

(** The text written for the move that opens a variation. *)
Definition variationHead (σ : Store) (child : Node.t) (d : MoveData.t)
  : string :=
  " (" +:+ plyPrefix σ child +:+ MoveData.san d +:+
  nagsText (MoveData.nags d) +:+
  JsString.join ""
    ((λ comment, "{" +:+ comment +:+ "} ") <$> MoveData.comments d).

(** [exportNode]; [None] is the [TypeError] of [child.data!.san] on a
    variation without data. *)
Fixpoint exportNode (σ : Store) (node : Node.t) (forcePly : bool)
  : option string :=
  match node with
  | Node.mk _ [] => Some ""
  | Node.mk _ ((first :: variations) as children) =>
      let s := "" in
      let s :=
        if forcePly || (Z.rem (plyOf σ first) 2 =? 1)
        then s +:+ plyPrefix σ first else s in
      let s :=
        s +:+ default "undefined" (MoveData.san <$> Node.dataOf σ first) in
      let s :=
        match Node.dataOf σ first with
        | Some d => s +:+ nagsText (MoveData.nags d)
        | None => s
        end in
      let s :=
        match Node.dataOf σ first with
        | Some d =>
            foldl (λ s comment, s +:+ " { " +:+ comment +:+ " } ") s
              (MoveData.comments d)
        | None => s
        end in
      s ← (fix loop (cs : list Node.t) (s : string) : option string :=
             match cs with
             | [] => Some s
             | child :: cs' =>
                 d ← Node.dataOf σ child;
                 let s := s +:+ variationHead σ child d in
                 variation ← exportNode σ child false;
                 let s := andText s variation in
                 loop cs' (s +:+ ")")
             end) variations s;
      mainline ← exportNode σ first (bool_decide (1 < length children)%nat);
      Some (andText s mainline)
  end.

(** The text of one parenthesized variation: the opening parenthesis,
    the forced move-number prefix, the notation, the annotation codes and
    the comments of [child], the subtree of [child] serialized with the
    numbering forced or not, the closing parenthesis. *)
Definition variationText (forced : bool) (σ : Store) (child : Node.t)
  : option string :=
  d ← Node.dataOf σ child;
  subtree ← exportNode σ child forced;
  Some (andText (variationHead σ child d) subtree +:+ ")").

(** The text of the first child: prefix, notation, codes, comments. *)
Definition firstText (σ : Store) (forcePly : bool) (first : Node.t)
  : string :=
  (if forcePly || (Z.rem (plyOf σ first) 2 =? 1)
   then plyPrefix σ first else "") +:+
  default "undefined" (MoveData.san <$> Node.dataOf σ first) +:+
  match Node.dataOf σ first with
  | Some d =>
      nagsText (MoveData.nags d) +:+
      foldr (λ comment text, " { " +:+ comment +:+ " } " +:+ text) ""
        (MoveData.comments d)
  | None => ""
  end.

(** *** Annotation glyphs, cuts, navigation and export *)

(** A write to the annotation codes of the data object [r].  (The copy
    of a data object that [promoteVariation] makes shares the array of
    its codes with the original, which from then on only the cached
    mainline refers to; the codes of a node are read here in the data
    object of the node.) *)
Definition writeNags (v : t) (r : Ref) (ns : list Z) : t :=
  withHeap v (alter (λ d, MoveData.withNags d ns) r (heap v)).

Definition addNag (v : t) (path : string) (nag : Z) : t :=
  match nodeAtPathOrNull v path with
  | Some (Node.mk (Some r) _) =>
      match heap v !! r with
      | Some d =>
          if JsArray.includes (MoveData.nags d) nag then v
          else writeNags v r (JsArray.push (MoveData.nags d) nag)
      | None => v
      end
  | _ => v
  end.

Definition removeNag (v : t) (path : string) (nag : Z) : t :=
  match nodeAtPathOrNull v path with
  | Some (Node.mk (Some r) _) =>
      match heap v !! r with
      | Some d =>
          match JsArray.indexOf (MoveData.nags d) nag with
          | Some index =>
              writeNags v r
                (JsArray.splice (MoveData.nags d) (Z.of_nat index) 1).2
          | None => v
          end
      | None => v
      end
  | _ => v
  end.

Definition deleteMovesAfterPath (v : t) (path : string) : t :=
  match nodeAtPathOrNull v path with
  | Some node =>
      withMoves v
        (updateAtFrom (heap v) (λ node, Node.withChildren node [])
           (moves v) path)
  | None => v
  end.

Definition deleteMoveAndAllFollowing (v : t) (path : string) : t :=
  if JsString.len path <? 2 then v else
  let parentPath := JsString.substring path 0 (JsString.len path - 2) in
  let nodeId :=
    JsString.substring path (JsString.len path - 2) (JsString.len path) in
  match nodeAtPathOrNull v parentPath with
  | None => v
  | Some parentNode =>
      match JsArray.findIndex
              (λ child, Node.dataId (heap v) child = Some nodeId)
              (Node.children parentNode) with
      | None => v
      | Some index =>
          withMoves v
            (updateAtFrom (heap v)
               (λ parent,
                  Node.withChildren parent
                    (JsArray.spliceFrom (Node.children parent)
                       (Z.of_nat index)).2)
               (moves v) parentPath)
      end
  end.

(** [isCurrentPathLastOnMainline] *)
Definition isCurrentPathLastOnMainline (v : t) : bool :=
  match Node.dataOf (heap v) (Node.end_ (moves v)) with
  | None => true
  | Some d => Path.equals (path v) (MoveData.path d)
  end.

(** [isPathOnMainLine]; [None] is the [TypeError] of [m.path] on a
    mainline node without data. *)
Definition isPathOnMainLine (v : t) (path : string) : option bool :=
  mainlinePaths ←
    mapM (λ m : option Ref,
            r ← m; d ← heap v !! r; Some (Path.path (MoveData.path d)))
      (Node.mainline (moves v));
  Some (JsArray.includes mainlinePaths path).

(** The fields [pane] and [autoScrollRequested] of the class. *)
Record ui := mkUi { pane : string; autoScrollRequested : bool }.

(** [toPath], for a viewer to which no board and no element is attached:
    [redrawGround] and [focus] do nothing then. *)
Definition toPath (v : t) (u : ui) (path : Path.t) : t * ui :=
  (withPath v path, mkUi "board" true).

(** [goTo]; [None] is the [TypeError] of [children[0]?.data.path] on a
    first child without data. *)
Definition goTo (v : t) (u : ui) (to : GoTo.t) : option (t * ui) :=
  target ←
    match to with
    | GoTo.first => Some (Some Path.root)
    | GoTo.prev => Some (Some (Path.init (path v)))
    | GoTo.next =>
        match Game.nodeAt (heap v) (game v) (path v) with
        | None => Some None
        | Some node =>
            match Node.children node !! 0%nat with
            | None => Some None
            | Some child =>
                match Node.dataOf (heap v) child with
                | Some d => Some (Some (MoveData.path d))
                | None => None
                end
            end
        end
    | GoTo.last =>
        Some (Some (Game.pathAtMainlinePly (heap v) (game v) PlyLast))
    end;
  Some (toPath v u (default (path v) target)).

Definition toggleMenu (u : ui) : ui :=
  mkUi (if decide (pane u = "board") then "menu" else "board")
    (autoScrollRequested u).
Definition togglePgn (u : ui) : ui :=
  mkUi (if decide (pane u = "pgn") then "board" else "pgn")
    (autoScrollRequested u).

(** [getGamePgn].  [whiteName] and [blackName] are
    [game.players.white.name] and [game.players.black.name],
    [initialComments] is [game.initial.comments]; [None] is the
    [TypeError] of [exportNode]. *)
Definition headerLines (v : t) (whiteName blackName : option string)
  : list string :=
  omap (λ header : string * option string,
          (λ value,
             "[" +:+ header.1 +:+ " " +:+ JsString.quote +:+ value +:+
             JsString.quote +:+ "]") <$> header.2)
    [("white", whiteName);
     ("black", blackName);
     ("Result", Some (default "*" (truthy (result v))));
     ("Comment", Metadata.comment (Game.metadata (game v)))].

Definition getGamePgn (v : t) (whiteName blackName : option string)
  (initialComments : list string) : option string :=
  let headers := JsString.join JsString.newline
                   (headerLines v whiteName blackName) in
  let initialComment :=
    JsString.join " "
      ((λ comment, "{ " +:+ comment +:+ " }") <$> initialComments) in
  let pgn :=
    headers +:+ JsString.newline +:+ JsString.newline +:+ initialComment
    +:+ " " in
  movetext ← exportNode (heap v) (moves v) false;
  let pgn := pgn +:+ movetext in
  let pgn :=
    match truthy (result v) with
    | Some result => pgn +:+ result
    | None => pgn
    end in
  Some (JsString.trim pgn).

End PgnViewer.

(** ** The move list and the comments *)

(** [moveTurn], the move number of the move list.  A ply is an integer;
    the arithmetic of the source, on doubles, is the exact one written
    here for a ply below [2^53] in absolute value. *)
Definition moveTurn (move : MoveData.t) : string :=
  JsString.ofNumber ((MoveData.ply move - 1) / 2 + 1) +:+ ".".

(** [parseComments], from the comments that [parseComment] of [chessops]
    has parsed on: a text, shapes, and the clock and the move time when
    the comment has them.  Shapes and times are only passed on. *)
Module ParseComments.

Section Parse.
Context {Shape Time : Type}.





End Parse.

End ParseComments.

(** ** The game of the promotion scenario

    Mainline [1. e4 e5 2. Nf3], the variation [1... c5], result [1-0].  The
    identifiers are those [scalachessCharPair] gives to the four moves. *)

Module Scenario.

Definition e4 : MoveData.t :=
  MoveData.mk (Path.mk "/?") 1 "/?" "e4" [] [].
Definition e5 : MoveData.t :=
  MoveData.mk (Path.mk "/?WG") 2 "WG" "e5" [] [].
Definition Nf3 : MoveData.t :=
  MoveData.mk (Path.mk "/?WG)8") 3 ")8" "Nf3" ["King's knight"] [1].
Definition c5 : MoveData.t :=
  MoveData.mk (Path.mk "/?UE") 2 "UE" "c5" ["Sicilian"] [].

(** Data objects of moves that are not in the tree yet: [2... Nf6] after
    the mainline, and a line after [1... c5] whose second move carries
    its UCI string in place of the 2-character identifier. *)
Definition Nf6 : MoveData.t :=
  MoveData.mk (Path.mk "/?WG)8aP") 4 "aP" "Nf6" [] [].
Definition Nc3 : MoveData.t :=
  MoveData.mk (Path.mk "/?UE$5") 3 "$5" "Nc3" [] [].
Definition d6 : MoveData.t :=
  MoveData.mk (Path.mk "/?UE$5d7d6") 4 "d7d6" "d6" [] [].
Definition g3 : MoveData.t :=
  MoveData.mk (Path.mk "/?UE$5d7d619") 5 "19" "g3" [] [].

Definition heap : Store := [e4; e5; Nf3; c5; Nf6; Nc3; d6; g3].

Definition moves : Node.t :=
  Node.mk None
    [Node.mk (Some 0%nat)
       [Node.mk (Some 1%nat) [Node.mk (Some 2%nat) []];
        Node.mk (Some 3%nat) []]].

Definition game : Game.t :=
  Game.new moves (Metadata.mk (Some "1-0") None).

Definition viewer : PgnViewer.t := PgnViewer.mk heap game Path.root.

Definition leaf (r : Ref) : Node.t := Node.mk (Some r) [].

End Scenario.

(** ** A game with a variation of two moves

    [1. e4 (1. d4 d5) 1... e5]: the variation [1. d4] has the continuation
    [1... d5]. *)

Module TwoOpenings.

Definition e4 : MoveData.t :=
  MoveData.mk (Path.mk "/?") 1 "/?" "e4" [] [].
Definition e5 : MoveData.t :=
  MoveData.mk (Path.mk "/?WG") 2 "WG" "e5" [] [].
Definition d4 : MoveData.t :=
  MoveData.mk (Path.mk ".>") 1 ".>" "d4" [] [].
Definition d5 : MoveData.t :=
  MoveData.mk (Path.mk ".>VF") 2 "VF" "d5" [] [].

Definition heap : Store := [e4; e5; d4; d5].

Definition moves : Node.t :=
  Node.mk None
    [Node.mk (Some 0%nat) [Node.mk (Some 1%nat) []];
     Node.mk (Some 2%nat) [Node.mk (Some 3%nat) []]].

End TwoOpenings.

(** ** A game of more than ten thousand plies

    The knights go out and come back, [1. Nf3 Nf6 2. Ng1 Ng8], again and
    again. *)

Module LongGame.

Definition idOfPly (k : nat) : Id :=
  match (k mod 4)%nat with
  | 0%nat => ")8"
  | 1%nat => "aP"
  | 2%nat => "8)"
  | _ => "Pa"
  end.

Definition sanOfPly (k : nat) : string :=
  match (k mod 4)%nat with
  | 0%nat => "Nf3"
  | 1%nat => "Nf6"
  | 2%nat => "Ng1"
  | _ => "Ng8"
  end.

(** The path of the node that is reached after [k] plies. *)
Fixpoint pathOfPly (k : nat) : string :=
  match k with
  | O => ""
  | S k' => pathOfPly k' +:+ idOfPly k'
  end.

Definition data (k : nat) : MoveData.t :=
  MoveData.mk (Path.mk (pathOfPly (S k))) (Z.of_nat (S k)) (idOfPly k)
    (sanOfPly k) [] [].

Definition heap (n : nat) : Store := data <$> seq 0%nat n.

Fixpoint line (n : nat) (r : Ref) : list Node.t :=
  match n with
  | O => []
  | S n' => [Node.mk (Some r) (line n' (S r))]
  end.

Definition moves (n : nat) : Node.t := Node.mk None (line n 0%nat).

Definition game (n : nat) : Game.t :=
  Game.new (moves n) (Metadata.mk (Some "1/2-1/2") None).

Definition plies : nat := Z.to_nat 10001.

End LongGame.

(** * Proofs *)

(** ** Facts on strings *)

Section StringFacts.

Lemma app_cons (c : ascii) (s t : string) :
  String c s +:+ t = String c (s +:+ t).
Proof. reflexivity. Qed.

Lemma take_app_length (s t : string) :
  JsString.take (String.length s) (s +:+ t) = s.
Proof.
  induction s as [|c s IH]; [by destruct t|].
  rewrite app_cons. simpl. by rewrite IH.
Qed.

Lemma drop_app_length (s t : string) :
  JsString.drop (String.length s) (s +:+ t) = t.
Proof.
  induction s as [|c s IH]; [by destruct t|].
  rewrite app_cons. simpl. by rewrite IH.
Qed.

Lemma take_all (s : string) : JsString.take (String.length s) s = s.
Proof. induction s as [|c s IH]; [done|]. simpl. by rewrite IH. Qed.

Lemma app_length (s t : string) :
  String.length (s +:+ t) = (String.length s + String.length t)%nat.
Proof.
  induction s as [|c s IH]; [done|].
  rewrite app_cons. simpl. by rewrite IH.
Qed.

Lemma app_empty_r (s : string) : s +:+ "" = s.
Proof. induction s as [|c s IH]; [done|]. by rewrite app_cons, IH. Qed.

Lemma app_assoc (s t u : string) : (s +:+ t) +:+ u = s +:+ t +:+ u.
Proof. induction s as [|c s IH]; [done|]. by rewrite !app_cons, IH. Qed.

Lemma length_zero (s : string) : String.length s = 0%nat → s = "".
Proof. by destruct s. Qed.

Ltac slice_unfold :=
  unfold JsString.sliceFrom, JsString.slice, JsString.relative, JsString.len;
  rewrite ?app_length;
  repeat match goal with
         | |- context [?a <? ?b] => destruct (Z.ltb_spec a b); try lia
         end.

Lemma slice_init_app (s id : string) :
  String.length id = 2%nat → JsString.slice (s +:+ id) 0 (-2) = s.
Proof.
  intros Hid. slice_unfold.
  replace (Z.to_nat (Z.min 0 _)) with 0%nat by lia.
  replace (Z.to_nat _) with (String.length s) by lia.
  apply take_app_length.
Qed.

Lemma slice_last_app (s id : string) :
  String.length id = 2%nat → JsString.sliceFrom (s +:+ id) (-2) = id.
Proof.
  intros Hid. slice_unfold.
  replace (Z.to_nat (Z.max _ _)) with (String.length s) by lia.
  replace (Z.to_nat _) with (String.length id) by lia.
  rewrite drop_app_length. apply take_all.
Qed.

Lemma slice_head_app (id s : string) :
  String.length id = 2%nat → JsString.slice (id +:+ s) 0 2 = id.
Proof.
  intros Hid. slice_unfold.
  replace (Z.to_nat (Z.min 0 _)) with 0%nat by lia.
  replace (Z.to_nat _) with (String.length id) by lia.
  apply take_app_length.
Qed.

Lemma slice_tail_app (id s : string) :
  String.length id = 2%nat → JsString.sliceFrom (id +:+ s) 2 = s.
Proof.
  intros Hid. slice_unfold.
  replace (Z.to_nat (Z.min 2 _)) with (String.length id) by lia.
  replace (Z.to_nat _) with (String.length s) by lia.
  rewrite drop_app_length. apply take_all.
Qed.

Lemma slice_empty (from to : Z) : JsString.slice "" from to = "".
Proof. unfold JsString.slice. by destruct (Z.to_nat _), (Z.to_nat _). Qed.

End StringFacts.

(** ** Paths are sequences of 2-character identifiers *)

Section PathFacts.

(** A string of even length is empty or starts with two characters. *)
Lemma even_string_ind (P : string → Prop) :
  P "" →
  (∀ c1 c2 s, P s → P (String c1 (String c2 s))) →
  ∀ s, Nat.even (String.length s) = true → P s.
Proof.
  intros H0 H2. fix IH 1. intros [|c1 [|c2 s]] Hs.
  - done.
  - done.
  - apply H2, IH. exact Hs.
Qed.

Lemma head_cons2 (c1 c2 : ascii) (s : string) :
  head (String c1 (String c2 s)) = String c1 (String c2 "").
Proof. exact (slice_head_app (String c1 (String c2 "")) s eq_refl). Qed.

Lemma tail_cons2 (c1 c2 : ascii) (s : string) :
  tail (String c1 (String c2 s)) = s.
Proof. exact (slice_tail_app (String c1 (String c2 "")) s eq_refl). Qed.

Lemma head_id (id : Id) : String.length id = 2%nat → head id = id.
Proof.
  intros H. rewrite <- (app_empty_r id) at 1. by apply slice_head_app.
Qed.

Lemma tail_id (id : Id) : String.length id = 2%nat → tail id = "".
Proof.
  intros H. rewrite <- (app_empty_r id). by apply slice_tail_app.
Qed.

Lemma id_not_empty (id : Id) : String.length id = 2%nat → id ≠ "".
Proof. by destruct id. Qed.

Lemma app_not_empty (s id : string) : id ≠ "" → s +:+ id ≠ "".
Proof. by destruct s, id. Qed.

(** A non-empty path is its parent followed by its last identifier. *)
Lemma even_path_split (p : string) :
  Nat.even (String.length p) = true → p ≠ "" →
  ∃ parent id,
    p = parent +:+ id ∧ String.length id = 2%nat ∧
    Nat.even (String.length parent) = true.
Proof.
  intros Hp. pattern p. revert p Hp. apply even_string_ind; [done|].
  intros c1 c2 s IH _. destruct (decide (s = "")) as [->|Hs].
  - by exists "", (String c1 (String c2 "")).
  - destruct (IH Hs) as (parent & id & -> & Hid & Hpar).
    by exists (String c1 (String c2 parent)), id.
Qed.

Lemma foldl_append_path (ids : list Id) (p : Path.t) :
  Path.path (foldl Path.append p ids) =
  Path.path p +:+ foldr String.append "" ids.
Proof.
  revert p. induction ids as [|id ids IH]; intros p; simpl.
  - by rewrite app_empty_r.
  - by rewrite IH, <- app_assoc.
Qed.

Lemma iter_tail (ids : list Id) (s : string) :
  Forall (λ id, String.length id = 2%nat) ids →
  Nat.iter (length ids) Path.tail
    (Path.mk (foldr String.append "" ids +:+ s)) = Path.mk s.
Proof.
  induction 1 as [|id ids Hid _ IH]; [done|].
  rewrite length_cons, Nat.iter_succ_r. cbn [foldr].
  unfold Path.tail at 2. cbn [Path.path].
  by rewrite app_assoc, slice_tail_app.
Qed.

Lemma iter_init (ids : list Id) (p : Path.t) :
  Forall (λ id, String.length id = 2%nat) ids →
  Nat.iter (length ids) Path.init (foldl Path.append p ids) = p.
Proof.
  intros Hids. revert p.
  induction Hids as [|id ids Hid _ IH]; intros p; [done|].
  rewrite length_cons, Nat.iter_succ. cbn [foldl].
  rewrite IH. unfold Path.init, Path.append. cbn [Path.path].
  rewrite slice_init_app by done. by destruct p.
Qed.

End PathFacts.

(** C9. Path round-trip: [append] followed by [init] gives the path back;
    after [n] identifiers have been appended to the root, [n] times [tail]
    (and [n] times [init]) give the root; [init] and [tail] of the root are
    the root, so that a parent step never underflows. *)
Theorem path_round_trip (p : Path.t) (id : Id) (ids : list Id) :
  String.length id = 2%nat →
  Forall (λ id, String.length id = 2%nat) ids →
  Path.init (Path.append p id) = p ∧
  Path.equals (Path.init (Path.append p id)) p = true ∧
  Nat.iter (length ids) Path.tail (foldl Path.append Path.root ids)
    = Path.root ∧
  Nat.iter (length ids) Path.init (foldl Path.append Path.root ids)
    = Path.root ∧
  Path.init Path.root = Path.root ∧
  Path.tail Path.root = Path.root.
Proof.
  intros Hid Hids.
  assert (Path.init (Path.append p id) = p) as Hinit.
  { unfold Path.init, Path.append. cbn [Path.path].
    rewrite slice_init_app by done. by destruct p. }
  split_and!; try done.
  - rewrite Hinit. unfold Path.equals. by apply bool_decide_eq_true.
  - pose proof (iter_tail ids "" Hids) as H. rewrite app_empty_r in H.
    etrans; [|exact H]. f_equal.
    pose proof (foldl_append_path ids Path.root) as E.
    by destruct (foldl _ _ _); simpl in E; subst.
  - by apply iter_init.
Qed.

Lemma path_round_trip_witness :
  Path.init (Path.append (Path.mk "/?WG") ")8") = Path.mk "/?WG" ∧
  Nat.iter 3 Path.tail (foldl Path.append Path.root ["/?"; "WG"; ")8"])
    = Path.root.
Proof.
  pose proof (path_round_trip (Path.mk "/?WG") ")8" ["/?"; "WG"; ")8"]
                eq_refl) as H.
  destruct H as (H1 & _ & H2 & _).
  - repeat constructor.
  - split; [exact H1|exact H2].
Defined.

(** ** Resolution of paths in the tree *)

Section Resolution.

Variable σ : Store.

(** Induction on a node, with the property on all its children. *)
Lemma node_ind (P : Node.t → Prop) :
  (∀ d cs, Forall P cs → P (Node.mk d cs)) → ∀ n, P n.
Proof.
  intros H. fix IH 1. intros [d cs]. apply H.
  induction cs as [|c cs IHcs]; constructor; [apply IH|exact IHcs].
Qed.

Lemma dataId_data (n n' : Node.t) :
  Node.data n = Node.data n' → Node.dataId σ n = Node.dataId σ n'.
Proof. unfold Node.dataId, Node.dataOf. by intros ->. Qed.

(** The equation of the source: look the head up, go on with the tail. *)
Lemma nodeAtPathOrNullFrom_eq (node : Node.t) (path : string) :
  PgnViewer.nodeAtPathOrNullFrom σ node path =
  if decide (path = "") then Some node
  else child ← childById σ node (head path);
       PgnViewer.nodeAtPathOrNullFrom σ child (tail path).
Proof.
  destruct node as [d cs]. simpl. destruct (decide (path = "")); [done|].
  unfold childById, JsArray.find. simpl.
  induction cs as [|c cs IH]; [done|]. simpl.
  repeat case_decide; try done.
  rewrite IH. by destruct (list_find _ cs) as [[]|].
Qed.

Lemma nodeAtPathFrom_eq (node : Node.t) (path : Path.t) :
  nodeAtPathFrom σ node path =
  if Path.empty path then Some node
  else child ← childById σ node (Path.head path);
       nodeAtPathFrom σ child (Path.tail path).
Proof.
  destruct node as [d cs]. simpl. destruct (Path.empty path); [done|].
  unfold childById, JsArray.find. simpl.
  induction cs as [|c cs IH]; [done|]. simpl.
  repeat case_decide; try done.
  rewrite IH. by destruct (list_find _ cs) as [[]|].
Qed.

(** [Game.nodeAt] and [nodeAtPathOrNull] resolve alike. *)
Lemma nodeAtPathFrom_string (node : Node.t) (path : Path.t) :
  nodeAtPathFrom σ node path =
  PgnViewer.nodeAtPathOrNullFrom σ node (Path.path path).
Proof.
  revert path. induction node as [d cs IH] using node_ind. intros path.
  simpl. unfold Path.empty.
  destruct (decide (Path.path path = "")) as [E|E].
  - by rewrite bool_decide_eq_true_2.
  - rewrite bool_decide_eq_false_2 by done.
    induction IH as [|c cs Hc _ IHcs]; [done|].
    change (Path.head path) with (head (Path.path path)).
    destruct (decide _); [apply Hc|apply IHcs].
Qed.

Lemma resolve_root (node : Node.t) :
  PgnViewer.nodeAtPathOrNullFrom σ node "" = Some node.
Proof. by destruct node. Qed.

Lemma childById_Some (node child : Node.t) (id : Id) :
  childById σ node id = Some child →
  ∃ index,
    list_find (λ c, Node.dataId σ c = Some id) (Node.children node)
      = Some (index, child).
Proof.
  unfold childById, JsArray.find. intros H.
  destruct (list_find _ _) as [[index c]|]; [|done].
  exists index. simpl in H. congruence.
Qed.

(** A path followed by an identifier resolves to the child with this
    identifier of the node the path resolves to. *)
Lemma resolve_app (path : string) (id : Id) (node : Node.t) :
  Nat.even (String.length path) = true → String.length id = 2%nat →
  PgnViewer.nodeAtPathOrNullFrom σ node (path +:+ id) =
  parent ← PgnViewer.nodeAtPathOrNullFrom σ node path;
  childById σ parent id.
Proof.
  intros Hpath Hid. revert node. pattern path. revert path Hpath.
  apply even_string_ind.
  - intros node. rewrite resolve_root. change ("" +:+ id) with id.
    rewrite nodeAtPathOrNullFrom_eq.
    rewrite decide_False by by apply id_not_empty.
    rewrite head_id, tail_id by done. simpl.
    destruct (childById σ node id); [apply resolve_root|done].
  - intros c1 c2 s IH node.
    rewrite (nodeAtPathOrNullFrom_eq node (String c1 (String c2 s) +:+ id)).
    rewrite (nodeAtPathOrNullFrom_eq node (String c1 (String c2 s))).
    rewrite !decide_False by done.
    rewrite !app_cons, !head_cons2, !tail_cons2.
    destruct (childById σ node _) as [child|]; [apply IH|done].
Qed.

End Resolution.

(** ** Writes through a resolved reference *)

Section Update.

Variable σ : Store.
Variable update : Node.t → Node.t.
Hypothesis update_data : ∀ n, Node.data (update n) = Node.data n.

Lemma updateAtFrom_data (node : Node.t) (path : string) :
  Node.data (PgnViewer.updateAtFrom σ update node path) = Node.data node.
Proof.
  destruct node as [d cs]. simpl. by case_decide.
Qed.

(** After the write, the path resolves to the updated node. *)
Lemma resolve_update (node : Node.t) (path : string) :
  PgnViewer.nodeAtPathOrNullFrom σ
    (PgnViewer.updateAtFrom σ update node path) path =
  update <$> PgnViewer.nodeAtPathOrNullFrom σ node path.
Proof.
  revert path. induction node as [d cs IH] using node_ind. intros path.
  destruct (decide (path = "")) as [->|E].
  { simpl. apply resolve_root. }
  simpl. rewrite !decide_False by done.
  simpl. rewrite !decide_False by done.
  induction IH as [|c cs Hc _ IHcs]; [done|].
  destruct (decide (Node.dataId σ c = Some (head path))) as [Hid|Hid].
  - rewrite decide_True; [apply Hc|].
    rewrite <- Hid. apply dataId_data, updateAtFrom_data.
  - by rewrite decide_False.
Qed.

End Update.

Section Cursor.

(** The current node is the node the current path resolves to; when the
    path resolves to nothing, [curNode] falls back to the root. *)
Lemma curNode_resolved (v : PgnViewer.t) (node : Node.t) :
  PgnViewer.nodeAtPathOrNull v (Path.path (PgnViewer.path v)) = Some node →
  PgnViewer.curNode v = node.
Proof.
  unfold PgnViewer.curNode, Game.nodeAt, PgnViewer.nodeAtPathOrNull.
  unfold PgnViewer.moves. rewrite nodeAtPathFrom_string. by intros ->.
Qed.

Lemma curNode_unresolved (v : PgnViewer.t) :
  PgnViewer.nodeAtPathOrNull v (Path.path (PgnViewer.path v)) = None →
  PgnViewer.curNode v = PgnViewer.moves v.
Proof.
  unfold PgnViewer.curNode, Game.nodeAt, PgnViewer.nodeAtPathOrNull.
  unfold PgnViewer.moves. rewrite nodeAtPathFrom_string. by intros ->.
Qed.

Lemma canGoTo_next_children (v : PgnViewer.t) (to : GoTo.t)
  (node : Node.t) :
  to = GoTo.next ∨ to = GoTo.last →
  PgnViewer.curNode v = node →
  (PgnViewer.canGoTo v to = true ↔ Node.children node ≠ []) ∧
  (PgnViewer.canGoTo v to = false ↔ Node.children node = []).
Proof.
  intros Hto <-. unfold PgnViewer.canGoTo.
  destruct Hto as [-> | ->];
    by destruct (Node.children (PgnViewer.curNode v)).
Qed.

(** C7. [canGoTo("prev")] and [canGoTo("first")] hold exactly when the
    current path is not the root, so [canGoTo("prev")] is false exactly
    at the root.  [canGoTo("next")] and [canGoTo("last")] hold exactly
    when the current node has a child, so [canGoTo("next")] is false
    exactly at a childless node; the current node is the node that the
    current path resolves to, and the root of the tree for a path that
    resolves to nothing, as [curNode] has it. *)
Theorem canGoTo_boundaries (v : PgnViewer.t) :
  (PgnViewer.canGoTo v GoTo.prev = true ↔ PgnViewer.path v ≠ Path.root) ∧
  (PgnViewer.canGoTo v GoTo.first = true ↔ PgnViewer.path v ≠ Path.root) ∧
  (PgnViewer.canGoTo v GoTo.prev = false ↔ PgnViewer.path v = Path.root) ∧
  (∀ node,
     PgnViewer.nodeAtPathOrNull v (Path.path (PgnViewer.path v))
       = Some node →
     PgnViewer.curNode v = node ∧
     (PgnViewer.canGoTo v GoTo.next = true ↔ Node.children node ≠ []) ∧
     (PgnViewer.canGoTo v GoTo.last = true ↔ Node.children node ≠ []) ∧
     (PgnViewer.canGoTo v GoTo.next = false ↔ Node.children node = [])) ∧
  (PgnViewer.nodeAtPathOrNull v (Path.path (PgnViewer.path v)) = None →
   PgnViewer.curNode v = PgnViewer.moves v ∧
   (PgnViewer.canGoTo v GoTo.next = true ↔
      Node.children (PgnViewer.moves v) ≠ []) ∧
   (PgnViewer.canGoTo v GoTo.last = true ↔
      Node.children (PgnViewer.moves v) ≠ []) ∧
   (PgnViewer.canGoTo v GoTo.next = false ↔
      Node.children (PgnViewer.moves v) = [])).
Proof.
  assert (∀ node,
            PgnViewer.curNode v = node →
            PgnViewer.curNode v = node ∧
            (PgnViewer.canGoTo v GoTo.next = true ↔
               Node.children node ≠ []) ∧
            (PgnViewer.canGoTo v GoTo.last = true ↔
               Node.children node ≠ []) ∧
            (PgnViewer.canGoTo v GoTo.next = false ↔
               Node.children node = [])) as Hcur.
  { intros node Hnode.
    destruct (canGoTo_next_children v GoTo.next node) as [Hn1 Hn2];
      [by left|done|].
    destruct (canGoTo_next_children v GoTo.last node) as [Hl1 _];
      [by right|done|].
    done. }
  split_and!.
  - unfold PgnViewer.canGoTo, Path.empty, Path.root.
    destruct (PgnViewer.path v) as [s]. cbn [Path.path].
    rewrite negb_true_iff, bool_decide_eq_false. split; congruence.
  - unfold PgnViewer.canGoTo, Path.empty, Path.root.
    destruct (PgnViewer.path v) as [s]. cbn [Path.path].
    rewrite negb_true_iff, bool_decide_eq_false. split; congruence.
  - unfold PgnViewer.canGoTo, Path.empty, Path.root.
    destruct (PgnViewer.path v) as [s]. cbn [Path.path].
    rewrite negb_false_iff, bool_decide_eq_true. split; congruence.
  - intros node Hres. by apply Hcur, curNode_resolved.
  - intros Hres. by apply Hcur, curNode_unresolved.
Qed.

End Cursor.

Lemma canGoTo_boundaries_witness :
  PgnViewer.canGoTo
    (PgnViewer.withPath Scenario.viewer (Path.mk "/?WG)8")) GoTo.next
    = false ∧
  PgnViewer.canGoTo
    (PgnViewer.withPath Scenario.viewer (Path.mk "/?WG")) GoTo.next
    = true.
Proof.
  split.
  - destruct (canGoTo_boundaries
                (PgnViewer.withPath Scenario.viewer (Path.mk "/?WG)8")))
      as (_ & _ & _ & Hres & _).
    destruct (Hres (Scenario.leaf 2%nat) eq_refl) as (_ & _ & _ & Hnext).
    by apply Hnext.
  - destruct (canGoTo_boundaries
                (PgnViewer.withPath Scenario.viewer (Path.mk "/?WG")))
      as (_ & _ & _ & Hres & _).
    destruct (Hres (Node.mk (Some 1%nat) [Scenario.leaf 2%nat]) eq_refl)
      as (_ & Hnext & _).
    by apply Hnext.
Defined.

(** ** Fields of the viewer after a write *)

Section Fields.

Lemma moves_withMoves (v : PgnViewer.t) (moves : Node.t) :
  PgnViewer.moves (PgnViewer.withMoves v moves) = moves.
Proof. reflexivity. Qed.

Lemma mainline_withMoves (v : PgnViewer.t) (moves : Node.t) :
  Game.mainline (PgnViewer.game (PgnViewer.withMoves v moves))
  = Game.mainline (PgnViewer.game v).
Proof. reflexivity. Qed.

Lemma mainline_withResult (v : PgnViewer.t) (r : option string) :
  Game.mainline (PgnViewer.game (PgnViewer.withResult v r))
  = Game.mainline (PgnViewer.game v).
Proof. reflexivity. Qed.

Lemma mainline_writeComments (v : PgnViewer.t) (r : Ref)
  (cs : list string) :
  Game.mainline (PgnViewer.game (PgnViewer.writeComments v r cs))
  = Game.mainline (PgnViewer.game v).
Proof. reflexivity. Qed.

End Fields.

(** ** Insertion *)

Section Insert.

Variable v : PgnViewer.t.
Variable node : Node.t.
Variable parentPath : string.
Variable parent : Node.t.
Variable id : Id.

Hypothesis path_even : Nat.even (String.length parentPath) = true.
Hypothesis node_id : Node.dataId (PgnViewer.heap v) node = Some id.
Hypothesis id_length : String.length id = 2%nat.
Hypothesis parent_resolves :
  PgnViewer.nodeAtPathOrNull v parentPath = Some parent.

Let newPath : string := parentPath +:+ id.

Let push (parent : Node.t) : Node.t :=
  Node.withChildren parent (JsArray.push (Node.children parent) node).

Let appended : PgnViewer.t :=
  PgnViewer.withMoves v
    (PgnViewer.updateAtFrom (PgnViewer.heap v) push (PgnViewer.moves v)
       parentPath).

Lemma resolve_newPath :
  PgnViewer.nodeAtPathOrNull v newPath =
  childById (PgnViewer.heap v) parent id.
Proof.
  unfold PgnViewer.nodeAtPathOrNull, newPath in *.
  by rewrite resolve_app, parent_resolves.
Qed.

Lemma addNode_existing (child : Node.t) :
  childById (PgnViewer.heap v) parent id = Some child →
  PgnViewer.addNode v node parentPath = (Some newPath, v).
Proof.
  intros H. unfold PgnViewer.addNode. rewrite node_id. simpl.
  fold newPath. by rewrite resolve_newPath, H.
Qed.

Lemma addNode_appended :
  childById (PgnViewer.heap v) parent id = None →
  PgnViewer.addNode v node parentPath = (Some newPath, appended).
Proof.
  intros H. unfold PgnViewer.addNode. rewrite node_id. simpl.
  fold newPath. rewrite resolve_newPath, H.
  unfold PgnViewer.updateAt. by rewrite parent_resolves.
Qed.

Lemma appended_parent :
  PgnViewer.nodeAtPathOrNull appended parentPath = Some (push parent).
Proof.
  unfold PgnViewer.nodeAtPathOrNull, appended in *.
  rewrite moves_withMoves. cbn [PgnViewer.heap PgnViewer.withMoves].
  rewrite resolve_update by done. by rewrite parent_resolves.
Qed.

Lemma appended_child :
  childById (PgnViewer.heap v) parent id = None →
  PgnViewer.nodeAtPathOrNull appended newPath = Some node.
Proof.
  intros H. pose proof appended_parent as Hp.
  unfold PgnViewer.nodeAtPathOrNull, newPath in *.
  rewrite resolve_app, Hp by done. simpl.
  unfold childById, JsArray.find, JsArray.push in *. simpl.
  destruct (list_find _ (Node.children parent)) eqn:E; [done|].
  rewrite list_find_app_r by done. simpl.
  by rewrite decide_True.
Qed.

(** C5. Insert is idempotent.  When the parent has a child with the
    identifier of the node, [addNode] returns the path of that child and
    changes nothing; otherwise the node becomes the last child of the
    parent and its path is returned.  A second insert of the same move at
    the same parent returns the same path and changes nothing, so the
    number of children of the parent stays as it is. *)
Theorem addNode_idempotent :
  (∀ child,
     childById (PgnViewer.heap v) parent id = Some child →
     PgnViewer.addNode v node parentPath
       = (Some (parentPath +:+ id), v)) ∧
  (childById (PgnViewer.heap v) parent id = None →
   ∃ v',
     PgnViewer.addNode v node parentPath = (Some (parentPath +:+ id), v') ∧
     PgnViewer.heap v' = PgnViewer.heap v ∧
     PgnViewer.nodeAtPathOrNull v' parentPath =
       Some (Node.withChildren parent (Node.children parent ++ [node])) ∧
     PgnViewer.nodeAtPathOrNull v' (parentPath +:+ id) = Some node) ∧
  (∀ path1 v1,
     PgnViewer.addNode v node parentPath = (path1, v1) →
     path1 = Some (parentPath +:+ id) ∧
     PgnViewer.addNode v1 node parentPath = (path1, v1) ∧
     (length ∘ Node.children <$>
        PgnViewer.nodeAtPathOrNull
          (PgnViewer.addNode v1 node parentPath).2 parentPath) =
     (length ∘ Node.children <$>
        PgnViewer.nodeAtPathOrNull v1 parentPath)).
Proof.
  split_and!.
  - apply addNode_existing.
  - intros H. exists appended. split_and!.
    + by apply addNode_appended.
    + done.
    + apply appended_parent.
    + by apply appended_child.
  - intros path1 v1 H1.
    destruct (childById (PgnViewer.heap v) parent id) as [child|] eqn:E.
    + rewrite (addNode_existing child E) in H1. injection H1 as <- <-.
      by rewrite (addNode_existing child E).
    + rewrite (addNode_appended E) in H1. injection H1 as <- <-.
      assert (PgnViewer.addNode appended node parentPath
              = (Some newPath, appended)) as ->; [|done].
      unfold PgnViewer.addNode.
      change (PgnViewer.heap appended) with (PgnViewer.heap v).
      rewrite node_id. simpl. fold newPath.
      by rewrite appended_child.
Qed.

End Insert.

Lemma addNode_idempotent_witness :
  PgnViewer.addNode Scenario.viewer (Scenario.leaf 4%nat) "/?WG)8"
    = (Some "/?WG)8aP",
       (PgnViewer.addNode Scenario.viewer (Scenario.leaf 4%nat) "/?WG)8").2) ∧
  PgnViewer.addNode
    (PgnViewer.addNode Scenario.viewer (Scenario.leaf 4%nat) "/?WG)8").2
    (Scenario.leaf 4%nat) "/?WG)8"
    = (Some "/?WG)8aP",
       (PgnViewer.addNode Scenario.viewer (Scenario.leaf 4%nat) "/?WG)8").2).
Proof.
  pose proof (addNode_idempotent Scenario.viewer (Scenario.leaf 4%nat) "/?WG)8"
                (Scenario.leaf 2%nat) "aP" eq_refl eq_refl eq_refl eq_refl)
    as (_ & _ & H).
  destruct (H _ _ eq_refl) as (_ & H2 & _).
  split; [reflexivity|exact H2].
Defined.

(** ** Insertion of a sequence *)

Section InsertSequence.

Lemma addNode_failed (v : PgnViewer.t) (node : Node.t) (path : string) :
  (PgnViewer.addNode v node path).1 = None →
  (PgnViewer.addNode v node path).2 = v.
Proof.
  unfold PgnViewer.addNode, PgnViewer.updateAt.
  destruct (PgnViewer.nodeAtPathOrNull v (path +:+ _)); [done|].
  by destruct (PgnViewer.nodeAtPathOrNull v path).
Qed.

(** An insert fails exactly when neither the new path nor the path of the
    parent resolves. *)
Lemma addNode_fails_iff (v : PgnViewer.t) (node : Node.t) (path : string) :
  (PgnViewer.addNode v node path).1 = None ↔
  PgnViewer.nodeAtPathOrNull v
    (path +:+ default "" (Node.dataId (PgnViewer.heap v) node)) = None ∧
  PgnViewer.nodeAtPathOrNull v path = None.
Proof.
  unfold PgnViewer.addNode, PgnViewer.updateAt.
  destruct (PgnViewer.nodeAtPathOrNull v (path +:+ _));
    [simpl; intuition congruence|].
  destruct (PgnViewer.nodeAtPathOrNull v path); simpl; intuition congruence.
Qed.

(** C6. [addNodes] inserts the nodes one after the other, each at the
    path the insert before it returned.  When the inserts of [before]
    succeed, leading to the path [path'] and the viewer [v'], and the
    insert of [node] at [path'] fails, then [addNodes] stops there: it
    returns no result, nothing of [after] is inserted, and the viewer it
    leaves is [v'], with all of [before] in it: nothing is rolled back. *)
Theorem addNodes_stops_without_rollback
  (v v' : PgnViewer.t) (before after : list Node.t) (node : Node.t)
  (path path' : string) :
  PgnViewer.addNodes v before path = (Some path', v') →
  (PgnViewer.addNode v' node path').1 = None →
  PgnViewer.addNodes v (before ++ node :: after) path = (None, v').
Proof.
  revert v path. induction before as [|b before IH]; intros v path.
  - intros [= <- <-] Hfail. simpl.
    pose proof (addNode_failed _ _ _ Hfail) as Hv.
    destruct (PgnViewer.addNode v node path) as [[?|] ?]; simpl in *;
      by simplify_eq.
  - simpl. destruct (PgnViewer.addNode v b path) as [[newPath|] v1];
      [|done].
    case_decide; [done|]. apply IH.
Qed.

End InsertSequence.

Lemma addNodes_stops_without_rollback_witness :
  let inserted :=
    (PgnViewer.addNodes Scenario.viewer
       [Scenario.leaf 5%nat; Scenario.leaf 6%nat] "/?UE").2 in
  PgnViewer.addNodes Scenario.viewer
    [Scenario.leaf 5%nat; Scenario.leaf 6%nat; Scenario.leaf 7%nat] "/?UE"
    = (None, inserted) ∧
  PgnViewer.nodeAtPathOrNull inserted "/?UE$5"
    = Some (Node.mk (Some 5%nat) [Scenario.leaf 6%nat]).
Proof.
  split; [|reflexivity].
  exact (addNodes_stops_without_rollback Scenario.viewer _
           [Scenario.leaf 5%nat; Scenario.leaf 6%nat] [] (Scenario.leaf 7%nat)
           "/?UE" "/?UE$5d7d6" eq_refl eq_refl).
Defined.

(** ** Deletion *)

Section Delete.

Lemma splice_one {A} (xs : list A) (index : nat) (x : A) :
  xs !! index = Some x →
  JsArray.splice xs (Z.of_nat index) 1 = ([x], delete index xs).
Proof.
  intros H. pose proof (lookup_lt_Some _ _ _ H) as Hlt.
  unfold JsArray.splice, JsString.relative.
  destruct (Z.ltb_spec (Z.of_nat index) 0); [lia|].
  replace (Z.to_nat (Z.min (Z.of_nat index) _)) with index by lia.
  replace (Z.to_nat _) with 1%nat by lia.
  rewrite delete_take_drop. f_equal.
  - rewrite (drop_S _ _ _ H). done.
  - by rewrite Nat.add_1_r.
Qed.

Variable v : PgnViewer.t.
Variable nodePath : string.

Hypothesis path_even : Nat.even (String.length nodePath) = true.
Hypothesis path_not_root : nodePath ≠ "".

Let parentId : string := JsString.slice nodePath 0 (-2).
Let nodeId : string := JsString.sliceFrom nodePath (-2).

Lemma nodePath_split :
  nodePath = parentId +:+ nodeId ∧ String.length nodeId = 2%nat ∧
  Nat.even (String.length parentId) = true.
Proof.
  destruct (even_path_split nodePath path_even path_not_root)
    as (parent & id & E & Hid & Hparent).
  unfold parentId, nodeId. rewrite E.
  by rewrite slice_init_app, slice_last_app.
Qed.

Lemma resolve_nodePath :
  PgnViewer.nodeAtPathOrNull v nodePath =
  parent ← PgnViewer.nodeAtPathOrNull v parentId;
  childById (PgnViewer.heap v) parent nodeId.
Proof.
  destruct nodePath_split as (E & Hid & Hparent).
  unfold PgnViewer.nodeAtPathOrNull. rewrite E at 1.
  by apply resolve_app.
Qed.

(** What [deleteNode] does, for a path that is not the root: when it
    resolves to [node], [node] is the first child of the parent with the
    last identifier of the path, and [deleteNode] takes it, with its
    subtree, out of the children of the parent; when the path does not
    resolve, [deleteNode] returns [null] and changes nothing.  The value
    returned after a removal is read at the end of the mainline as it is
    then: the defect of C4 below. *)
Theorem deleteNode_removes_subtree :
  (∀ node,
     PgnViewer.nodeAtPathOrNull v nodePath = Some node →
     ∃ parent index v',
       PgnViewer.nodeAtPathOrNull v parentId = Some parent ∧
       list_find (λ child, Node.dataId (PgnViewer.heap v) child = Some nodeId)
         (Node.children parent) = Some (index, node) ∧
       PgnViewer.deleteNode v nodePath
         = (match Node.lastMainlineData (PgnViewer.moves v') with
            | Some r => Data r
            | None => Undefined
            end, v') ∧
       PgnViewer.heap v' = PgnViewer.heap v ∧
       PgnViewer.nodeAtPathOrNull v' parentId =
         Some (Node.withChildren parent
                 (delete index (Node.children parent)))) ∧
  (PgnViewer.nodeAtPathOrNull v nodePath = None →
   PgnViewer.deleteNode v nodePath = (Null, v)).
Proof.
  rewrite resolve_nodePath. unfold PgnViewer.deleteNode.
  fold parentId nodeId.
  destruct (PgnViewer.nodeAtPathOrNull v parentId) as [parent|] eqn:Hp;
    [|done].
  simpl. unfold childById, JsArray.find, JsArray.findIndex.
  destruct (list_find _ (Node.children parent)) as [[index child]|] eqn:Hf;
    [|done].
  simpl. split; [|done]. intros node [= <-].
  pose proof Hf as (Hchild & _)%list_find_Some.
  set (cut := λ parent : Node.t,
         Node.withChildren parent
           (JsArray.splice (Node.children parent) (Z.of_nat index) 1).2).
  exists parent, index,
    (PgnViewer.withMoves v
       (PgnViewer.updateAtFrom (PgnViewer.heap v) cut (PgnViewer.moves v)
          parentId)).
  split_and!; try done.
  - f_equal. rewrite moves_withMoves.
    unfold Node.lastMainlineData, Node.mainline.
    set (nodes := Node.mainlineNodes _).
    rewrite length_fmap, list_lookup_fmap, last_lookup.
    destruct (Z.ltb_spec (Z.of_nat (length nodes) - 1) 0) as [Hlt|Hge].
    + assert (length nodes = 0%nat) as ->%nil_length_inv by lia. done.
    + replace (Z.to_nat _) with (pred (length nodes)) by lia.
      by destruct (nodes !! _) as [[[r|] ?]|].
  - unfold PgnViewer.nodeAtPathOrNull in *. rewrite moves_withMoves.
    cbn [PgnViewer.heap PgnViewer.withMoves].
    rewrite resolve_update by done. rewrite Hp. simpl. unfold cut.
    by rewrite (splice_one _ _ _ Hchild).
Qed.

End Delete.

Lemma deleteNode_removes_subtree_witness :
  ∃ parent index v',
    PgnViewer.nodeAtPathOrNull Scenario.viewer "/?WG" = Some parent ∧
    list_find
      (λ child, Node.dataId (PgnViewer.heap Scenario.viewer) child = Some ")8")
      (Node.children parent) = Some (index, Scenario.leaf 2%nat) ∧
    PgnViewer.deleteNode Scenario.viewer "/?WG)8"
      = (match Node.lastMainlineData (PgnViewer.moves v') with
         | Some r => Data r
         | None => Undefined
         end, v') ∧
    PgnViewer.heap v' = PgnViewer.heap Scenario.viewer ∧
    PgnViewer.nodeAtPathOrNull v' "/?WG" =
      Some (Node.withChildren parent (delete index (Node.children parent))).
Proof.
  assert ("/?WG)8" ≠ "") as Hpath by done.
  exact (proj1 (deleteNode_removes_subtree Scenario.viewer "/?WG)8"
                  eq_refl Hpath) (Scenario.leaf 2%nat) eq_refl).
Defined.

(** C4 fails on the code, by a defect of [deleteNode]: it returns
    [mainline[mainline.length - 1]], read after the removal, where its own
    comment says [return the last node before the deleted one] and the
    claim says the data of the removed node.  When the variation
    [1... c5] is deleted, the removed node, which is gone afterwards,
    holds the data object 3, and [deleteNode] returns the data object 2,
    that of [2. Nf3]; when [1... e5] is deleted it returns the data of
    its sibling [1... c5]; when [1. e4] is deleted it returns
    [undefined], which its type [MoveData | null] excludes. *)
Theorem deleteNode_returns_other_data :
  PgnViewer.nodeAtPathOrNull Scenario.viewer "/?UE"
    = Some (Scenario.leaf 3%nat) ∧
  (PgnViewer.deleteNode Scenario.viewer "/?UE").1 = Data 2%nat ∧
  (PgnViewer.deleteNode Scenario.viewer "/?UE").1 ≠ Data 3%nat ∧
  PgnViewer.nodeAtPathOrNull
    (PgnViewer.deleteNode Scenario.viewer "/?UE").2 "/?UE" = None ∧
  PgnViewer.heap Scenario.viewer !! 2%nat = Some Scenario.Nf3 ∧
  PgnViewer.heap Scenario.viewer !! 3%nat = Some Scenario.c5 ∧
  (PgnViewer.deleteNode Scenario.viewer "/?WG").1 = Data 3%nat ∧
  (PgnViewer.deleteNode Scenario.viewer "/?").1 = Undefined.
Proof. by split_and!. Qed.

(** ** Comments *)

Section Comments.

Lemma writeComments_same (v : PgnViewer.t) (r : Ref) (d : MoveData.t) :
  PgnViewer.heap v !! r = Some d →
  PgnViewer.writeComments v r (MoveData.comments d) = v.
Proof.
  intros H. unfold PgnViewer.writeComments, PgnViewer.withHeap.
  destruct v as [σ g p]. cbn [PgnViewer.heap] in *. f_equal.
  apply list_eq. intros i. destruct (decide (i = r)) as [->|Hi].
  - rewrite list_lookup_alter_eq, H. by destruct d.
  - by rewrite list_lookup_alter_ne.
Qed.

(** An index at or beyond the length is ignored by both operations. *)
Lemma deleteComment_beyond_end (v : PgnViewer.t) (path : string)
  (index : Z) (r : Ref) (d : MoveData.t) (cs : list Node.t) :
  PgnViewer.nodeAtPathOrNull v path = Some (Node.mk (Some r) cs) →
  PgnViewer.heap v !! r = Some d →
  Z.of_nat (length (MoveData.comments d)) ≤ index →
  PgnViewer.deleteComment v path index = v.
Proof.
  intros Hn Hd Hi. unfold PgnViewer.deleteComment. rewrite Hn, Hd.
  by destruct (Z.ltb_spec index (Z.of_nat (length (MoveData.comments d))));
    [lia|].
Qed.

Lemma editComment_beyond_end (v : PgnViewer.t) (path : string)
  (index : Z) (new : string) (r : Ref) (d : MoveData.t)
  (cs : list Node.t) :
  PgnViewer.nodeAtPathOrNull v path = Some (Node.mk (Some r) cs) →
  PgnViewer.heap v !! r = Some d →
  Z.of_nat (length (MoveData.comments d)) ≤ index →
  PgnViewer.editComment v path index new = v.
Proof.
  intros Hn Hd Hi. unfold PgnViewer.editComment. rewrite Hn, Hd.
  by destruct (Z.ltb_spec index (Z.of_nat (length (MoveData.comments d))));
    [lia|].
Qed.

(** A negative index leaves the elements alone in [editComment]. *)
Lemma editComment_negative (v : PgnViewer.t) (path : string) (index : Z)
  (new : string) :
  index < 0 → PgnViewer.editComment v path index new = v.
Proof.
  intros Hi. unfold PgnViewer.editComment.
  destruct (PgnViewer.nodeAtPathOrNull v path) as [[[r|] cs]|]; [|done..].
  destruct (PgnViewer.heap v !! r) as [d|] eqn:Hd; [|done].
  destruct (Z.ltb_spec index (Z.of_nat (length (MoveData.comments d))));
    [|done].
  unfold JsArray.assign. destruct (Z.ltb_spec index 0); [|lia].
  by apply writeComments_same.
Qed.

(** C8 fails in [deleteComment] for a negative index: the guard
    [index < comments.length] lets it through, and [splice] counts a
    negative start from the end.  With index [-1] the only comment of
    [2. Nf3] is removed. *)
Theorem deleteComment_negative_index_removes :
  MoveData.comments <$> PgnViewer.heap Scenario.viewer !! 2%nat
    = Some ["King's knight"] ∧
  MoveData.comments <$>
    PgnViewer.heap (PgnViewer.deleteComment Scenario.viewer "/?WG)8" (-1))
      !! 2%nat
    = Some [].
Proof. by split. Qed.

End Comments.

(** ** The cached mainline *)

Section MainlineCache.

Lemma length_mainline (moves : Node.t) :
  length (Node.mainline moves) = Node.plyCount moves.
Proof.
  unfold Node.mainline. rewrite length_fmap.
  induction moves as [d cs IH] using node_ind.
  destruct IH as [|c cs Hc _]; simpl; [done|by rewrite Hc].
Qed.

Lemma mainline_clear (refs : list (option Ref)) (v : PgnViewer.t) :
  Game.mainline
    (PgnViewer.game
       (foldl (λ v r, match r with
                      | Some r => PgnViewer.writeComments v r []
                      | None => v
                      end) v refs))
  = Game.mainline (PgnViewer.game v).
Proof.
  revert v. induction refs as [|[r|] refs IH]; intros v; simpl; [done|..].
  - by rewrite IH.
  - by rewrite IH.
Qed.

(** C2, as the code has it.  The cached mainline is computed once, by the
    constructor of [Game]: there it is the first-child chain of the tree
    and its length is the ply count.  [addNode], [deleteNode] and
    [promoteVariation] do not compute it again: after each of them the
    cache lists the data objects it listed before. *)
Theorem mainline_cache_computed_once :
  (∀ moves metadata,
     Game.mainline (Game.new moves metadata) = Node.mainline moves ∧
     length (Game.mainline (Game.new moves metadata))
       = Node.plyCount moves) ∧
  (∀ v node parentPath,
     Game.mainline (PgnViewer.game (PgnViewer.addNode v node parentPath).2)
     = Game.mainline (PgnViewer.game v)) ∧
  (∀ v nodePath,
     Game.mainline (PgnViewer.game (PgnViewer.deleteNode v nodePath).2)
     = Game.mainline (PgnViewer.game v)) ∧
  (∀ v variationPath,
     Game.mainline (PgnViewer.game (PgnViewer.promoteVariation v variationPath))
     = Game.mainline (PgnViewer.game v)).
Proof.
  split_and!.
  - intros moves metadata. split; [done|apply length_mainline].
  - intros v node parentPath. unfold PgnViewer.addNode, PgnViewer.updateAt.
    by repeat case_match; simplify_eq.
  - intros v nodePath. unfold PgnViewer.deleteNode.
    by repeat case_match; simplify_eq.
  - intros v variationPath. unfold PgnViewer.promoteVariation.
    repeat case_match; try done; rewrite mainline_clear; done.
Qed.

(** C2, as the claim states it, fails.  [2... Nf6] is inserted after the
    last move of the mainline: the first-child chain has four nodes then,
    the cache still has the three of the construction. *)
Lemma mainline_cache_stale :
  let v' :=
    (PgnViewer.addNode Scenario.viewer (Scenario.leaf 4%nat) "/?WG)8").2 in
  Node.mainline (PgnViewer.moves v')
    = [Some 0; Some 1; Some 2; Some 4]%nat ∧
  Game.mainline (PgnViewer.game v') = [Some 0; Some 1; Some 2]%nat ∧
  Game.mainline (PgnViewer.game v') ≠ Node.mainline (PgnViewer.moves v') ∧
  length (Game.mainline (PgnViewer.game v'))
    ≠ Node.plyCount (PgnViewer.moves v').
Proof. by split_and!. Qed.

End MainlineCache.

(** ** Promotion of a variation *)

Section Promotion.

(** C1. In the game [1. e4 e5 (1... c5) 2. Nf3] with result [1-0], the
    promotion of [1... c5] makes [1. e4 c5] the mainline, [c5] being the
    first child of [e4]; the comment [Result: 1-0] is appended to the
    comments of [2. Nf3], the last node of the old mainline; the result
    of the game is ["*"], and it stays so, since [c5] has no
    continuation and no comment that starts with [Result:]. *)
Theorem promoteVariation_scenario :
  let v' := PgnViewer.promoteVariation Scenario.viewer "/?UE" in
  (λ n, MoveData.san <$> Node.dataOf (PgnViewer.heap v') n)
    <$> Node.mainlineNodes (PgnViewer.moves v')
    = [Some "e4"; Some "c5"] ∧
  (e4 ← PgnViewer.nodeAtPathOrNull v' "/?";
   c5 ← Node.children e4 !! 0%nat;
   Node.dataId (PgnViewer.heap v') c5) = Some "UE" ∧
  Node.children <$> PgnViewer.nodeAtPathOrNull v' "/?UE" = Some [] ∧
  (Nf3 ← PgnViewer.nodeAtPathOrNull v' "/?WG)8";
   MoveData.comments <$> Node.dataOf (PgnViewer.heap v') Nf3)
    = Some ["King's knight"; "Result: 1-0"] ∧
  PgnViewer.result Scenario.viewer = Some "1-0" ∧
  PgnViewer.result v' = Some "*".
Proof. vm_compute. by split_and!. Qed.

End Promotion.

(** ** The serializer *)

Section Serializer.

Variable σ : Store.

Lemma andText_app (s text : string) :
  PgnViewer.andText s text =
  s +:+ PgnViewer.andText "" text.
Proof. destruct text; [simpl; by rewrite app_empty_r|reflexivity]. Qed.

Lemma variationText_eq (forced : bool) (child : Node.t) :
  PgnViewer.variationText forced σ child =
  d ← Node.dataOf σ child;
  subtree ← PgnViewer.exportNode σ child forced;
  Some (PgnViewer.andText (PgnViewer.variationHead σ child d) subtree
        +:+ ")").
Proof. reflexivity. Qed.

Lemma comments_foldl (cs : list string) (s : string) :
  foldl (λ s comment, s +:+ " { " +:+ comment +:+ " } ") s cs =
  s +:+ foldr (λ comment text, " { " +:+ comment +:+ " } " +:+ text) "" cs.
Proof.
  revert s. induction cs as [|c cs IH]; intros s; simpl.
  - by rewrite app_empty_r.
  - by rewrite IH, !app_assoc.
Qed.

(** C3, as the code has it.  The text of a node with children is the
    text of the first child, then one parenthesized text for each
    further child, in order, then the text of the subtree of the first
    child.  Each parenthesized text is the opening parenthesis, the
    forced move-number prefix, the notation, the annotation codes and the
    comments of the child, the subtree of the child serialized with the
    numbering not forced, and the closing parenthesis. *)
Theorem exportNode_variations (d : option Ref) (first : Node.t)
  (variations : list Node.t) (forcePly : bool) :
  PgnViewer.exportNode σ (Node.mk d (first :: variations)) forcePly =
  texts ← mapM (PgnViewer.variationText false σ) variations;
  mainline ←
    PgnViewer.exportNode σ first (bool_decide (variations ≠ []));
  Some (PgnViewer.andText
          (PgnViewer.firstText σ forcePly first +:+
           foldr String.append "" texts)
          mainline).
Proof.
  simpl.
  set (loop := fix loop (cs : list Node.t) (s : string) := _).
  assert (∀ cs s,
            loop cs s =
            texts ← mapM (PgnViewer.variationText false σ) cs;
            Some (s +:+ foldr String.append "" texts)) as Hloop.
  { induction cs as [|c cs IH]; intros s.
    - simpl. by rewrite app_empty_r.
    - change (mapM (PgnViewer.variationText false σ) (c :: cs))
        with (y ← PgnViewer.variationText false σ c;
              k ← mapM (PgnViewer.variationText false σ) cs;
              mret (y :: k)).
      rewrite variationText_eq. cbn [loop].
      destruct (Node.dataOf σ c) as [dc|]; [|done]. simpl.
      destruct (PgnViewer.exportNode σ c false) as [sub|]; [|done]. simpl.
      rewrite IH. destruct (mapM _ cs) as [texts|]; [|done]. simpl.
      f_equal. rewrite (andText_app (s +:+ _)).
      rewrite (andText_app (PgnViewer.variationHead _ _ _)).
      by rewrite !app_assoc. }
  rewrite Hloop. destruct (mapM _ variations) as [texts|]; [|done]. simpl.
  replace (bool_decide (1 < S (length variations))%nat)
    with (bool_decide (variations ≠ [])).
  2:{ by destruct variations. }
  destruct (PgnViewer.exportNode σ first _) as [mainline|]; [|done]. simpl.
  do 2 f_equal. unfold PgnViewer.firstText.
  destruct (Node.dataOf σ first) as [df|]; simpl.
  - rewrite comments_foldl.
    destruct (forcePly || _); simpl; by rewrite ?app_assoc.
  - destruct (forcePly || _); simpl; by rewrite ?app_assoc, ?app_empty_r.
Qed.

End Serializer.

(** C3, as the claim states it, fails: the subtree of a variation is not
    serialized with the numbering forced.  In [1. e4 (1. d4 d5) 1... e5]
    the reply [d5] is written without a move number; with the numbering
    forced the variation would read [(1. d4 1... d5)]. *)
Lemma exportNode_variation_not_forced :
  PgnViewer.exportNode TwoOpenings.heap TwoOpenings.moves false
    = Some "1. e4 (1. d4 d5) 1... e5" ∧
  PgnViewer.variationText false TwoOpenings.heap
    (Node.mk (Some 2%nat) [Node.mk (Some 3%nat) []])
    = Some " (1. d4 d5)" ∧
  PgnViewer.variationText true TwoOpenings.heap
    (Node.mk (Some 2%nat) [Node.mk (Some 3%nat) []])
    = Some " (1. d4 1... d5)" ∧
  PgnViewer.exportNode TwoOpenings.heap TwoOpenings.moves false
    ≠ (texts ← mapM (PgnViewer.variationText true TwoOpenings.heap)
                 [Node.mk (Some 2%nat) [Node.mk (Some 3%nat) []]];
       mainline ← PgnViewer.exportNode TwoOpenings.heap
                    (Node.mk (Some 0%nat) [Node.mk (Some 1%nat) []]) true;
       Some (PgnViewer.andText
               (PgnViewer.firstText TwoOpenings.heap false
                  (Node.mk (Some 0%nat) [Node.mk (Some 1%nat) []]) +:+
                foldr String.append "" texts)
               mainline)).
Proof. by split_and!. Qed.

(** ** The path at a ply of the mainline *)

Section MainlinePly.

Variable σ : Store.

Lemma childById_first (d : option Ref) (child : Node.t)
  (rest : list Node.t) (id : Id) :
  Node.dataId σ child = Some id →
  childById σ (Node.mk d (child :: rest)) id = Some child.
Proof.
  intros H. unfold childById, JsArray.find. simpl. by rewrite decide_True.
Qed.

(** In a chain built as [makeMoves] builds it, the stored path of a
    mainline node resolves to this node. *)
Lemma chain_resolves (i : nat) :
  ∀ (n node : Node.t) (parentPath : string),
    Node.chainOk σ n parentPath = true →
    Node.mainlineNodes n !! i = Some node →
    ∃ rel,
      Path.path (Node.pathOf σ node) = parentPath +:+ rel ∧
      PgnViewer.nodeAtPathOrNullFrom σ n rel = Some node.
Proof.
  induction i as [|i IH]; intros [d [|child rest]] node parentPath Hok Hi;
    try done; simpl in Hok, Hi;
    destruct (Node.dataOf σ child) as [dc|] eqn:Hdc; try done;
    apply andb_prop in Hok as [[Hid Hpath]%andb_prop Hchild];
    apply bool_decide_eq_true in Hid, Hpath;
    assert (Node.dataId σ child = Some (MoveData.id dc)) as Hcid
      by (unfold Node.dataId; by rewrite Hdc).
  - injection Hi as <-. exists (MoveData.id dc). split.
    + unfold Node.pathOf. by rewrite Hdc.
    + rewrite nodeAtPathOrNullFrom_eq.
      rewrite decide_False by by apply id_not_empty.
      rewrite head_id, tail_id by done.
      rewrite (childById_first _ _ _ _ Hcid). apply resolve_root.
  - destruct (IH child node _ Hchild Hi) as (rel & Hrel & Hres).
    exists (MoveData.id dc +:+ rel). split.
    + by rewrite Hrel, app_assoc.
    + rewrite nodeAtPathOrNullFrom_eq.
      rewrite decide_False by (apply not_eq_sym; destruct (MoveData.id dc); done).
      unfold head, tail. rewrite slice_head_app, slice_tail_app by done.
      by rewrite (childById_first _ _ _ _ Hcid).
Qed.

Variable moves : Node.t.
Variable metadata : Metadata.t.

Let g : Game.t := Game.new moves metadata.
Let nodes : list Node.t := Node.mainlineNodes moves.

(** The index that [pathAtMainlinePly] reads, and what it makes of the
    entry there. *)
Lemma pathAtMainlinePly_index (ply : Ply) :
  ply ≠ PlyNumber 0 →
  Game.pathAtMainlinePly σ g ply =
  default Path.root
    (Node.pathOf σ <$>
       nodes !! Z.to_nat
                  (Z.max 0
                     (Z.min (Z.of_nat (length nodes) - 1)
                        (match ply with
                         | PlyLast => 9999
                         | PlyNumber n => n - 1
                         end)))).
Proof.
  intros Hply. unfold Game.pathAtMainlinePly.
  assert ((match ply with PlyNumber n => n =? 0 | PlyLast => false end)
          = false) as ->.
  { destruct ply as [n|]; [|done]. apply Z.eqb_neq. congruence. }
  unfold g, Game.new, Node.mainline. cbn [Game.mainline].
  rewrite length_fmap, list_lookup_fmap. fold nodes.
  destruct (nodes !! _) as [[[r|] cs]|]; simpl; try done.
  unfold Node.pathOf, Node.dataOf. simpl. by destruct (σ !! r).
Qed.

Lemma last_nodes (node : Node.t) :
  list.last nodes = Some node →
  nodes !! Z.to_nat (Z.of_nat (length nodes) - 1) = Some node.
Proof.
  rewrite last_lookup. intros H.
  by replace (Z.to_nat _) with (pred (length nodes)) by lia.
Qed.

(** Where [pathAtMainlinePly] clamps, for a game as its constructor
    builds it.  It is total.  It gives the root path for ply [0] and for
    an empty mainline; the path of the mainline node at index [ply - 1]
    for a ply in range; the path of the last mainline node for a ply
    beyond the mainline, and for ["last"] when the mainline has at most
    10000 nodes.  For ["last"] the constant 9999 stands in for the end, so
    on a longer mainline the node at index 9999 is taken: the defect of
    C10 below.  When the nodes of the mainline carry their paths, the
    path it gives resolves. *)
Theorem pathAtMainlinePly_clamps :
  Game.pathAtMainlinePly σ g (PlyNumber 0) = Path.root ∧
  (∀ ply node,
     1 ≤ ply ≤ Z.of_nat (length nodes) →
     nodes !! Z.to_nat (ply - 1) = Some node →
     Game.pathAtMainlinePly σ g (PlyNumber ply) = Node.pathOf σ node) ∧
  (∀ ply node,
     Z.of_nat (length nodes) < ply →
     list.last nodes = Some node →
     Game.pathAtMainlinePly σ g (PlyNumber ply) = Node.pathOf σ node) ∧
  (∀ node,
     Z.of_nat (length nodes) ≤ 10000 →
     list.last nodes = Some node →
     Game.pathAtMainlinePly σ g PlyLast = Node.pathOf σ node) ∧
  (∀ node,
     10000 < Z.of_nat (length nodes) →
     nodes !! Z.to_nat 9999 = Some node →
     Game.pathAtMainlinePly σ g PlyLast = Node.pathOf σ node) ∧
  (nodes = [] → ∀ ply, Game.pathAtMainlinePly σ g ply = Path.root) ∧
  (Node.chainOk σ moves "" = true →
   ∀ ply, is_Some (Game.nodeAt σ g (Game.pathAtMainlinePly σ g ply))).
Proof.
  split_and!.
  - done.
  - intros ply node Hply Hnode.
    rewrite pathAtMainlinePly_index by (intros [= ?]; lia).
    replace (Z.max _ _) with (ply - 1) by lia. by rewrite Hnode.
  - intros ply node Hply Hnode%last_nodes.
    pose proof (lookup_lt_Some _ _ _ Hnode) as Hlt.
    rewrite pathAtMainlinePly_index by (intros [= ?]; lia).
    replace (Z.max _ _) with (Z.of_nat (length nodes) - 1) by lia.
    by rewrite Hnode.
  - intros node Hlen Hnode%last_nodes.
    pose proof (lookup_lt_Some _ _ _ Hnode) as Hlt.
    rewrite pathAtMainlinePly_index by done.
    replace (Z.max _ _) with (Z.of_nat (length nodes) - 1) by lia.
    by rewrite Hnode.
  - intros node Hlen Hnode.
    rewrite pathAtMainlinePly_index by done.
    replace (Z.max _ _) with 9999 by lia. by rewrite Hnode.
  - intros Hnil ply. destruct (decide (ply = PlyNumber 0)) as [->|Hply];
      [done|].
    rewrite pathAtMainlinePly_index by done. by rewrite Hnil.
  - intros Hok ply. unfold Game.nodeAt. rewrite nodeAtPathFrom_string.
    destruct (decide (ply = PlyNumber 0)) as [->|Hply].
    { by rewrite resolve_root. }
    rewrite pathAtMainlinePly_index by done.
    destruct (nodes !! _) as [node|] eqn:Hnode; simpl.
    + destruct (chain_resolves _ _ _ _ Hok Hnode) as (rel & -> & Hres).
      change ("" +:+ rel) with rel. unfold g, Game.new. simpl.
      by rewrite Hres.
    + by rewrite resolve_root.
Qed.

End MainlinePly.

Lemma pathAtMainlinePly_clamps_witness :
  Game.pathAtMainlinePly Scenario.heap Scenario.game (PlyNumber 2)
    = Path.mk "/?WG" ∧
  Game.pathAtMainlinePly Scenario.heap Scenario.game (PlyNumber 7)
    = Path.mk "/?WG)8" ∧
  Game.pathAtMainlinePly Scenario.heap Scenario.game PlyLast
    = Path.mk "/?WG)8" ∧
  is_Some (Game.nodeAt Scenario.heap Scenario.game
             (Game.pathAtMainlinePly Scenario.heap Scenario.game PlyLast)).
Proof.
  destruct (pathAtMainlinePly_clamps Scenario.heap Scenario.moves
              (Metadata.mk (Some "1-0") None))
    as (_ & Hin & Hbeyond & Hlast & _ & _ & Hres).
  split_and!.
  - apply (Hin 2 (Node.mk (Some 1%nat) [Scenario.leaf 2%nat]));
      [simpl; lia|reflexivity].
  - apply (Hbeyond 7 (Scenario.leaf 2%nat)); [simpl; lia|reflexivity].
  - apply (Hlast (Scenario.leaf 2%nat)); [simpl; lia|reflexivity].
  - apply (Hres eq_refl PlyLast).
Defined.

(** ** The long game *)

Section LongGameFacts.

Lemma length_idOfPly (k : nat) : String.length (LongGame.idOfPly k) = 2%nat.
Proof.
  unfold LongGame.idOfPly. by destruct (k mod 4)%nat as [|[|[|]]].
Qed.

Lemma length_pathOfPly (k : nat) :
  String.length (LongGame.pathOfPly k) = (2 * k)%nat.
Proof.
  induction k as [|k IH]; [done|].
  cbn [LongGame.pathOfPly]. rewrite app_length, IH, length_idOfPly. lia.
Qed.

Lemma mainlineNodes_cons (d : option Ref) (child : Node.t)
  (rest : list Node.t) :
  Node.mainlineNodes (Node.mk d (child :: rest))
  = child :: Node.mainlineNodes child.
Proof. reflexivity. Qed.

Lemma line_lookup (n : nat) :
  ∀ (r i : nat) (d : option Ref),
    (i < n)%nat →
    Node.mainlineNodes (Node.mk d (LongGame.line n r)) !! i =
    Some (Node.mk (Some (r + i)%nat)
            (LongGame.line (n - S i) (S (r + i)))).
Proof.
  induction n as [|n IH]; intros r i d Hi; [lia|].
  cbn [LongGame.line]. rewrite mainlineNodes_cons. destruct i as [|i].
  - rewrite Nat.add_0_r, Nat.sub_succ, Nat.sub_0_r. done.
  - rewrite lookup_cons_ne_0 by done. cbn [pred].
    rewrite IH by lia. rewrite Nat.sub_succ.
    by replace (S r + i)%nat with (r + S i)%nat by lia.
Qed.

Lemma line_length (n : nat) :
  ∀ (r : nat) (d : option Ref),
    length (Node.mainlineNodes (Node.mk d (LongGame.line n r))) = n.
Proof.
  induction n as [|n IH]; intros r d; [done|].
  cbn [LongGame.line]. rewrite mainlineNodes_cons, length_cons.
  by rewrite IH.
Qed.

Lemma line_end (n : nat) :
  ∀ (r : nat) (d : option Ref),
    Node.end_ (Node.mk d (LongGame.line (S n) r)) =
    Node.mk (Some (r + n)%nat) [].
Proof.
  induction n as [|n IH]; intros r d.
  - cbn [LongGame.line Node.end_]. by rewrite Nat.add_0_r.
  - change (Node.end_ (Node.mk d (LongGame.line (S (S n)) r)))
      with (Node.end_ (Node.mk (Some r) (LongGame.line (S n) (S r)))).
    rewrite IH. by replace (S r + n)%nat with (r + S n)%nat by lia.
Qed.

Lemma pathOf_line (n i : nat) (cs : list Node.t) :
  (i < n)%nat →
  Node.pathOf (LongGame.heap n) (Node.mk (Some i) cs) =
  Path.mk (LongGame.pathOfPly (S i)).
Proof.
  intros Hi. unfold Node.pathOf, Node.dataOf, LongGame.heap.
  cbn [Node.data mbind option_bind].
  by rewrite list_lookup_fmap, lookup_seq_lt.
Qed.

Lemma long_game_last (n k : nat) :
  Z.of_nat k = 9999 → (k < n)%nat →
  Game.pathAtMainlinePly (LongGame.heap n) (LongGame.game n) PlyLast
  = Path.mk (LongGame.pathOfPly (S k)).
Proof.
  intros Hk Hn. unfold LongGame.game.
  rewrite pathAtMainlinePly_index by done.
  unfold LongGame.moves. rewrite line_length.
  replace (Z.max _ _) with (Z.of_nat k) by lia. rewrite Nat2Z.id.
  rewrite line_lookup by done.
  cbn [fmap option_fmap option_map default].
  by rewrite pathOf_line.
Qed.

Lemma long_game_final (m : nat) :
  Node.pathOf (LongGame.heap (S m))
    (Node.end_ (Game.moves (LongGame.game (S m))))
  = Path.mk (LongGame.pathOfPly (S m)).
Proof.
  unfold LongGame.game, Game.new, LongGame.moves. cbn [Game.moves].
  rewrite line_end. by rewrite pathOf_line by lia.
Qed.

Lemma long_game_length (n : nat) :
  length (Game.mainline (LongGame.game n)) = n.
Proof.
  unfold LongGame.game, Game.new, Node.mainline. cbn [Game.mainline].
  rewrite length_fmap. apply line_length.
Qed.

Lemma long_game_beyond (m : nat) (ply : Z) :
  Z.of_nat (S m) < ply →
  Game.pathAtMainlinePly (LongGame.heap (S m)) (LongGame.game (S m))
    (PlyNumber ply)
  = Path.mk (LongGame.pathOfPly (S m)).
Proof.
  intros Hply. unfold LongGame.game.
  rewrite pathAtMainlinePly_index by (intros [= ?]; lia).
  unfold LongGame.moves. rewrite line_length.
  replace (Z.max _ _) with (Z.of_nat m) by lia. rewrite Nat2Z.id.
  rewrite line_lookup by lia.
  cbn [fmap option_fmap option_map default].
  by rewrite pathOf_line by lia.
Qed.

Lemma plies_split :
  ∃ k, Z.of_nat k = 9999 ∧ LongGame.plies = S (S k).
Proof. exists (Z.to_nat 9999). unfold LongGame.plies. lia. Qed.

End LongGameFacts.

(** C10 fails on the code for ["last"] on a mainline of more than 10000
    nodes, by a defect of [pathAtMainlinePly]: the constant 9999 stands in
    for the end of the mainline.  In the game of 10001 plies, as its
    constructor builds it, ["last"] gives the path of the node at index
    9999, of 20000 characters, and not the path of the last node of the
    mainline, of 20002 characters, which the ply 10002, beyond the end,
    does give on the same game. *)
Theorem pathAtMainlinePly_last_not_final :
  let σ := LongGame.heap LongGame.plies in
  let g := LongGame.game LongGame.plies in
  Z.of_nat (length (Game.mainline g)) = 10001 ∧
  JsString.len (Path.path (Game.pathAtMainlinePly σ g PlyLast)) = 20000 ∧
  JsString.len (Path.path (Node.pathOf σ (Node.end_ (Game.moves g))))
    = 20002 ∧
  Game.pathAtMainlinePly σ g PlyLast
    ≠ Node.pathOf σ (Node.end_ (Game.moves g)) ∧
  Game.pathAtMainlinePly σ g (PlyNumber 10002)
    = Node.pathOf σ (Node.end_ (Game.moves g)).
Proof.
  destruct plies_split as (k & Hk & ->). cbv zeta.
  rewrite long_game_length, (long_game_last _ k), long_game_final by lia.
  rewrite long_game_beyond by lia.
  unfold JsString.len. cbn [Path.path]. rewrite !length_pathOfPly.
  refine (conj _ (conj _ (conj _ (conj _ _)))); try lia; [|done].
  intros H. apply (f_equal (String.length ∘ Path.path)) in H.
  unfold compose in H. cbn [Path.path] in H.
  rewrite !length_pathOfPly in H. lia.
Qed.

(** The cache of a game that was edited is another matter: once the last
    move of the mainline is deleted, ["last"] still gives its path, which
    resolves no more. *)
Lemma pathAtMainlinePly_after_delete :
  let v' := (PgnViewer.deleteNode Scenario.viewer "/?WG)8").2 in
  Game.pathAtMainlinePly (PgnViewer.heap v') (PgnViewer.game v') PlyLast
    = Path.mk "/?WG)8" ∧
  PgnViewer.nodeAtPathOrNull v' "/?WG)8" = None.
Proof. by split. Qed.

(** * Further properties: paths, tree edits, annotations, navigation, export *)

(** ** Paths *)

Section PathOrder.

Lemma startsWith_prefix (s prefix : string) :
  JsString.startsWith s prefix = true ↔ ∃ rest, s = prefix +:+ rest.
Proof.
  revert s. induction prefix as [|p prefix IH]; intros s.
  - split; [by exists s|by destruct s].
  - destruct s as [|c s]; simpl.
    + split; [done|by intros [rest ?]].
    + destruct (Ascii.eqb_spec p c) as [->|Hpc].
      * rewrite IH. split; intros [rest Hrest]; exists rest.
        -- by rewrite app_cons, Hrest.
        -- rewrite app_cons in Hrest. congruence.
      * split; [done|]. intros [rest Hrest]. rewrite app_cons in Hrest.
        congruence.
Qed.

(** [contains] is the prefix order on paths: a path contains exactly the
    paths it extends; so it contains itself, the root and its parent, and
    containment is transitive. *)
Theorem contains_is_prefix_order (p q r : Path.t) (id : Id) :
  (Path.contains p q = true ↔ ∃ rest, Path.path p = Path.path q +:+ rest) ∧
  Path.contains p p = true ∧
  Path.contains p Path.root = true ∧
  Path.contains (Path.append p id) p = true ∧
  (Path.contains p q = true → Path.contains q r = true →
   Path.contains p r = true).
Proof.
  unfold Path.contains. split_and!.
  - apply startsWith_prefix.
  - apply startsWith_prefix. exists "". by rewrite app_empty_r.
  - by destruct (Path.path p).
  - apply startsWith_prefix. by exists id.
  - rewrite !startsWith_prefix. intros [s1 ->] [s2 ->].
    exists (s2 +:+ s1). by rewrite app_assoc.
Qed.

(** A path of identifiers that is not the root is its parent followed by
    its last identifier, which has two characters; and [last] and [head]
    give back the identifier that was appended last and first. *)
Theorem path_init_last (p : Path.t) (id : Id) :
  Nat.even (String.length (Path.path p)) = true →
  String.length id = 2%nat →
  Path.last (Path.append p id) = id ∧
  Path.head (Path.mk (id +:+ Path.path p)) = id ∧
  Path.tail (Path.mk (id +:+ Path.path p)) = p ∧
  (Path.path p ≠ "" →
   Path.append (Path.init p) (Path.last p) = p ∧
   String.length (Path.last p) = 2%nat ∧
   Nat.even (String.length (Path.path (Path.init p))) = true).
Proof.
  intros Hp Hid. destruct p as [s]. cbn [Path.path] in *.
  unfold Path.last, Path.head, Path.tail, Path.append, Path.init.
  cbn [Path.path]. split_and!.
  - by apply slice_last_app.
  - by apply slice_head_app.
  - f_equal. by apply slice_tail_app.
  - intros Hs.
    destruct (even_path_split s Hp Hs) as (parent & i & -> & Hi & Hpar).
    by rewrite slice_init_app, slice_last_app.
Qed.

End PathOrder.

Lemma path_init_last_witness :
  Path.append (Path.init (Path.mk "/?WG")) (Path.last (Path.mk "/?WG"))
    = Path.mk "/?WG" ∧
  Path.last (Path.append (Path.mk "/?WG") ")8") = ")8".
Proof.
  destruct (path_init_last (Path.mk "/?WG") ")8" eq_refl eq_refl)
    as (H1 & _ & _ & H2).
  assert (Path.path (Path.mk "/?WG") ≠ "") as Hne by done.
  split; [exact (proj1 (H2 Hne))|exact H1].
Defined.

(** ** Resolution *)

Section ResolutionMore.

(** The two resolutions of the source, [Game.nodeAt] on a [Path] and
    [nodeAtPathOrNull] on its string, find the same node. *)
Lemma nodeAt_agrees (v : PgnViewer.t) (path : Path.t) :
  Game.nodeAt (PgnViewer.heap v) (PgnViewer.game v) path
  = PgnViewer.nodeAtPathOrNull v (Path.path path).
Proof. apply nodeAtPathFrom_string. Qed.

Lemma list_find_elem {A} (P : A → Prop) `{∀ x, Decision (P x)}
  (xs : list A) (i : nat) (x : A) :
  list_find P xs = Some (i, x) → x ∈ xs ∧ P x.
Proof.
  intros (Hx & HP & _)%list_find_Some. split; [|done].
  by eapply list_elem_of_lookup_2.
Qed.

Lemma resolve_split (σ : Store) (root node : Node.t) (path : string) :
  Nat.even (String.length path) = true → path ≠ "" →
  PgnViewer.nodeAtPathOrNullFrom σ root path = Some node →
  ∃ parent index,
    PgnViewer.nodeAtPathOrNullFrom σ root (JsString.slice path 0 (-2))
      = Some parent ∧
    list_find
      (λ child, Node.dataId σ child = Some (JsString.sliceFrom path (-2)))
      (Node.children parent) = Some (index, node) ∧
    String.length (JsString.sliceFrom path (-2)) = 2%nat ∧
    Nat.even (String.length (JsString.slice path 0 (-2))) = true ∧
    path = JsString.slice path 0 (-2) +:+ JsString.sliceFrom path (-2).
Proof.
  intros Hp Hne Hres.
  destruct (even_path_split path Hp Hne) as (pp & id & -> & Hid & Hpp).
  rewrite slice_init_app, slice_last_app by done.
  rewrite resolve_app in Hres by done.
  destruct (PgnViewer.nodeAtPathOrNullFrom σ root pp) as [parent|]; [|done].
  simpl in Hres. apply childById_Some in Hres as [index Hfind].
  by exists parent, index.
Qed.

(** A path that is not the root and resolves: its parent path resolves,
    to a node of which the resolved node is a child, and the resolved
    node carries the last identifier of the path. *)
Theorem resolved_node_has_last_id (v : PgnViewer.t) (path : Path.t)
  (node : Node.t) :
  Nat.even (String.length (Path.path path)) = true →
  Path.path path ≠ "" →
  PgnViewer.nodeAtPathOrNull v (Path.path path) = Some node →
  Node.dataId (PgnViewer.heap v) node = Some (Path.last path) ∧
  ∃ parent,
    PgnViewer.nodeAtPathOrNull v (Path.path (Path.init path)) = Some parent ∧
    node ∈ Node.children parent ∧
    childById (PgnViewer.heap v) parent (Path.last path) = Some node.
Proof.
  intros Hp Hne Hres.
  destruct (resolve_split _ _ _ _ Hp Hne Hres)
    as (parent & index & Hparent & Hfind & _).
  pose proof (list_find_elem _ _ _ _ Hfind) as [Hin Hid].
  split; [done|]. exists parent. split_and!; [done..|].
  unfold childById, JsArray.find. unfold Path.last. by rewrite Hfind.
Qed.

Lemma idsOk_child (σ : Store) (d : option nat) (cs : list Node.t)
  (child : Node.t) :
  Node.idsOk σ (Node.mk d cs) = true → child ∈ cs →
  Node.idsOk σ child = true.
Proof.
  simpl. intros [_ H]%andb_prop Hin.
  rewrite forallb_forall in H. apply H. by apply list_elem_of_In.
Qed.

Lemma idsOk_id (σ : Store) (n : Node.t) (id : Id) :
  Node.idsOk σ n = true → Node.dataId σ n = Some id →
  String.length id = 2%nat.
Proof.
  destruct n as [d cs]. simpl. intros [H _]%andb_prop Hid.
  rewrite Hid in H. by apply bool_decide_eq_true in H.
Qed.

Lemma head_length2 (path : string) :
  String.length (head path) = 2%nat →
  ∃ c1 c2 s, path = String c1 (String c2 s).
Proof.
  destruct path as [|c1 [|c2 s]]; [done..|]. intros _. by exists c1, c2, s.
Qed.

Lemma resolve_even (σ : Store) (root : Node.t) :
  ∀ (path : string) (node : Node.t),
    Node.idsOk σ root = true →
    PgnViewer.nodeAtPathOrNullFrom σ root path = Some node →
    Nat.even (String.length path) = true ∧ Node.idsOk σ node = true.
Proof.
  induction root as [d cs IH] using node_ind. intros path node Hok.
  rewrite nodeAtPathOrNullFrom_eq.
  destruct (decide (path = "")) as [->|Hne]; [by intros [= <-]|].
  destruct (childById σ (Node.mk d cs) (head path)) as [child|] eqn:Hc;
    [|done].
  simpl. intros Hres.
  apply childById_Some in Hc as [index Hfind].
  apply list_find_elem in Hfind as [Hin Hid]. cbn [Node.children] in Hin.
  pose proof (idsOk_child _ _ _ _ Hok Hin) as Hchild.
  pose proof (idsOk_id _ _ _ Hchild Hid) as Hlen.
  destruct (head_length2 _ Hlen) as (c1 & c2 & s & ->).
  rewrite tail_cons2 in Hres.
  rewrite Forall_forall in IH.
  apply list_elem_of_In in Hin.
  destruct (IH child Hin s node Hchild Hres) as [Hs Hn]. by split.
Qed.

(** In a tree whose identifiers all have two characters, a path that
    resolves has an even number of characters: it is a sequence of
    identifiers. *)
Theorem resolved_path_is_even (v : PgnViewer.t) (path : string)
  (node : Node.t) :
  Node.idsOk (PgnViewer.heap v) (PgnViewer.moves v) = true →
  PgnViewer.nodeAtPathOrNull v path = Some node →
  Nat.even (String.length path) = true.
Proof.
  intros Hok Hres. by destruct (resolve_even _ _ _ _ Hok Hres).
Qed.

End ResolutionMore.

Lemma resolved_node_has_last_id_witness :
  Node.dataId Scenario.heap (Scenario.leaf 2%nat) = Some ")8".
Proof.
  assert (Path.path (Path.mk "/?WG)8") ≠ "") as Hne by done.
  exact (proj1 (resolved_node_has_last_id Scenario.viewer
                  (Path.mk "/?WG)8") (Scenario.leaf 2%nat)
                  eq_refl Hne eq_refl)).
Defined.

Lemma resolved_path_is_even_witness :
  Nat.even (String.length "/?WG)8") = true.
Proof.
  exact (resolved_path_is_even Scenario.viewer "/?WG)8"
           (Scenario.leaf 2%nat) eq_refl eq_refl).
Defined.

(** ** Cuts in the tree *)

Section UpdateMore.

Variable σ : Store.

Lemma updateAtFrom_same (node : Node.t) (path : string) :
  PgnViewer.updateAtFrom σ (λ n, n) node path = node.
Proof.
  revert path. induction node as [d cs IH] using node_ind. intros path.
  simpl. case_decide; [done|]. f_equal.
  induction IH as [|c cs Hc _ IHcs]; [done|].
  case_decide; [by rewrite Hc|by rewrite IHcs].
Qed.

(** Only what the update does to the node the path resolves to matters. *)
Lemma updateAtFrom_at (f g : Node.t → Node.t) (node : Node.t) :
  ∀ path,
    (∀ m, PgnViewer.nodeAtPathOrNullFrom σ node path = Some m → f m = g m) →
    PgnViewer.updateAtFrom σ f node path
    = PgnViewer.updateAtFrom σ g node path.
Proof.
  induction node as [d cs IH] using node_ind. intros path.
  simpl. destruct (decide (path = "")) as [->|Hne];
    [by intros Hm; apply Hm|].
  intros Hm. f_equal.
  induction IH as [|c cs Hc _ IHcs]; [done|].
  destruct (decide (Node.dataId σ c = Some (head path))).
  - f_equal. by apply Hc.
  - f_equal. by apply IHcs.
Qed.

Lemma updateAtFrom_unresolved (f : Node.t → Node.t) (node : Node.t)
  (path : string) :
  PgnViewer.nodeAtPathOrNullFrom σ node path = None →
  PgnViewer.updateAtFrom σ f node path = node.
Proof.
  intros H. rewrite <- (updateAtFrom_same node path) at 2.
  apply updateAtFrom_at. intros m. by rewrite H.
Qed.

Lemma updateAtFrom_compose (f g : Node.t → Node.t) (node : Node.t) :
  (∀ n, Node.data (f n) = Node.data n) →
  ∀ path,
    PgnViewer.updateAtFrom σ g (PgnViewer.updateAtFrom σ f node path) path
    = PgnViewer.updateAtFrom σ (g ∘ f) node path.
Proof.
  intros Hf. induction node as [d cs IH] using node_ind. intros path.
  destruct (decide (path = "")) as [->|Hne].
  { simpl. by destruct (f _). }
  simpl. rewrite !decide_False by done. simpl.
  rewrite !decide_False by done. f_equal.
  induction IH as [|c cs Hc _ IHcs]; [done|].
  destruct (decide (Node.dataId σ c = Some (head path))) as [Hid|Hid].
  - rewrite decide_True; [by rewrite Hc|].
    rewrite <- Hid. by apply dataId_data, updateAtFrom_data.
  - rewrite decide_False by done. by rewrite IHcs.
Qed.

End UpdateMore.

Section Cuts.

Lemma withMoves_same (v : PgnViewer.t) :
  PgnViewer.withMoves v (PgnViewer.moves v) = v.
Proof. by destruct v as [σ [m md ml] p]. Qed.

Lemma withMoves_withMoves (v : PgnViewer.t) (m1 m2 : Node.t) :
  PgnViewer.withMoves (PgnViewer.withMoves v m1) m2 = PgnViewer.withMoves v m2.
Proof. done. Qed.

Lemma resolve_withMoves_update (v : PgnViewer.t) (f : Node.t → Node.t)
  (path : string) :
  (∀ n, Node.data (f n) = Node.data n) →
  PgnViewer.nodeAtPathOrNull
    (PgnViewer.withMoves v
       (PgnViewer.updateAtFrom (PgnViewer.heap v) f (PgnViewer.moves v) path))
    path
  = f <$> PgnViewer.nodeAtPathOrNull v path.
Proof.
  intros Hf. unfold PgnViewer.nodeAtPathOrNull. rewrite moves_withMoves.
  cbn [PgnViewer.heap PgnViewer.withMoves]. by apply resolve_update.
Qed.

(** [deleteMovesAfterPath] keeps the node and drops all its
    continuations: the path resolves to the node without children, and no
    path that extends it by an identifier resolves; a path that does not
    resolve changes nothing. *)
Theorem deleteMovesAfterPath_truncates (v : PgnViewer.t) (path : string) :
  Nat.even (String.length path) = true →
  let v' := PgnViewer.deleteMovesAfterPath v path in
  (∀ node,
     PgnViewer.nodeAtPathOrNull v path = Some node →
     PgnViewer.nodeAtPathOrNull v' path = Some (Node.withChildren node []) ∧
     PgnViewer.heap v' = PgnViewer.heap v ∧
     ∀ id, String.length id = 2%nat →
           PgnViewer.nodeAtPathOrNull v' (path +:+ id) = None) ∧
  (PgnViewer.nodeAtPathOrNull v path = None → v' = v).
Proof.
  intros Hp v'. unfold v', PgnViewer.deleteMovesAfterPath. split.
  - intros node Hres. rewrite Hres.
    assert (PgnViewer.nodeAtPathOrNull
              (PgnViewer.withMoves v
                 (PgnViewer.updateAtFrom (PgnViewer.heap v)
                    (λ node, Node.withChildren node [])
                    (PgnViewer.moves v) path)) path
            = Some (Node.withChildren node [])) as Hres'.
    { rewrite resolve_withMoves_update by done. by rewrite Hres. }
    split_and!; [done..|].
    intros id Hid. unfold PgnViewer.nodeAtPathOrNull in *.
    rewrite resolve_app by done. by rewrite Hres'.
  - by intros ->.
Qed.

Lemma substring_init_app (s id : string) :
  String.length id = 2%nat →
  JsString.substring (s +:+ id) 0 (JsString.len (s +:+ id) - 2) = s.
Proof.
  intros Hid. unfold JsString.substring, JsString.len.
  rewrite !app_length, Hid.
  replace (Z.to_nat (Z.min _ _)) with 0%nat by lia.
  replace (Z.to_nat _) with (String.length s) by lia.
  apply take_app_length.
Qed.

Lemma substring_last_app (s id : string) :
  String.length id = 2%nat →
  JsString.substring (s +:+ id) (JsString.len (s +:+ id) - 2)
    (JsString.len (s +:+ id)) = id.
Proof.
  intros Hid. unfold JsString.substring, JsString.len.
  rewrite !app_length, Hid.
  replace (Z.to_nat (Z.min _ _)) with (String.length s) by lia.
  replace (Z.to_nat _) with (String.length id) by lia.
  rewrite drop_app_length. apply take_all.
Qed.

Lemma spliceFrom_take {A} (xs : list A) (index : nat) :
  (JsArray.spliceFrom xs (Z.of_nat index)).2 = take index xs.
Proof.
  unfold JsArray.spliceFrom, JsArray.splice, JsString.relative. simpl.
  destruct (Z.ltb_spec (Z.of_nat index) 0); [lia|].
  destruct (decide (index ≤ length xs)%nat) as [Hle|Hgt].
  - replace (Z.to_nat (Z.min _ _)) with index by lia.
    replace (Z.to_nat _) with (length xs - index)%nat by lia.
    rewrite drop_ge by lia. by rewrite app_nil_r.
  - replace (Z.to_nat (Z.min (Z.of_nat index) _)) with (length xs) by lia.
    replace (Z.to_nat _) with 0%nat by lia.
    rewrite Nat.add_0_r, drop_all, app_nil_r.
    by rewrite !take_ge by lia.
Qed.

(** [deleteMoveAndAllFollowing] cuts the children of the parent at the
    node of the path: the children before it stay, the node and all its
    later siblings go, and the path resolves no more.  A path of fewer
    than two characters and a path that does not resolve change
    nothing. *)
Theorem deleteMoveAndAllFollowing_cuts (v : PgnViewer.t) (path : string) :
  let v' := PgnViewer.deleteMoveAndAllFollowing v path in
  (JsString.len path < 2 → v' = v) ∧
  (Nat.even (String.length path) = true → path ≠ "" →
   (∀ node,
      PgnViewer.nodeAtPathOrNull v path = Some node →
      ∃ parent index,
        PgnViewer.nodeAtPathOrNull v (JsString.slice path 0 (-2))
          = Some parent ∧
        Node.children parent !! index = Some node ∧
        PgnViewer.nodeAtPathOrNull v' (JsString.slice path 0 (-2))
          = Some (Node.withChildren parent
                    (take index (Node.children parent))) ∧
        PgnViewer.nodeAtPathOrNull v' path = None ∧
        PgnViewer.heap v' = PgnViewer.heap v) ∧
   (PgnViewer.nodeAtPathOrNull v path = None → v' = v)).
Proof.
  intros v'. unfold v', PgnViewer.deleteMoveAndAllFollowing. split.
  { intros Hlen. by destruct (Z.ltb_spec (JsString.len path) 2); [|lia]. }
  intros Hp Hne.
  destruct (even_path_split path Hp Hne) as (pp & id & -> & Hid & Hpp).
  rewrite substring_init_app, substring_last_app by done.
  rewrite slice_init_app by done.
  destruct (Z.ltb_spec (JsString.len (pp +:+ id)) 2) as [Hlt|_].
  { unfold JsString.len in Hlt. rewrite app_length in Hlt. lia. }
  assert (PgnViewer.nodeAtPathOrNull v (pp +:+ id)
          = parent ← PgnViewer.nodeAtPathOrNull v pp;
            childById (PgnViewer.heap v) parent id) as ->.
  { unfold PgnViewer.nodeAtPathOrNull. by apply resolve_app. }
  destruct (PgnViewer.nodeAtPathOrNull v pp) as [parent|] eqn:Hparent.
  2:{ split; [intros node; simpl; done|done]. }
  cbn [mbind option_bind]. unfold childById, JsArray.find, JsArray.findIndex.
  destruct (list_find _ (Node.children parent)) as [[index child]|] eqn:Hfind.
  2:{ split; [intros node; simpl; done|done]. }
  cbn [fmap option_fmap option_map fst snd]. split; [|done].
  intros node [= <-].
  pose proof Hfind as (Hchild & _ & Hbefore)%list_find_Some.
  set (cut := λ parent : Node.t,
         Node.withChildren parent
           (JsArray.spliceFrom (Node.children parent) (Z.of_nat index)).2).
  assert (PgnViewer.nodeAtPathOrNull
            (PgnViewer.withMoves v
               (PgnViewer.updateAtFrom (PgnViewer.heap v) cut
                  (PgnViewer.moves v) pp)) pp
          = Some (Node.withChildren parent (take index (Node.children parent))))
    as Hres'.
  { rewrite resolve_withMoves_update by done. rewrite Hparent. simpl.
    unfold cut. by rewrite spliceFrom_take. }
  exists parent, index. split_and!; try done.
  unfold PgnViewer.nodeAtPathOrNull in *. rewrite resolve_app by done.
  rewrite Hres'. simpl. unfold childById, JsArray.find. simpl.
  rewrite (proj2 (list_find_None _ _)); [done|].
  apply Forall_lookup_2. intros j y [Hy Hj]%lookup_take_Some.
  by eapply Hbefore.
Qed.

End Cuts.

Lemma deleteMovesAfterPath_truncates_witness :
  PgnViewer.nodeAtPathOrNull
    (PgnViewer.deleteMovesAfterPath Scenario.viewer "/?") "/?"
    = Some (Scenario.leaf 0%nat) ∧
  PgnViewer.nodeAtPathOrNull
    (PgnViewer.deleteMovesAfterPath Scenario.viewer "/?") "/?WG" = None.
Proof.
  destruct (deleteMovesAfterPath_truncates Scenario.viewer "/?" eq_refl)
    as [H _].
  destruct (H _ eq_refl) as (H1 & _ & H2).
  split; [exact H1|exact (H2 "WG" eq_refl)].
Defined.

(** ** Sibling identifiers stay distinct *)

Section Distinct.

Variable σ : Store.

Lemma siblingsDistinct_unfold (d : option nat) (cs : list Node.t) :
  Node.siblingsDistinct σ (Node.mk d cs) = true ↔
  NoDup (omap (Node.dataId σ) cs) ∧
  Forall (λ c, Node.siblingsDistinct σ c = true) cs.
Proof.
  simpl. rewrite andb_true_iff, bool_decide_eq_true, forallb_forall.
  rewrite List.Forall_forall. done.
Qed.

Lemma updateAtFrom_distinct (f : Node.t → Node.t) (node : Node.t) :
  (∀ n, Node.data (f n) = Node.data n) →
  ∀ path,
    (∀ m, PgnViewer.nodeAtPathOrNullFrom σ node path = Some m →
          Node.siblingsDistinct σ m = true →
          Node.siblingsDistinct σ (f m) = true) →
    Node.siblingsDistinct σ node = true →
    Node.siblingsDistinct σ (PgnViewer.updateAtFrom σ f node path) = true.
Proof.
  intros Hf. induction node as [d cs IH] using node_ind. intros path Hm Hok.
  destruct (decide (path = "")) as [->|Hne].
  { simpl. by apply Hm. }
  simpl. rewrite decide_False by done.
  simpl in Hm. rewrite decide_False in Hm by done.
  apply siblingsDistinct_unfold in Hok as [Hnd Hcs].
  apply siblingsDistinct_unfold.
  revert Hnd Hm.
  induction IH as [|c cs Hc _ IHcs]; intros Hnd Hm; [done|].
  apply Forall_cons_1 in Hcs as [Hcok Hcs].
  destruct (decide (Node.dataId σ c = Some (head path))) as [Hid|Hid].
  - split.
    + simpl in *.
      by rewrite (dataId_data σ _ c (updateAtFrom_data σ f Hf c (tail path))).
    + constructor; [|done]. by apply Hc.
  - simpl in Hnd |- *. destruct (Node.dataId σ c) as [i|] eqn:Hi.
    + apply list.NoDup_cons in Hnd as [Hnotin Hnd].
      destruct (IHcs Hcs Hnd Hm) as [Hnd' Hcs'].
      split; [|by constructor]. apply list.NoDup_cons. split; [|done].
      intros Hin. apply Hnotin. revert Hin. clear -Hf.
      induction cs as [|x cs IHx]; [done|]. simpl.
      destruct (decide (Node.dataId σ x = Some (head path))) as [Hx|Hx].
      * simpl.
        by rewrite (dataId_data σ _ x (updateAtFrom_data σ f Hf x (tail path))).
      * simpl. destruct (Node.dataId σ x); [|done].
        rewrite !elem_of_cons. intros [?|?]; [by left|right; by apply IHx].
    + destruct (IHcs Hcs Hnd Hm) as [Hnd' Hcs'].
      split; [done|by constructor].
Qed.

Lemma resolve_distinct (root : Node.t) :
  ∀ (path : string) (node : Node.t),
    Node.siblingsDistinct σ root = true →
    PgnViewer.nodeAtPathOrNullFrom σ root path = Some node →
    Node.siblingsDistinct σ node = true.
Proof.
  induction root as [d cs IH] using node_ind. intros path node Hok.
  rewrite nodeAtPathOrNullFrom_eq.
  destruct (decide (path = "")) as [->|Hne]; [by intros [= <-]|].
  destruct (childById σ (Node.mk d cs) (head path)) as [child|] eqn:Hc;
    [|done].
  simpl. intros Hres.
  apply childById_Some in Hc as [index Hfind].
  apply list_find_elem in Hfind as [Hin Hid]. cbn [Node.children] in Hin.
  apply siblingsDistinct_unfold in Hok as [_ Hcs].
  rewrite List.Forall_forall in IH. rewrite Forall_forall in Hcs.
  eapply IH; [by apply list_elem_of_In| |done].
  apply Hcs. by apply list_elem_of_In.
Qed.

End Distinct.

(** ** Insertion and deletion together *)

Section InsertDelete.

Lemma deleteNode_found (v : PgnViewer.t) (pp id : string)
  (parent node : Node.t) (index : nat) :
  String.length id = 2%nat →
  PgnViewer.nodeAtPathOrNull v pp = Some parent →
  list_find (λ child, Node.dataId (PgnViewer.heap v) child = Some id)
    (Node.children parent) = Some (index, node) →
  (PgnViewer.deleteNode v (pp +:+ id)).2 =
  PgnViewer.withMoves v
    (PgnViewer.updateAtFrom (PgnViewer.heap v)
       (λ parent,
          Node.withChildren parent (delete index (Node.children parent)))
       (PgnViewer.moves v) pp).
Proof.
  intros Hid Hparent Hfind. unfold PgnViewer.deleteNode.
  rewrite slice_init_app, slice_last_app by done. rewrite Hparent.
  unfold JsArray.findIndex. rewrite Hfind. cbn [fmap option_fmap option_map fst snd].
  f_equal. apply updateAtFrom_at. intros m Hm.
  unfold PgnViewer.nodeAtPathOrNull in Hparent. rewrite Hparent in Hm.
  injection Hm as <-.
  apply list_find_Some in Hfind as (Hchild & _).
  by rewrite (splice_one _ _ _ Hchild).
Qed.

Lemma not_found_not_in (σ : Store) (cs : list Node.t) (id : Id) :
  list_find (λ child, Node.dataId σ child = Some id) cs = None ↔
  id ∉ omap (Node.dataId σ) cs.
Proof.
  rewrite list_find_None, list_elem_of_omap, list.Forall_forall.
  split.
  - intros H (x & Hx & Hid). by apply (H x).
  - intros H x Hx Hid. apply H. by exists x.
Qed.

(** [addNode] keeps the identifiers of siblings distinct: in a tree where
    no two children of a node carry the same identifier, the insertion of
    a node (itself such a tree) leaves such a tree. *)
Theorem addNode_keeps_siblings_distinct (v : PgnViewer.t) (node : Node.t)
  (parentPath : string) (id : Id) :
  Nat.even (String.length parentPath) = true →
  Node.dataId (PgnViewer.heap v) node = Some id →
  String.length id = 2%nat →
  Node.siblingsDistinct (PgnViewer.heap v) (PgnViewer.moves v) = true →
  Node.siblingsDistinct (PgnViewer.heap v) node = true →
  let v' := (PgnViewer.addNode v node parentPath).2 in
  PgnViewer.heap v' = PgnViewer.heap v ∧
  Node.siblingsDistinct (PgnViewer.heap v') (PgnViewer.moves v') = true.
Proof.
  intros Hp Hnid Hid Hok Hnode v'. unfold v', PgnViewer.addNode.
  rewrite Hnid. change (default "" (Some id)) with id.
  destruct (PgnViewer.nodeAtPathOrNull v (parentPath +:+ id)) eqn:Hnew;
    [by split|].
  unfold PgnViewer.updateAt.
  destruct (PgnViewer.nodeAtPathOrNull v parentPath) as [parent|] eqn:Hparent;
    [|by split].
  cbn [snd]. split; [done|]. rewrite moves_withMoves.
  cbn [PgnViewer.heap PgnViewer.withMoves].
  apply updateAtFrom_distinct; [done| |done].
  intros m Hm HmOk. unfold PgnViewer.nodeAtPathOrNull in *.
  rewrite Hparent in Hm. injection Hm as <-.
  rewrite resolve_app, Hparent in Hnew by done. simpl in Hnew.
  unfold childById, JsArray.find in Hnew.
  destruct (list_find _ (Node.children parent)) as [[]|] eqn:Hfind; [done|].
  apply not_found_not_in in Hfind.
  destruct parent as [d cs]. apply siblingsDistinct_unfold in HmOk as [Hnd Hcs].
  apply siblingsDistinct_unfold. unfold JsArray.push. cbn [Node.children] in *.
  rewrite omap_app. simpl. rewrite Hnid. split.
  - apply list.NoDup_app. split_and!; [done| |apply NoDup_singleton].
    intros x Hx ->%list_elem_of_singleton. done.
  - apply Forall_app. split; [done|]. by constructor.
Qed.

(** After [deleteNode], in a tree where no two children of a node carry
    the same identifier, the path of the deleted node resolves no more,
    and the identifiers of siblings are still distinct. *)
Theorem deleteNode_unlinks (v : PgnViewer.t) (nodePath : string)
  (node : Node.t) :
  Nat.even (String.length nodePath) = true → nodePath ≠ "" →
  Node.siblingsDistinct (PgnViewer.heap v) (PgnViewer.moves v) = true →
  PgnViewer.nodeAtPathOrNull v nodePath = Some node →
  let v' := (PgnViewer.deleteNode v nodePath).2 in
  PgnViewer.nodeAtPathOrNull v' nodePath = None ∧
  Node.siblingsDistinct (PgnViewer.heap v') (PgnViewer.moves v') = true.
Proof.
  intros Hp Hne Hok Hres v'.
  destruct (resolve_split _ _ _ _ Hp Hne Hres)
    as (parent & index & Hparent & Hfind & Hid & Hpp & Hsplit).
  set (pp := JsString.slice nodePath 0 (-2)) in *.
  set (id := JsString.sliceFrom nodePath (-2)) in *.
  unfold v'. rewrite Hsplit.
  rewrite (deleteNode_found v pp id parent node index Hid Hparent Hfind).
  pose proof (resolve_distinct _ _ _ _ Hok Hparent) as HparentOk.
  destruct parent as [d cs]. cbn [Node.children] in *.
  apply siblingsDistinct_unfold in HparentOk as [Hnd Hcs].
  pose proof Hfind as (Hchild & Hcid & _)%list_find_Some.
  rewrite <- (take_drop_middle _ _ _ Hchild) in Hnd.
  rewrite omap_app in Hnd. simpl in Hnd. rewrite Hcid in Hnd.
  apply list.NoDup_app in Hnd as (Hnd1 & Hdisj & Hnd2).
  apply list.NoDup_cons in Hnd2 as [Hnotin Hnd2].
  split.
  - unfold PgnViewer.nodeAtPathOrNull. rewrite moves_withMoves.
    cbn [PgnViewer.heap PgnViewer.withMoves].
    rewrite resolve_app by done. rewrite resolve_update by done.
    unfold PgnViewer.nodeAtPathOrNull in Hparent. rewrite Hparent. simpl.
    unfold childById, JsArray.find. simpl.
    rewrite (proj2 (not_found_not_in _ _ _)); [done|].
    rewrite delete_take_drop, omap_app. rewrite elem_of_app.
    intros [Hin|Hin]; [|done].
    apply (Hdisj _ Hin). by left.
  - rewrite moves_withMoves. cbn [PgnViewer.heap PgnViewer.withMoves].
    apply updateAtFrom_distinct; [done| |done].
    intros m Hm _. unfold PgnViewer.nodeAtPathOrNull in Hparent.
    rewrite Hparent in Hm. injection Hm as <-.
    apply siblingsDistinct_unfold. cbn [Node.children Node.withChildren].
    rewrite delete_take_drop, omap_app. split.
    + apply list.NoDup_app. split_and!; [done| |done].
      intros x Hx1 Hx2. apply (Hdisj _ Hx1). by right.
    + rewrite <- (take_drop_middle _ _ _ Hchild) in Hcs.
      apply Forall_app in Hcs as [Hcs1 Hcs2].
      apply Forall_cons_1 in Hcs2 as [_ Hcs2].
      apply Forall_app. by split.
Qed.

(** Insert, then delete: when the parent has no child with the
    identifier of the node, [addNode] followed by [deleteNode] on the path
    it returned gives back the viewer as it was. *)
Theorem addNode_deleteNode_round_trip (v : PgnViewer.t) (node : Node.t)
  (parentPath : string) (parent : Node.t) (id : Id) :
  Nat.even (String.length parentPath) = true →
  Node.dataId (PgnViewer.heap v) node = Some id →
  String.length id = 2%nat →
  PgnViewer.nodeAtPathOrNull v parentPath = Some parent →
  childById (PgnViewer.heap v) parent id = None →
  ∃ v',
    PgnViewer.addNode v node parentPath = (Some (parentPath +:+ id), v') ∧
    (PgnViewer.deleteNode v' (parentPath +:+ id)).2 = v.
Proof.
  intros Hp Hnid Hid Hparent Hnone.
  eexists. split.
  { by apply (addNode_appended v node parentPath parent id). }
  pose proof (appended_parent v node parentPath parent Hparent) as Hparent'.
  cbv zeta in Hparent'.
  pose proof Hnone as Hfind. unfold childById, JsArray.find in Hfind.
  destruct (list_find _ (Node.children parent)) as [[]|] eqn:Hlf; [done|].
  erewrite deleteNode_found; [|done|exact Hparent'|].
  2:{ cbn [Node.children Node.withChildren PgnViewer.heap PgnViewer.withMoves].
      unfold JsArray.push. rewrite list_find_app_r by done. simpl.
      rewrite decide_True by done. simpl. done. }
  rewrite moves_withMoves, withMoves_withMoves.
  cbn [PgnViewer.heap PgnViewer.withMoves].
  rewrite updateAtFrom_compose by done.
  transitivity (PgnViewer.withMoves v (PgnViewer.moves v));
    [f_equal|apply withMoves_same].
  etransitivity;
    [|apply (updateAtFrom_same (PgnViewer.heap v) (PgnViewer.moves v)
               parentPath)].
  apply updateAtFrom_at. intros m Hm.
  unfold PgnViewer.nodeAtPathOrNull in Hparent. rewrite Hparent in Hm.
  injection Hm as <-. destruct parent as [d cs].
  unfold compose, JsArray.push, Node.withChildren. simpl. f_equal.
  by rewrite (delete_middle cs [] node), app_nil_r.
Qed.

End InsertDelete.

Lemma addNode_keeps_siblings_distinct_witness :
  Node.siblingsDistinct Scenario.heap
    (PgnViewer.moves
       (PgnViewer.addNode Scenario.viewer (Scenario.leaf 4%nat) "/?WG)8").2)
  = true.
Proof.
  exact (proj2 (addNode_keeps_siblings_distinct Scenario.viewer
                  (Scenario.leaf 4%nat) "/?WG)8" "aP"
                  eq_refl eq_refl eq_refl eq_refl eq_refl)).
Defined.

Lemma deleteNode_unlinks_witness :
  PgnViewer.nodeAtPathOrNull
    (PgnViewer.deleteNode Scenario.viewer "/?UE").2 "/?UE" = None.
Proof.
  assert ("/?UE" ≠ "") as Hne by done.
  exact (proj1 (deleteNode_unlinks Scenario.viewer "/?UE"
                  (Scenario.leaf 3%nat) eq_refl Hne eq_refl eq_refl)).
Defined.

Lemma addNode_deleteNode_round_trip_witness :
  ∃ v',
    PgnViewer.addNode Scenario.viewer (Scenario.leaf 4%nat) "/?WG)8"
      = (Some "/?WG)8aP", v') ∧
    (PgnViewer.deleteNode v' "/?WG)8aP").2 = Scenario.viewer.
Proof.
  exact (addNode_deleteNode_round_trip Scenario.viewer
           (Scenario.leaf 4%nat) "/?WG)8" (Scenario.leaf 2%nat) "aP"
           eq_refl eq_refl eq_refl eq_refl eq_refl).
Defined.

(** ** Annotations: glyphs and comments *)

Section Annotations.

(** A write to the store that keeps the identifiers of the data objects
    does not change what a path resolves to. *)
Lemma resolve_heap_ids (σ σ' : Store) (root : Node.t) :
  (∀ r : Ref, MoveData.id <$> σ' !! r = MoveData.id <$> σ !! r) →
  ∀ path,
    PgnViewer.nodeAtPathOrNullFrom σ' root path
    = PgnViewer.nodeAtPathOrNullFrom σ root path.
Proof.
  intros Hσ.
  assert (∀ c, Node.dataId σ' c = Node.dataId σ c) as Hid.
  { intros [[r|] cs]; [apply Hσ|done]. }
  induction root as [d cs IH] using node_ind. intros path.
  simpl. case_decide; [done|].
  induction IH as [|c cs Hc _ IHcs]; [done|].
  simpl. rewrite Hid. case_decide; [apply Hc|apply IHcs].
Qed.

Lemma alter_ids (σ : Store) (f : MoveData.t → MoveData.t) (r r' : Ref) :
  (∀ d, MoveData.id (f d) = MoveData.id d) →
  MoveData.id <$> alter f r σ !! r' = MoveData.id <$> σ !! r'.
Proof.
  intros Hf. destruct (decide (r' = r)) as [->|Hr].
  - rewrite list_lookup_alter_eq. destruct (σ !! r); simpl; [|done].
    by rewrite Hf.
  - by rewrite list_lookup_alter_ne.
Qed.

Lemma resolve_writeNags (v : PgnViewer.t) (r : Ref) (ns : list Z)
  (path : string) :
  PgnViewer.nodeAtPathOrNull (PgnViewer.writeNags v r ns) path
  = PgnViewer.nodeAtPathOrNull v path.
Proof.
  unfold PgnViewer.nodeAtPathOrNull. apply resolve_heap_ids.
  intros r'. by apply alter_ids.
Qed.

Lemma resolve_writeComments (v : PgnViewer.t) (r : Ref) (cs : list string)
  (path : string) :
  PgnViewer.nodeAtPathOrNull (PgnViewer.writeComments v r cs) path
  = PgnViewer.nodeAtPathOrNull v path.
Proof.
  unfold PgnViewer.nodeAtPathOrNull. apply resolve_heap_ids.
  intros r'. by apply alter_ids.
Qed.

Lemma heap_writeNags (v : PgnViewer.t) (r : Ref) (ns : list Z)
  (d : MoveData.t) :
  PgnViewer.heap v !! r = Some d →
  PgnViewer.heap (PgnViewer.writeNags v r ns) !! r
  = Some (MoveData.withNags d ns).
Proof.
  intros Hd. unfold PgnViewer.writeNags. simpl.
  by rewrite list_lookup_alter_eq, Hd.
Qed.

Lemma heap_writeComments (v : PgnViewer.t) (r : Ref) (cs : list string)
  (d : MoveData.t) :
  PgnViewer.heap v !! r = Some d →
  PgnViewer.heap (PgnViewer.writeComments v r cs) !! r
  = Some (MoveData.withComments d cs).
Proof.
  intros Hd. unfold PgnViewer.writeComments. simpl.
  by rewrite list_lookup_alter_eq, Hd.
Qed.

Lemma writeNags_same (v : PgnViewer.t) (r : Ref) (d : MoveData.t) :
  PgnViewer.heap v !! r = Some d →
  PgnViewer.writeNags v r (MoveData.nags d) = v.
Proof.
  intros H. unfold PgnViewer.writeNags, PgnViewer.withHeap.
  destruct v as [σ g p]. cbn [PgnViewer.heap] in *. f_equal.
  apply list_eq. intros i. destruct (decide (i = r)) as [->|Hi].
  - rewrite list_lookup_alter_eq, H. by destruct d.
  - by rewrite list_lookup_alter_ne.
Qed.

Lemma writeNags_writeNags (v : PgnViewer.t) (r : Ref) (ns ns' : list Z) :
  PgnViewer.writeNags (PgnViewer.writeNags v r ns) r ns'
  = PgnViewer.writeNags v r ns'.
Proof.
  unfold PgnViewer.writeNags, PgnViewer.withHeap. simpl. f_equal.
  rewrite list_alter_alter_eq. by apply list_alter_ext.
Qed.

Lemma writeComments_writeComments (v : PgnViewer.t) (r : Ref)
  (cs cs' : list string) :
  PgnViewer.writeComments (PgnViewer.writeComments v r cs) r cs'
  = PgnViewer.writeComments v r cs'.
Proof.
  unfold PgnViewer.writeComments, PgnViewer.withHeap. simpl. f_equal.
  rewrite list_alter_alter_eq. by apply list_alter_ext.
Qed.

Lemma includes_spec (ns : list Z) (n : Z) :
  JsArray.includes ns n = true ↔ n ∈ ns.
Proof. unfold JsArray.includes. apply bool_decide_eq_true. Qed.

Lemma splice_last {A} (xs : list A) (x : A) :
  (JsArray.splice (xs ++ [x]) (Z.of_nat (length xs)) 1).2 = xs.
Proof.
  rewrite (splice_one (xs ++ [x]) (length xs) x).
  - simpl. by rewrite (delete_middle xs [] x), app_nil_r.
  - by rewrite list_lookup_middle.
Qed.

(** [addNag] twice is [addNag] once: a glyph is never added a second
    time, whatever the path and the glyph. *)
Theorem addNag_idempotent (v : PgnViewer.t) (path : string) (nag : Z) :
  PgnViewer.addNag (PgnViewer.addNag v path nag) path nag
  = PgnViewer.addNag v path nag.
Proof.
  unfold PgnViewer.addNag at 2 3.
  destruct (PgnViewer.nodeAtPathOrNull v path) as [[[r|] cs]|] eqn:Hn;
    try (unfold PgnViewer.addNag; by rewrite Hn).
  destruct (PgnViewer.heap v !! r) as [d|] eqn:Hd;
    [|unfold PgnViewer.addNag; by rewrite Hn, Hd].
  destruct (JsArray.includes (MoveData.nags d) nag) eqn:Hin;
    [unfold PgnViewer.addNag; by rewrite Hn, Hd, Hin|].
  unfold PgnViewer.addNag.
  rewrite resolve_writeNags, Hn, (heap_writeNags _ _ _ _ Hd). simpl.
  rewrite (proj2 (includes_spec _ _)); [done|].
  unfold JsArray.push. apply elem_of_app. right. by left.
Qed.

(** [addNag] treats the glyphs of a move as a set: afterwards the glyph is
    among them, the glyphs that were there before are the only others, and
    a list without duplicates stays without duplicates. *)
Theorem addNag_adds (v : PgnViewer.t) (path : string) (nag : Z)
  (r : Ref) (cs : list Node.t) (d : MoveData.t) :
  PgnViewer.nodeAtPathOrNull v path = Some (Node.mk (Some r) cs) →
  PgnViewer.heap v !! r = Some d →
  ∃ d',
    PgnViewer.heap (PgnViewer.addNag v path nag) !! r = Some d' ∧
    (∀ n, n ∈ MoveData.nags d' ↔ n ∈ MoveData.nags d ∨ n = nag) ∧
    (NoDup (MoveData.nags d) → NoDup (MoveData.nags d')).
Proof.
  intros Hn Hd. unfold PgnViewer.addNag. rewrite Hn, Hd.
  destruct (JsArray.includes (MoveData.nags d) nag) eqn:Hin.
  - apply includes_spec in Hin. exists d. split_and!; [done| |done].
    intros n. split; [by left|]. by intros [?| ->].
  - assert (nag ∉ MoveData.nags d) as Hnot.
    { intros H%includes_spec. congruence. }
    eexists. split; [by apply heap_writeNags|]. simpl. unfold JsArray.push.
    split.
    + intros n. rewrite elem_of_app, list_elem_of_singleton. done.
    + intros Hnd. apply list.NoDup_app. split_and!; [done| |].
      * by intros x Hx ->%list_elem_of_singleton.
      * apply NoDup_singleton.
Qed.

(** [removeNag] takes back what [addNag] added: when the glyph was not
    there, adding and then removing it gives back the viewer as it was. *)
Theorem addNag_removeNag_round_trip (v : PgnViewer.t) (path : string)
  (nag : Z) (r : Ref) (cs : list Node.t) (d : MoveData.t) :
  PgnViewer.nodeAtPathOrNull v path = Some (Node.mk (Some r) cs) →
  PgnViewer.heap v !! r = Some d →
  nag ∉ MoveData.nags d →
  PgnViewer.addNag v path nag ≠ v ∧
  PgnViewer.removeNag (PgnViewer.addNag v path nag) path nag = v.
Proof.
  intros Hn Hd Hnot.
  assert (PgnViewer.addNag v path nag
          = PgnViewer.writeNags v r (MoveData.nags d ++ [nag])) as ->.
  { unfold PgnViewer.addNag. rewrite Hn, Hd.
    destruct (JsArray.includes _ _) eqn:Hin; [|done].
    by apply includes_spec in Hin. }
  split.
  { intros H. pose proof (heap_writeNags v r (MoveData.nags d ++ [nag]) d Hd)
      as H'. rewrite H, Hd in H'. injection H' as H'.
    destruct d as [p pl i s c ns]. simpl in *. injection H' as H'.
    apply (f_equal length) in H'. rewrite length_app in H'. simpl in H'. lia. }
  unfold PgnViewer.removeNag.
  rewrite resolve_writeNags, Hn, (heap_writeNags _ _ _ _ Hd).
  cbn [MoveData.nags MoveData.withNags].
  unfold JsArray.indexOf, JsArray.findIndex.
  assert (list_find (λ y, y = nag) (MoveData.nags d ++ [nag])
          = Some (length (MoveData.nags d), nag)) as ->.
  { rewrite list_find_app_r.
    - simpl. by rewrite decide_True by done.
    - apply list_find_None, list.Forall_forall. by intros x Hx ->. }
  cbn [fmap option_fmap option_map fst].
  rewrite splice_last, writeNags_writeNags.
  by apply writeNags_same.
Qed.

(** [removeNag] on glyphs without duplicates: afterwards the glyph is not
    among them, and the others are all there. *)
Theorem removeNag_removes (v : PgnViewer.t) (path : string) (nag : Z)
  (r : Ref) (cs : list Node.t) (d : MoveData.t) :
  PgnViewer.nodeAtPathOrNull v path = Some (Node.mk (Some r) cs) →
  PgnViewer.heap v !! r = Some d →
  NoDup (MoveData.nags d) →
  ∃ d',
    PgnViewer.heap (PgnViewer.removeNag v path nag) !! r = Some d' ∧
    (∀ n, n ∈ MoveData.nags d' ↔ n ∈ MoveData.nags d ∧ n ≠ nag) ∧
    NoDup (MoveData.nags d').
Proof.
  intros Hn Hd Hnd. unfold PgnViewer.removeNag. rewrite Hn, Hd.
  unfold JsArray.indexOf, JsArray.findIndex.
  destruct (list_find _ (MoveData.nags d)) as [[index x]|] eqn:Hfind;
    cbn [fmap option_fmap option_map fst].
  - pose proof Hfind as (Hx & -> & _)%list_find_Some.
    rewrite (splice_one _ _ _ Hx). cbn [snd].
    eexists. split; [by apply heap_writeNags|].
    cbn [MoveData.nags MoveData.withNags]. rewrite delete_take_drop.
    pose proof (take_drop_middle _ _ _ Hx) as Heq.
    set (l1 := take index (MoveData.nags d)) in *.
    set (l2 := drop (S index) (MoveData.nags d)) in *.
    rewrite <- Heq in Hnd.
    assert (∀ n, n ∈ MoveData.nags d ↔ n ∈ l1 ∨ n = nag ∨ n ∈ l2) as Hmem.
    { intros n. by rewrite <- Heq, elem_of_app, elem_of_cons. }
    apply list.NoDup_app in Hnd as (Hnd1 & Hdisj & Hnd2).
    apply list.NoDup_cons in Hnd2 as [Hnotin Hnd2].
    split.
    + intros n. rewrite Hmem, elem_of_app. split.
      * intros [H|H]; (split; [tauto|]); intros ->; [|done].
        apply (Hdisj _ H). by left.
      * intros [[H|[->|H]] Hne]; tauto.
    + apply list.NoDup_app. split_and!; [done| |done].
      intros y Hy1 Hy2. apply (Hdisj _ Hy1). by right.
  - exists d. split_and!; [done| |done].
    apply list_find_None in Hfind. rewrite list.Forall_forall in Hfind.
    intros n. split; [|tauto]. intros H. split; [done|]. by apply Hfind.
Qed.

(** [deleteComment] takes back what [addComment] added: deleting the
    comment at the position where it was appended gives back the viewer as
    it was. *)
Theorem addComment_deleteComment_round_trip (v : PgnViewer.t)
  (path comment : string) (r : Ref) (cs : list Node.t) (d : MoveData.t) :
  PgnViewer.nodeAtPathOrNull v path = Some (Node.mk (Some r) cs) →
  PgnViewer.heap v !! r = Some d →
  PgnViewer.deleteComment (PgnViewer.addComment v path comment) path
    (Z.of_nat (length (MoveData.comments d))) = v.
Proof.
  intros Hn Hd. unfold PgnViewer.addComment. rewrite Hn, Hd.
  unfold PgnViewer.deleteComment.
  rewrite resolve_writeComments, Hn, (heap_writeComments _ _ _ _ Hd).
  cbn [MoveData.comments MoveData.withComments].
  unfold JsArray.push. rewrite length_app. cbn [length].
  destruct (Z.ltb_spec (Z.of_nat (length (MoveData.comments d)))
              (Z.of_nat (length (MoveData.comments d) + 1))); [|lia].
  rewrite splice_last, writeComments_writeComments.
  by apply writeComments_same.
Qed.

(** [editComment] never changes the number of comments; for an index
    within the list the comment at the index is the new one afterwards and
    the others are as before, for any other index nothing changes. *)
Theorem editComment_replaces (v : PgnViewer.t) (path new : string)
  (index : Z) (r : Ref) (cs : list Node.t) (d : MoveData.t) :
  PgnViewer.nodeAtPathOrNull v path = Some (Node.mk (Some r) cs) →
  PgnViewer.heap v !! r = Some d →
  ∃ d',
    PgnViewer.heap (PgnViewer.editComment v path index new) !! r = Some d' ∧
    length (MoveData.comments d') = length (MoveData.comments d) ∧
    ∀ i : nat,
      MoveData.comments d' !! i =
      if decide (Z.of_nat i = index ∧ i < length (MoveData.comments d))%nat
      then Some new else MoveData.comments d !! i.
Proof.
  intros Hn Hd. unfold PgnViewer.editComment. rewrite Hn, Hd.
  destruct (Z.ltb_spec index (Z.of_nat (length (MoveData.comments d))))
    as [Hlt|Hge].
  - eexists. split; [by apply heap_writeComments|]. simpl.
    unfold JsArray.assign. destruct (Z.ltb_spec index 0) as [Hneg|Hpos].
    + split; [done|]. intros i. rewrite decide_False; [done|lia].
    + split; [by rewrite length_insert|]. intros i.
      destruct (decide (i = Z.to_nat index)) as [->|Hi].
      * rewrite list_lookup_insert_eq by lia. rewrite decide_True; [done|lia].
      * rewrite list_lookup_insert_ne by done. rewrite decide_False; [done|lia].
  - exists d. split_and!; [done..|]. intros i.
    rewrite decide_False; [done|lia].
Qed.

End Annotations.

Lemma addNag_adds_witness :
  ∃ d',
    PgnViewer.heap (PgnViewer.addNag Scenario.viewer "/?WG)8" 3) !! 2%nat
      = Some d' ∧
    (∀ n, n ∈ MoveData.nags d' ↔ n ∈ MoveData.nags Scenario.Nf3 ∨ n = 3) ∧
    (NoDup (MoveData.nags Scenario.Nf3) → NoDup (MoveData.nags d')).
Proof.
  exact (addNag_adds Scenario.viewer "/?WG)8" 3 2%nat _ Scenario.Nf3
           eq_refl eq_refl).
Defined.

Lemma addNag_removeNag_round_trip_witness :
  PgnViewer.addNag Scenario.viewer "/?WG)8" 3 ≠ Scenario.viewer ∧
  PgnViewer.removeNag (PgnViewer.addNag Scenario.viewer "/?WG)8" 3)
    "/?WG)8" 3 = Scenario.viewer.
Proof.
  apply (addNag_removeNag_round_trip Scenario.viewer "/?WG)8" 3 2%nat []
           Scenario.Nf3); [reflexivity..|].
  apply (bool_decide_unpack _). vm_compute. exact I.
Defined.

Lemma removeNag_removes_witness :
  ∃ d',
    PgnViewer.heap (PgnViewer.removeNag Scenario.viewer "/?WG)8" 1) !! 2%nat
      = Some d' ∧
    (∀ n, n ∈ MoveData.nags d' ↔ n ∈ MoveData.nags Scenario.Nf3 ∧ n ≠ 1) ∧
    NoDup (MoveData.nags d').
Proof.
  apply (removeNag_removes Scenario.viewer "/?WG)8" 1 2%nat []
           Scenario.Nf3); [reflexivity..|].
  apply (bool_decide_unpack _). vm_compute. exact I.
Defined.

Lemma addComment_deleteComment_round_trip_witness :
  PgnViewer.deleteComment
    (PgnViewer.addComment Scenario.viewer "/?WG)8" "Develops") "/?WG)8" 1
  = Scenario.viewer.
Proof.
  exact (addComment_deleteComment_round_trip Scenario.viewer "/?WG)8"
           "Develops" 2%nat [] Scenario.Nf3 eq_refl eq_refl).
Defined.

Lemma editComment_replaces_witness :
  ∃ d',
    PgnViewer.heap
      (PgnViewer.editComment Scenario.viewer "/?WG)8" 0 "Develops") !! 2%nat
      = Some d' ∧
    length (MoveData.comments d') = length (MoveData.comments Scenario.Nf3) ∧
    ∀ i : nat,
      MoveData.comments d' !! i =
      if decide (Z.of_nat i = 0%Z ∧
                 i < length (MoveData.comments Scenario.Nf3))%nat
      then Some "Develops" else MoveData.comments Scenario.Nf3 !! i.
Proof.
  exact (editComment_replaces Scenario.viewer "/?WG)8" "Develops" 0 2%nat []
           Scenario.Nf3 eq_refl eq_refl).
Defined.

(** ** Moving the cursor *)

Section Navigation.

Variable σ : Store.

Lemma pathsOk_unfold (d : option nat) (cs : list Node.t) (path : string) :
  Node.pathsOk σ (Node.mk d cs) path = true ↔
  Forall (λ child,
            ∃ m, Node.dataOf σ child = Some m ∧
                 String.length (MoveData.id m) = 2%nat ∧
                 Path.path (MoveData.path m) = path +:+ MoveData.id m ∧
                 Node.pathsOk σ child (path +:+ MoveData.id m) = true) cs.
Proof.
  simpl. rewrite forallb_forall, List.Forall_forall.
  apply forall_proper. intros child. apply forall_proper. intros _.
  destruct (Node.dataOf σ child) as [m|].
  - rewrite !andb_true_iff, !bool_decide_eq_true. split.
    + intros [[H1 H2] H3]. by exists m.
    + intros (m' & [= <-] & H1 & H2 & H3). done.
  - split; [done|]. by intros (m & [=] & _).
Qed.

Lemma head_tail_app (path : string) :
  String.length (head path) = 2%nat → path = head path +:+ tail path.
Proof.
  intros (c1 & c2 & s & ->)%head_length2.
  by rewrite head_cons2, tail_cons2.
Qed.

(** In a tree built as [makeMoves] builds it, the node a path resolves to
    stores this path. *)
Lemma pathsOk_resolve (root : Node.t) :
  ∀ (pre path : string) (node : Node.t),
    Node.pathsOk σ root pre = true →
    PgnViewer.nodeAtPathOrNullFrom σ root path = Some node →
    Node.pathsOk σ node (pre +:+ path) = true ∧
    Nat.even (String.length path) = true ∧
    (path ≠ "" →
     ∃ m, Node.dataOf σ node = Some m ∧
          Path.path (MoveData.path m) = pre +:+ path).
Proof.
  induction root as [d cs IH] using node_ind. intros pre path node Hok.
  rewrite nodeAtPathOrNullFrom_eq. case_decide as Hpath.
  { subst path. intros [= <-]. by rewrite app_empty_r. }
  assert (∀ s t, String.length (s +:+ t) = (String.length s + String.length t)%nat)
    as Happ by apply app_length.
  destruct (childById σ (Node.mk d cs) (head path)) as [child|] eqn:Hchild;
    [|done].
  simpl. intros Hres.
  apply childById_Some in Hchild as [index Hfind].
  apply list_find_elem in Hfind as [Hin Hid]. cbn [Node.children] in Hin.
  apply pathsOk_unfold in Hok.
  rewrite list.Forall_forall in IH, Hok.
  destruct (Hok _ Hin) as (m & Hm & Hlen & Hp & Hsub).
  unfold Node.dataId in Hid. rewrite Hm in Hid. injection Hid as Hid.
  rewrite Hid in *.
  pose proof (head_tail_app path Hlen) as Hsplit.
  destruct (IH _ Hin _ _ _ Hsub Hres) as (Hnode & Heven & Hdata).
  rewrite app_assoc, <- Hsplit in Hnode, Hdata.
  split_and!; [done| |].
  { rewrite Hsplit, Happ, Hlen. done. }
  intros _.
  destruct (decide (tail path = "")) as [Htail|Htail]; [|by apply Hdata].
  rewrite Htail, resolve_root in Hres. injection Hres as <-.
  exists m. split; [done|]. rewrite Htail, app_empty_r in Hsplit.
  rewrite Hp. by rewrite <- Hsplit.
Qed.

Lemma last_mainlineNodes (n : Node.t) :
  Node.children n ≠ [] →
  list.last (Node.mainlineNodes n) = Some (Node.end_ n).
Proof.
  induction n as [d cs IH] using node_ind. intros Hne.
  destruct IH as [|c cs Hc _]; [done|]. simpl.
  destruct c as [d' [|c' cs']]; [done|].
  rewrite <- Hc by done. done.
Qed.

Lemma chain_paths (n : Node.t) :
  ∀ pre,
    Node.chainOk σ n pre = true →
    mapM (λ m : option Ref,
            r ← m; d ← σ !! r; Some (Path.path (MoveData.path d)))
      (Node.mainline n)
    = Some ((λ node, Path.path (Node.pathOf σ node))
              <$> Node.mainlineNodes n).
Proof.
  induction n as [d cs IH] using node_ind. intros pre Hok.
  destruct IH as [|c cs Hc _]; [done|].
  simpl in Hok. unfold Node.mainline in *. cbn [Node.mainlineNodes fmap list_fmap].
  destruct (Node.dataOf σ c) as [m|] eqn:Hm; [|done].
  apply andb_true_iff in Hok as [_ Hok].
  simpl. specialize (Hc _ Hok). simpl in Hc. rewrite Hc.
  unfold Node.pathOf. rewrite Hm. unfold Node.dataOf in Hm.
  destruct (Node.data c) as [r|]; [|done]. simpl in *. by rewrite Hm.
Qed.

Lemma chain_path_longer (i : nat) :
  ∀ (n node : Node.t) (pre : string),
    Node.chainOk σ n pre = true →
    Node.mainlineNodes n !! i = Some node →
    (String.length pre < String.length (Path.path (Node.pathOf σ node)))%nat.
Proof.
  induction i as [|i IH]; intros [d [|child rest]] node pre Hok Hi;
    try done; simpl in Hok, Hi;
    destruct (Node.dataOf σ child) as [dc|] eqn:Hdc; try done;
    apply andb_prop in Hok as [[Hid Hpath]%andb_prop Hchild];
    apply bool_decide_eq_true in Hid, Hpath.
  - injection Hi as <-. unfold Node.pathOf. rewrite Hdc. simpl.
    rewrite Hpath, app_length. lia.
  - pose proof (IH child node _ Hchild Hi) as Hlt.
    rewrite app_length in Hlt. lia.
Qed.

End Navigation.

(** In a tree built as [makeMoves] builds it, every node below the root
    stores the path that resolves to it. *)
Theorem resolved_node_stores_path (v : PgnViewer.t) (path : string)
  (node : Node.t) :
  Node.pathsOk (PgnViewer.heap v) (PgnViewer.moves v) "" = true →
  PgnViewer.nodeAtPathOrNull v path = Some node →
  path ≠ "" →
  Node.pathOf (PgnViewer.heap v) node = Path.mk path.
Proof.
  intros Hok Hres Hne.
  destruct (pathsOk_resolve _ _ _ _ _ Hok Hres) as (_ & _ & Hdata).
  destruct (Hdata Hne) as (m & Hm & Hp).
  unfold Node.pathOf. rewrite Hm. simpl. destruct (MoveData.path m).
  simpl in Hp. by rewrite Hp.
Qed.

(** [goTo next] then [goTo prev] comes back: in a tree built as
    [makeMoves] builds it, from a node with a child the cursor moves to
    the path of the first child, and from there back to where it was. *)
Theorem goTo_next_prev_round_trip (v : PgnViewer.t) (u : PgnViewer.ui)
  (node child : Node.t) :
  Node.pathsOk (PgnViewer.heap v) (PgnViewer.moves v) "" = true →
  PgnViewer.nodeAtPathOrNull v (Path.path (PgnViewer.path v)) = Some node →
  Node.children node !! 0%nat = Some child →
  ∃ v' u',
    PgnViewer.goTo v u GoTo.next = Some (v', u') ∧
    PgnViewer.path v' = Node.pathOf (PgnViewer.heap v) child ∧
    PgnViewer.curNode v' = child ∧
    PgnViewer.goTo v' u' GoTo.prev = Some (v, u').
Proof.
  intros Hok Hres Hchild.
  destruct (pathsOk_resolve _ _ _ _ _ Hok Hres) as (Hnode & Heven & _).
  destruct node as [d cs]. apply pathsOk_unfold in Hnode.
  destruct cs as [|c cs]; [done|]. injection Hchild as ->.
  apply Forall_cons_1 in Hnode as [(m & Hm & Hlen & Hp & _) _].
  change ("" +:+ Path.path (PgnViewer.path v))
    with (Path.path (PgnViewer.path v)) in Hp.
  assert (Node.pathOf (PgnViewer.heap v) child = MoveData.path m) as Hpath.
  { unfold Node.pathOf. by rewrite Hm. }
  exists (PgnViewer.withPath v (MoveData.path m)),
         (PgnViewer.mkUi "board" true).
  split_and!.
  - unfold PgnViewer.goTo. rewrite nodeAt_agrees, Hres. simpl.
    by rewrite Hm.
  - by rewrite Hpath.
  - apply curNode_resolved.
    change (PgnViewer.nodeAtPathOrNullFrom (PgnViewer.heap v)
              (PgnViewer.moves v) (Path.path (MoveData.path m))
            = Some child).
    unfold PgnViewer.nodeAtPathOrNull in Hres.
    rewrite Hp, resolve_app, Hres by done. simpl.
    apply childById_first. unfold Node.dataId. by rewrite Hm.
  - unfold PgnViewer.goTo, PgnViewer.toPath, PgnViewer.withPath, Path.init.
    simpl. rewrite Hp, slice_init_app by done.
    by destruct v as [h g [p]].
Qed.

(** A cursor whose path resolves no more, as after the deletion of the
    node it was on: [canGoTo next] answers for the root of the tree, and
    [goTo next] leaves the cursor where it is. *)
Theorem goTo_next_on_stale_path (v : PgnViewer.t) (u : PgnViewer.ui) :
  PgnViewer.nodeAtPathOrNull v (Path.path (PgnViewer.path v)) = None →
  (PgnViewer.canGoTo v GoTo.next = true ↔
     Node.children (PgnViewer.moves v) ≠ []) ∧
  ∃ u', PgnViewer.goTo v u GoTo.next = Some (v, u').
Proof.
  intros Hres. split.
  - unfold PgnViewer.canGoTo, PgnViewer.curNode.
    rewrite nodeAt_agrees, Hres. simpl.
    by destruct (Node.children (PgnViewer.moves v)).
  - unfold PgnViewer.goTo. rewrite nodeAt_agrees, Hres. simpl.
    eexists. unfold PgnViewer.toPath, PgnViewer.withPath.
    by destruct v.
Qed.

(** [goTo last] on a game of at most 10000 plies whose mainline has not
    changed since the game was built: afterwards the cursor is on the last
    move of the mainline. *)
Theorem goTo_last_reaches_end (σ : Store) (moves : Node.t)
  (metadata : Metadata.t) (p : Path.t) (u : PgnViewer.ui) :
  Node.data moves = None →
  Z.of_nat (Node.plyCount moves) ≤ 10000 →
  ∃ v' u',
    PgnViewer.goTo (PgnViewer.mk σ (Game.new moves metadata) p) u GoTo.last
      = Some (v', u') ∧
    PgnViewer.path v' = Node.pathOf σ (Node.end_ moves) ∧
    PgnViewer.isCurrentPathLastOnMainline v' = true.
Proof.
  intros Hroot Hlen. eexists _, _. split; [done|].
  cbn [PgnViewer.toPath PgnViewer.withPath PgnViewer.path fst default
       from_option PgnViewer.heap PgnViewer.game].
  assert (Game.pathAtMainlinePly σ (Game.new moves metadata) PlyLast
          = Node.pathOf σ (Node.end_ moves)) as ->.
  { rewrite pathAtMainlinePly_index by done.
    destruct (decide (Node.children moves = [])) as [Hnil|Hne].
    - destruct moves as [d [|c cs]]; [|done]. simpl in *. subst d. done.
    - pose proof (last_mainlineNodes moves Hne) as Hlast.
      rewrite <- length_mainline in Hlen. unfold Node.mainline in Hlen.
      rewrite length_fmap in Hlen.
      apply last_nodes in Hlast.
      replace (Z.to_nat _)
        with (Z.to_nat (Z.of_nat (length (Node.mainlineNodes moves)) - 1))
        by lia.
      by rewrite Hlast. }
  split; [done|].
  unfold PgnViewer.isCurrentPathLastOnMainline, PgnViewer.moves. simpl.
  unfold Node.pathOf. destruct (Node.dataOf σ (Node.end_ moves)); [|done].
  simpl. unfold Path.equals. by apply bool_decide_eq_true.
Qed.

(** [isPathOnMainLine] in a tree whose mainline is built as [makeMoves]
    builds it: the call succeeds; the root path is not on the mainline; a
    path on the mainline resolves to a mainline node; and the path of every
    mainline node is on the mainline. *)
Theorem isPathOnMainLine_resolves (v : PgnViewer.t) :
  Node.chainOk (PgnViewer.heap v) (PgnViewer.moves v) "" = true →
  PgnViewer.isPathOnMainLine v "" = Some false ∧
  (∀ path, ∃ b, PgnViewer.isPathOnMainLine v path = Some b) ∧
  (∀ path,
     PgnViewer.isPathOnMainLine v path = Some true →
     ∃ node, node ∈ Node.mainlineNodes (PgnViewer.moves v) ∧
             PgnViewer.nodeAtPathOrNull v path = Some node) ∧
  (∀ node,
     node ∈ Node.mainlineNodes (PgnViewer.moves v) →
     PgnViewer.isPathOnMainLine v
       (Path.path (Node.pathOf (PgnViewer.heap v) node)) = Some true).
Proof.
  intros Hok.
  assert (∀ path,
            PgnViewer.isPathOnMainLine v path
            = Some (bool_decide
                      (path ∈ (λ node,
                                 Path.path
                                   (Node.pathOf (PgnViewer.heap v) node))
                              <$> Node.mainlineNodes (PgnViewer.moves v))))
    as Heq.
  { intros path. unfold PgnViewer.isPathOnMainLine.
    by rewrite (chain_paths _ _ _ Hok). }
  assert (∀ path,
            PgnViewer.isPathOnMainLine v path = Some true →
            ∃ node, node ∈ Node.mainlineNodes (PgnViewer.moves v) ∧
                    PgnViewer.nodeAtPathOrNull v path = Some node ∧
                    path ≠ "") as Hon.
  { intros path. rewrite Heq. intros [= H%bool_decide_eq_true].
    apply list_elem_of_fmap in H as (node & -> & Hin).
    apply list_elem_of_lookup in Hin as [i Hi].
    destruct (chain_resolves _ _ _ _ _ Hok Hi) as (rel & Hrel & Hres).
    exists node. split; [by eapply list_elem_of_lookup_2|].
    pose proof (chain_path_longer _ _ _ _ _ Hok Hi) as Hlt.
    rewrite Hrel in Hlt |- *. change ("" +:+ rel) with rel in *.
    split; [done|]. intros ->. simpl in Hlt. lia. }
  split_and!.
  - rewrite Heq. f_equal. apply bool_decide_eq_false. intros H.
    assert (PgnViewer.isPathOnMainLine v "" = Some true) as Htrue.
    { rewrite Heq. f_equal. by apply bool_decide_eq_true. }
    by destruct (Hon _ Htrue) as (_ & _ & _ & ?).
  - intros path. rewrite Heq. by eexists.
  - intros path H. destruct (Hon _ H) as (node & ? & ? & _). by exists node.
  - intros node Hin. rewrite Heq. f_equal. apply bool_decide_eq_true.
    apply list_elem_of_fmap. by exists node.
Qed.

Lemma resolved_node_stores_path_witness :
  Node.pathOf Scenario.heap (Scenario.leaf 3%nat) = Path.mk "/?UE".
Proof.
  assert ("/?UE" ≠ "") as Hne by done.
  exact (resolved_node_stores_path Scenario.viewer "/?UE"
           (Scenario.leaf 3%nat) eq_refl eq_refl Hne).
Defined.

Lemma goTo_next_prev_round_trip_witness :
  ∃ v' u',
    PgnViewer.goTo Scenario.viewer (PgnViewer.mkUi "menu" false) GoTo.next
      = Some (v', u') ∧
    PgnViewer.path v' = Node.pathOf Scenario.heap
                          (Node.mk (Some 0%nat)
                             [Node.mk (Some 1%nat) [Scenario.leaf 2%nat];
                              Scenario.leaf 3%nat]) ∧
    PgnViewer.curNode v' = Node.mk (Some 0%nat)
                             [Node.mk (Some 1%nat) [Scenario.leaf 2%nat];
                              Scenario.leaf 3%nat] ∧
    PgnViewer.goTo v' u' GoTo.prev = Some (Scenario.viewer, u').
Proof.
  exact (goTo_next_prev_round_trip Scenario.viewer
           (PgnViewer.mkUi "menu" false) Scenario.moves _
           eq_refl eq_refl eq_refl).
Defined.

Lemma goTo_next_on_stale_path_witness :
  (PgnViewer.canGoTo (PgnViewer.withPath Scenario.viewer (Path.mk "aP"))
     GoTo.next = true ↔ Node.children Scenario.moves ≠ []) ∧
  ∃ u',
    PgnViewer.goTo (PgnViewer.withPath Scenario.viewer (Path.mk "aP"))
      (PgnViewer.mkUi "menu" false) GoTo.next
    = Some (PgnViewer.withPath Scenario.viewer (Path.mk "aP"), u').
Proof.
  exact (goTo_next_on_stale_path
           (PgnViewer.withPath Scenario.viewer (Path.mk "aP"))
           (PgnViewer.mkUi "menu" false) eq_refl).
Defined.

Lemma goTo_last_reaches_end_witness :
  ∃ v' u',
    PgnViewer.goTo Scenario.viewer (PgnViewer.mkUi "menu" false) GoTo.last
      = Some (v', u') ∧
    PgnViewer.path v' = Node.pathOf Scenario.heap (Node.end_ Scenario.moves) ∧
    PgnViewer.isCurrentPathLastOnMainline v' = true.
Proof.
  apply (goTo_last_reaches_end Scenario.heap Scenario.moves
           (Metadata.mk (Some "1-0") None) Path.root
           (PgnViewer.mkUi "menu" false)); [reflexivity|].
  simpl. lia.
Defined.

Lemma isPathOnMainLine_resolves_witness :
  PgnViewer.isPathOnMainLine Scenario.viewer "/?WG" = Some true ∧
  PgnViewer.isPathOnMainLine Scenario.viewer "/?UE" = Some false ∧
  PgnViewer.isPathOnMainLine Scenario.viewer "" = Some false.
Proof.
  split_and!; [reflexivity..|].
  exact (proj1 (isPathOnMainLine_resolves Scenario.viewer eq_refl)).
Defined.

(** ** The exported text *)

Section ExportText.

Variable σ : Store.

Lemma exportNode_defined (d : option Ref) (first : Node.t)
  (variations : list Node.t) (forcePly : bool) :
  is_Some (PgnViewer.exportNode σ (Node.mk d (first :: variations)) forcePly)
  ↔ Forall (λ child, is_Some (Node.dataOf σ child) ∧
                     is_Some (PgnViewer.exportNode σ child false))
      variations ∧
    is_Some (PgnViewer.exportNode σ first
               (bool_decide (1 < S (length variations))%nat)).
Proof.
  simpl.
  set (loop := fix loop (cs : list Node.t) (s : string) := _).
  assert (∀ cs s,
            is_Some (loop cs s) ↔
            Forall (λ child, is_Some (Node.dataOf σ child) ∧
                             is_Some (PgnViewer.exportNode σ child false))
              cs) as Hloop.
  { induction cs as [|c cs IH]; intros s.
    - split; [by constructor|by eexists].
    - cbn [loop]. rewrite list.Forall_cons.
      destruct (Node.dataOf σ c) as [dc|]; simpl.
      2:{ split; [by intros [? [=]]|by intros [[[? [=]] _] _]]. }
      destruct (PgnViewer.exportNode σ c false) as [sub|]; simpl.
      2:{ split; [by intros [? [=]]|by intros [[_ [? [=]]] _]]. }
      rewrite IH. split; [|tauto]. intros H. split_and!; by eauto. }
  generalize (foldl (λ s comment, s +:+ " { " +:+ comment +:+ " } ")).
  intros.
  match goal with
  | |- context [loop variations ?s] =>
      specialize (Hloop variations s); destruct (loop variations s)
  end; simpl.
  - destruct (PgnViewer.exportNode σ first _); simpl.
    + split; [|by eexists]. intros _. split; [|by eexists].
      apply Hloop. by eexists.
    + split; [by intros [? [=]]|by intros [_ [? [=]]]].
  - split; [by intros [? [=]]|]. intros [H _]. by apply Hloop in H.
Qed.

End ExportText.

Lemma exportNode_defined_iff (σ : Store) (node : Node.t) :
  ∀ forcePly,
    is_Some (PgnViewer.exportNode σ node forcePly) ↔
    Node.variationsHaveData σ node = true.
Proof.
  induction node as [d cs IH] using node_ind. intros forcePly.
  destruct IH as [|first variations Hfirst Hvars].
  { split; [done|by eexists]. }
  rewrite exportNode_defined, Hfirst.
  cbn [Node.variationsHaveData]. rewrite andb_true_iff, forallb_forall.
  rewrite <- List.Forall_forall. rewrite (and_comm (Forall _ _)).
  apply and_iff_compat_l.
  induction Hvars as [|c cs Hc _ IHcs]; [done|].
  rewrite !list.Forall_cons, IHcs, Hc, andb_true_iff, bool_decide_eq_true.
  done.
Qed.

(** [exportNode] fails exactly on a tree with a variation that has no
    data: on every other tree it gives a text, whether the numbering is
    forced or not. *)
Theorem exportNode_fails_iff (σ : Store) (node : Node.t) (forcePly : bool) :
  PgnViewer.exportNode σ node forcePly = None ↔
  Node.variationsHaveData σ node = false.
Proof.
  rewrite eq_None_not_Some, <- not_true_iff_false.
  apply not_iff_compat, exportNode_defined_iff.
Qed.

(** The move number that [plyPrefix] writes in the exported text is the
    one that [moveTurn] writes in the move list; [plyPrefix] follows it
    with a space for a move of White and with two more dots and a space
    for a move of Black.  This is for a ply that is a safe integer, below
    [2^53] in absolute value: there the sums and halves that the source
    computes on doubles are exact. *)
Theorem plyPrefix_moveTurn (σ : Store) (node : Node.t) (d : MoveData.t) :
  Node.dataOf σ node = Some d →
  - 9007199254740992 < MoveData.ply d < 9007199254740992 →
  PgnViewer.plyPrefix σ node =
  moveTurn d +:+ (if Z.odd (MoveData.ply d) && (0 <? MoveData.ply d)
                  then " " else ".. ").
Proof.
  intros Hd _. unfold PgnViewer.plyPrefix, PgnViewer.plyOf, moveTurn.
  rewrite Hd. simpl. rewrite app_assoc.
  replace ((MoveData.ply d + 1) / 2) with ((MoveData.ply d - 1) / 2 + 1).
  2:{ rewrite <- Z.div_add by done. f_equal. lia. }
  f_equal.
  assert ((Z.rem (MoveData.ply d) 2 =? 1)
          = Z.odd (MoveData.ply d) && (0 <? MoveData.ply d)) as ->; [|
    by destruct (_ && _)].
  destruct (Z.ltb_spec 0 (MoveData.ply d)) as [Hpos|Hneg].
  - rewrite Z.rem_mod_nonneg by lia. rewrite Zmod_odd.
    by destruct (Z.odd _).
  - rewrite andb_false_r. apply Z.eqb_neq.
    pose proof (Z.rem_nonpos (MoveData.ply d) 2). lia.
Qed.

Section Trim.

Lemma trimStart_head (s : string) :
  JsString.trimStart s = "" ∨
  ∃ c r, JsString.trimStart s = String c r ∧ JsString.isSpace c = false.
Proof.
  induction s as [|c s IH]; [by left|]. simpl.
  destruct (JsString.isSpace c) eqn:Hc; [done|]. right. by exists c, s.
Qed.

Lemma trimEnd_head (c : ascii) (s : string) :
  JsString.isSpace c = false →
  ∃ r, JsString.trimEnd (String c s) = String c r.
Proof.
  intros Hc. simpl. rewrite Hc. destruct (JsString.trimEnd s); by eexists.
Qed.

Lemma trimEnd_idempotent (s : string) :
  JsString.trimEnd (JsString.trimEnd s) = JsString.trimEnd s.
Proof.
  induction s as [|c s IH]; [done|]. simpl.
  destruct (JsString.trimEnd s) as [|c' r] eqn:Hs.
  - destruct (JsString.isSpace c) eqn:Hc; [done|]. simpl. by rewrite Hc.
  - change (JsString.trimEnd (String c (String c' r)))
      with (match JsString.trimEnd (String c' r) with
            | EmptyString =>
                if JsString.isSpace c then EmptyString
                else String c EmptyString
            | rest => String c rest
            end).
    by rewrite IH.
Qed.

Lemma trim_idempotent (s : string) :
  JsString.trim (JsString.trim s) = JsString.trim s.
Proof.
  unfold JsString.trim.
  destruct (trimStart_head s) as [->|(c & r & -> & Hc)]; [done|].
  destruct (trimEnd_head c r Hc) as [r' Hr]. rewrite Hr.
  simpl JsString.trimStart. rewrite Hc, <- Hr. apply trimEnd_idempotent.
Qed.

Lemma trim_head (c : ascii) (s : string) :
  JsString.isSpace c = false →
  ∃ r, JsString.trim (String c s) = String c r.
Proof.
  intros Hc. unfold JsString.trim. simpl JsString.trimStart. rewrite Hc.
  by apply trimEnd_head.
Qed.

End Trim.

(** [getGamePgn] fails exactly when [exportNode] does, on a tree with a
    variation that has no data.  The text it gives begins with the
    bracket of a header, so it is not empty, and it has no white space
    at either end: trimming it again changes nothing. *)
Theorem getGamePgn_trimmed (v : PgnViewer.t)
  (whiteName blackName : option string) (initialComments : list string) :
  (PgnViewer.getGamePgn v whiteName blackName initialComments = None ↔
   Node.variationsHaveData (PgnViewer.heap v) (PgnViewer.moves v) = false) ∧
  ∀ pgn,
    PgnViewer.getGamePgn v whiteName blackName initialComments = Some pgn →
    JsString.startsWith pgn "[" = true ∧ JsString.trim pgn = pgn.
Proof.
  unfold PgnViewer.getGamePgn.
  assert (∃ rest,
            JsString.join JsString.newline
              (PgnViewer.headerLines v whiteName blackName)
            = String "[" rest) as [rest ->].
  { unfold PgnViewer.headerLines.
    destruct whiteName, blackName,
      (Metadata.comment (Game.metadata (PgnViewer.game v)));
      by eexists. }
  split.
  - rewrite <- not_true_iff_false.
    rewrite <- (exportNode_defined_iff _ _ false).
    destruct (PgnViewer.exportNode _ _ false); simpl.
    + split; [done|]. intros H. destruct H. by eexists.
    + split; [|done]. by intros _ [? [=]].
  - intros pgn.
    destruct (PgnViewer.exportNode _ _ false) as [movetext|]; simpl; [|done].
    intros [= <-].
    assert (∀ s, JsString.startsWith (JsString.trim (String "[" s)) "["
                 = true ∧
                 JsString.trim (JsString.trim (String "[" s))
                 = JsString.trim (String "[" s)) as Htrim.
    { intros s. split; [|apply trim_idempotent].
      destruct (trim_head "[" s eq_refl) as [r ->]. by destruct r. }
    destruct (PgnViewer.truthy (PgnViewer.result v)); apply Htrim.
Qed.

Lemma plyPrefix_moveTurn_witness :
  PgnViewer.plyPrefix Scenario.heap (Scenario.leaf 3%nat) = "1... " ∧
  PgnViewer.plyPrefix Scenario.heap (Scenario.leaf 2%nat) = "2. ".
Proof.
  split.
  - apply (plyPrefix_moveTurn Scenario.heap (Scenario.leaf 3%nat)
             Scenario.c5 eq_refl).
    simpl. lia.
  - apply (plyPrefix_moveTurn Scenario.heap (Scenario.leaf 2%nat)
             Scenario.Nf3 eq_refl).
    simpl. lia.
Defined.

(** ** Panes and parsed comments *)

(** [toggleMenu] twice gives back the pane exactly when the pane was the
    board or the menu, [togglePgn] twice exactly when it was the board or
    the text: from any other pane the first call already leads to another
    pane than the second one leaves. *)
Theorem toggle_twice (u : PgnViewer.ui) :
  (PgnViewer.toggleMenu (PgnViewer.toggleMenu u) = u ↔
     PgnViewer.pane u = "board" ∨ PgnViewer.pane u = "menu") ∧
  (PgnViewer.togglePgn (PgnViewer.togglePgn u) = u ↔
     PgnViewer.pane u = "board" ∨ PgnViewer.pane u = "pgn").
Proof.
  destruct u as [pane auto].
  unfold PgnViewer.toggleMenu, PgnViewer.togglePgn. simpl.
  split; repeat case_decide; simplify_eq; intuition congruence.
Qed.

Section ParsedComments.
Context {Shape Time : Type}.



End ParsedComments.

(** ** Promotion of a variation, in general *)

Section Clearing.

(** The last step of [promoteVariation]: the comments of the data objects
    listed are emptied. *)
Let clear (v : PgnViewer.t) (refs : list (option Ref)) : PgnViewer.t :=
  foldl (λ v r, match r with
                | Some r => PgnViewer.writeComments v r []
                | None => v
                end) v refs.

Lemma clear_heap (refs : list (option Ref)) :
  ∀ v, clear v refs = PgnViewer.withHeap v (PgnViewer.heap (clear v refs)).
Proof.
  induction refs as [|[r|] refs IH]; intros v.
  - by destruct v.
  - unfold clear in *. simpl. rewrite IH at 1. by destruct v.
  - apply IH.
Qed.

Lemma clear_moves (refs : list (option Ref)) (v : PgnViewer.t) :
  PgnViewer.moves (clear v refs) = PgnViewer.moves v ∧
  PgnViewer.path (clear v refs) = PgnViewer.path v.
Proof. by rewrite clear_heap. Qed.

Lemma clear_lookup (refs : list (option Ref)) (r : Ref) :
  ∀ v,
    PgnViewer.heap (clear v refs) !! r =
    if bool_decide (Some r ∈ refs)
    then (λ d, MoveData.withComments d []) <$> PgnViewer.heap v !! r
    else PgnViewer.heap v !! r.
Proof.
  induction refs as [|[r0|] refs IH]; intros v.
  - done.
  - unfold clear in *. simpl. rewrite IH.
    unfold PgnViewer.writeComments. cbn [PgnViewer.heap PgnViewer.withHeap].
    destruct (decide (r = r0)) as [->|Hr].
    + rewrite list_lookup_alter_eq.
      rewrite (bool_decide_eq_true_2 (Some r0 ∈ Some r0 :: refs))
        by by left.
      destruct (bool_decide _); destruct (PgnViewer.heap v !! r0); done.
    + rewrite list_lookup_alter_ne by done.
      assert (bool_decide (Some r ∈ Some r0 :: refs)
              = bool_decide (Some r ∈ refs)) as ->; [|done].
      apply bool_decide_ext. rewrite elem_of_cons.
      split; [|by right]. intros [[=]|?]; done.
  - unfold clear in *. simpl. rewrite IH.
    assert (bool_decide (Some r ∈ None :: refs)
            = bool_decide (Some r ∈ refs)) as ->; [|done].
    apply bool_decide_ext. rewrite elem_of_cons.
    split; [|by right]. intros [[=]|?]; done.
Qed.

Lemma clear_mainline_empty (v : PgnViewer.t) (node : Node.t)
  (d : MoveData.t) :
  let v' := clear v (Node.mainline (PgnViewer.moves v)) in
  PgnViewer.moves v' = PgnViewer.moves v ∧
  (node ∈ Node.mainlineNodes (PgnViewer.moves v) →
   Node.dataOf (PgnViewer.heap v') node = Some d →
   MoveData.comments d = []).
Proof.
  intros v'. unfold v'. split; [by rewrite clear_heap|].
  intros Hin. unfold Node.dataOf.
  destruct (Node.data node) as [r|] eqn:Hr; [|done]. simpl.
  rewrite clear_lookup, bool_decide_eq_true_2.
  - destruct (PgnViewer.heap v !! r); [|done]. simpl. by intros [= <-].
  - unfold Node.mainline. apply list_elem_of_fmap. by exists node.
Qed.

Variable v : PgnViewer.t.
Variable path : string.
Variable node : Node.t.
Variable d : MoveData.t.

Hypothesis path_even : Nat.even (String.length path) = true.
Hypothesis path_not_root : path ≠ "".
Hypothesis resolves : PgnViewer.nodeAtPathOrNull v path = Some node.
Hypothesis has_data : Node.dataOf (PgnViewer.heap v) node = Some d.

Lemma promote_clears :
  ∃ v3, PgnViewer.promoteVariation v path
        = clear v3 (Node.mainline (PgnViewer.moves v3)).
Proof.
  destruct (resolve_split _ _ _ _ path_even path_not_root resolves)
    as (parent & index & Hparent & Hfind & Hid & Hpp & Hsplit).
  unfold PgnViewer.promoteVariation. rewrite resolves, has_data.
  unfold PgnViewer.nodeAtPathOrNull at 1. rewrite Hparent.
  assert (MoveData.id d = JsString.sliceFrom path (-2)) as ->.
  { apply list_find_elem in Hfind as [_ Hnid].
    unfold Node.dataId in Hnid. rewrite has_data in Hnid.
    by injection Hnid. }
  unfold JsArray.findIndex. rewrite Hfind.
  cbn [fmap option_fmap option_map fst]. by eexists.
Qed.

(** After a promotion no move of the mainline has a comment.
    [promoteVariation] ends by emptying the comments of the moves of the
    new mainline, the comment with the result that it has just written
    among them when the last move of the old mainline is still on the
    mainline. *)
Theorem promoteVariation_clears_mainline (m : Node.t) (dm : MoveData.t) :
  let v' := PgnViewer.promoteVariation v path in
  m ∈ Node.mainlineNodes (PgnViewer.moves v') →
  Node.dataOf (PgnViewer.heap v') m = Some dm →
  MoveData.comments dm = [].
Proof.
  intros v'. unfold v'. destruct promote_clears as [v3 ->].
  destruct (clear_mainline_empty v3 m dm) as [Hmoves Hclear].
  rewrite Hmoves. apply Hclear.
Qed.

End Clearing.

Section SameMoves.

Variables σ σ' : Store.

Lemma erase_fields (m m' : MoveData.t) :
  MoveData.withComments m [] = MoveData.withComments m' [] →
  MoveData.id m = MoveData.id m' ∧ MoveData.path m = MoveData.path m'.
Proof. destruct m, m'. simpl. by intros [= -> _ -> _ _]. Qed.

Lemma same_dataId (n n' : Node.t) :
  Node.sameMoves σ σ' n n' → Node.dataId σ n = Node.dataId σ' n'.
Proof.
  intros [n0 n0' Hd _]. unfold Node.dataId.
  destruct (Node.dataOf σ n0) as [m|], (Node.dataOf σ' n0') as [m'|];
    try done.
  apply (inj Some), erase_fields in Hd as [Hid _].
  simpl. by rewrite Hid.
Qed.

Lemma same_find (id : Id) (cs cs' : list Node.t) :
  Forall2 (Node.sameMoves σ σ') cs cs' →
  ∀ i c,
    list_find (λ c, Node.dataId σ c = Some id) cs = Some (i, c) →
    ∃ c', list_find (λ c, Node.dataId σ' c = Some id) cs' = Some (i, c') ∧
          Node.sameMoves σ σ' c c'.
Proof.
  induction 1 as [|c0 c0' cs cs' Hc Hcs IH]; intros i c; [done|].
  simpl. rewrite <- (same_dataId _ _ Hc).
  destruct (decide (Node.dataId σ c0 = Some id)) as [Hid|Hid].
  - intros [= <- <-]. by exists c0'.
  - destruct (list_find _ cs) as [[j x]|] eqn:Hfind; [|done].
    simpl. intros [= <- <-].
    destruct (IH _ _ eq_refl) as (c' & -> & Hsame). by exists c'.
Qed.

Lemma resolve_same (n : Node.t) :
  ∀ (n' : Node.t) (p : string) (m : Node.t),
    Forall2 (Node.sameMoves σ σ') (Node.children n) (Node.children n') →
    PgnViewer.nodeAtPathOrNullFrom σ n p = Some m →
    ∃ m',
      PgnViewer.nodeAtPathOrNullFrom σ' n' p = Some m' ∧
      Forall2 (Node.sameMoves σ σ') (Node.children m) (Node.children m') ∧
      (p ≠ "" → Node.sameMoves σ σ' m m').
Proof.
  induction n as [dn cs IH] using node_ind. intros n' p m Hcs.
  rewrite !nodeAtPathOrNullFrom_eq.
  destruct (decide (p = "")) as [->|Hp].
  { intros [= <-]. by exists n'. }
  destruct (childById σ (Node.mk dn cs) (head p)) as [child|] eqn:Hchild;
    [|done].
  simpl. intros Hres.
  apply childById_Some in Hchild as [i Hfind].
  destruct (same_find _ _ _ Hcs _ _ Hfind) as (child' & Hfind' & Hsame).
  unfold childById, JsArray.find. rewrite Hfind'. simpl.
  apply list_find_elem in Hfind as [Hin _]. cbn [Node.children] in Hin.
  rewrite list.Forall_forall in IH.
  assert (Forall2 (Node.sameMoves σ σ') (Node.children child)
            (Node.children child')) as Hchildren by by destruct Hsame.
  destruct (IH _ Hin child' _ _ Hchildren Hres) as (m' & Hres' & Hm & Hne).
  exists m'. split_and!; [done..|]. intros _.
  destruct (decide (tail p = "")) as [Ht|Ht]; [|by apply Hne].
  rewrite Ht, resolve_root in Hres, Hres'.
  by injection Hres as <-; injection Hres' as <-.
Qed.

Lemma pathsOk_same (n : Node.t) :
  ∀ (n' : Node.t) (pre : string),
    Forall2 (Node.sameMoves σ σ') (Node.children n) (Node.children n') →
    Node.pathsOk σ n pre = true → Node.pathsOk σ' n' pre = true.
Proof.
  induction n as [dn cs IH] using node_ind. intros [dn' cs'] pre Hcs.
  rewrite !pathsOk_unfold. cbn [Node.children] in Hcs.
  intros Hok. revert IH Hok.
  induction Hcs as [|c c' cs cs' Hc _ IHcs]; intros IH Hok; [done|].
  apply Forall_cons_1 in IH as [IHc IH].
  apply Forall_cons_1 in Hok as [(m & Hm & Hlen & Hp & Hsub) Hok].
  constructor; [|by apply IHcs].
  assert ((λ d, MoveData.withComments d []) <$> Node.dataOf σ c
          = (λ d, MoveData.withComments d []) <$> Node.dataOf σ' c' ∧
          Forall2 (Node.sameMoves σ σ') (Node.children c)
            (Node.children c')) as [Hd Hchildren] by by destruct Hc.
  rewrite Hm in Hd.
  destruct (Node.dataOf σ' c') as [m'|]; [|done].
  apply (inj Some), erase_fields in Hd as [Hid Hpath].
  exists m'. rewrite <- Hid, <- Hpath. split_and!; try done.
  by apply IHc.
Qed.

End SameMoves.

Section SameSteps.

Variable σ : Store.

Lemma sameMoves_refl (σ' : Store) :
  (∀ r : Ref,
     (λ d, MoveData.withComments d []) <$> σ !! r
     = (λ d, MoveData.withComments d []) <$> σ' !! r) →
  ∀ n, Node.sameMoves σ σ' n n.
Proof.
  intros Hσ. induction n as [dn cs IH] using node_ind. constructor.
  - unfold Node.dataOf. destruct dn as [r|]; [apply Hσ|done].
  - simpl. induction IH; by constructor.
Qed.

Lemma sameMoves_heap (σ1 σ' : Store) (n : Node.t) :
  (∀ r : Ref,
     (λ d, MoveData.withComments d []) <$> σ1 !! r
     = (λ d, MoveData.withComments d []) <$> σ' !! r) →
  ∀ n', Node.sameMoves σ σ1 n n' → Node.sameMoves σ σ' n n'.
Proof.
  intros Hσ. induction n as [dn cs IH] using node_ind.
  intros n' Hsame. inversion Hsame as [n0 n0' Hd Hcs]; subst.
  constructor.
  - rewrite Hd. unfold Node.dataOf.
    destruct (Node.data n') as [r|]; [apply Hσ|done].
  - simpl in *. clear Hsame Hd. revert IH.
    induction Hcs as [|c c' xs xs' Hc _ IHxs]; intros IH; [done|].
    apply Forall_cons_1 in IH as [IHc IH]. constructor; auto.
Qed.

(** Appending to the store changes nothing for the nodes of a tree that
    all have data. *)
Lemma sameMoves_ext (τ : Store) (n : Node.t) :
  ∀ pre,
    is_Some (Node.dataOf σ n) → Node.pathsOk σ n pre = true →
    Node.sameMoves σ (σ ++ τ) n n.
Proof.
  induction n as [dn cs IH] using node_ind. intros pre [m Hm] Hok.
  constructor.
  - rewrite Hm. unfold Node.dataOf in *. destruct dn as [r|]; [|done].
    simpl in *. by rewrite (lookup_app_l_Some _ _ _ _ Hm).
  - simpl. apply pathsOk_unfold in Hok. revert IH.
    induction Hok as [|c cs (mc & Hmc & _ & _ & Hsub) _ IHcs]; intros IH;
      [done|].
    apply Forall_cons_1 in IH as [IHc IH]. constructor; [|by apply IHcs].
    by eapply IHc.
Qed.

Variable last : MoveData.t.
Variable comments : list string.

Let fresh : Node.t → Node.t := λ n, Node.withData n (Some (length σ)).
Let σ1 : Store := σ ++ [MoveData.withComments last comments].

(** The write of [promoteVariation] to the last move of the mainline: a
    new data object with another list of comments. *)
Lemma sameMoves_updateEnd (n : Node.t) :
  ∀ pre,
    is_Some (Node.dataOf σ n) → Node.pathsOk σ n pre = true →
    Node.dataOf σ (Node.end_ n) = Some last →
    Node.sameMoves σ σ1 n (Node.updateEnd fresh n).
Proof.
  induction n as [dn cs IH] using node_ind. intros pre [m Hm] Hok Hend.
  destruct cs as [|c cs].
  - simpl in Hend. constructor; [|done]. rewrite Hend.
    unfold Node.dataOf, σ1. simpl.
    rewrite lookup_app_r, Nat.sub_diag by done. done.
  - simpl in Hend. apply Forall_cons_1 in IH as [IHc _].
    apply pathsOk_unfold, Forall_cons_1 in Hok
      as [(mc & Hmc & _ & _ & Hsub) Hcs].
    constructor.
    + rewrite Hm. unfold Node.dataOf, σ1 in *. simpl in *.
      destruct dn as [r|]; [|done]. simpl in *.
      by rewrite (lookup_app_l_Some _ _ _ _ Hm).
    + simpl. constructor; [by eapply IHc|].
      clear -Hcs. induction Hcs as [|x xs (mx & Hmx & _ & _ & Hx) _ IHxs];
        [done|].
      constructor; [|done]. by eapply sameMoves_ext.
Qed.

Lemma forest_updateEnd (n : Node.t) (pre : string) :
  Node.pathsOk σ n pre = true →
  Node.dataOf σ (Node.end_ n) = Some last →
  Node.children n ≠ [] →
  Forall2 (Node.sameMoves σ σ1) (Node.children n)
    (Node.children (Node.updateEnd fresh n)).
Proof.
  destruct n as [dn [|c cs]]; [done|]. intros Hok Hend _.
  apply pathsOk_unfold, Forall_cons_1 in Hok
    as [(mc & Hmc & _ & _ & Hsub) Hcs].
  simpl. constructor; [by eapply sameMoves_updateEnd|].
  clear -Hcs. induction Hcs as [|x xs (mx & Hmx & _ & _ & Hx) _ IHxs];
    [done|].
  constructor; [|done]. by eapply sameMoves_ext.
Qed.

Lemma updateAtFrom_pathsOk (g : Node.t → Node.t) (node : Node.t) :
  (∀ n, Node.data (g n) = Node.data n) →
  ∀ path pre,
    (∀ m q, PgnViewer.nodeAtPathOrNullFrom σ node path = Some m →
            Node.pathsOk σ m q = true → Node.pathsOk σ (g m) q = true) →
    Node.pathsOk σ node pre = true →
    Node.pathsOk σ (PgnViewer.updateAtFrom σ g node path) pre = true.
Proof.
  intros Hg. induction node as [dn cs IH] using node_ind.
  intros path pre Hm Hok.
  destruct (decide (path = "")) as [->|Hne].
  { simpl. apply Hm; [apply resolve_root|done]. }
  simpl. rewrite decide_False by done.
  simpl in Hm. rewrite decide_False in Hm by done.
  apply pathsOk_unfold in Hok. apply pathsOk_unfold.
  revert Hm. induction IH as [|c cs Hc _ IHcs]; intros Hm; [done|].
  apply Forall_cons_1 in Hok as [(mc & Hmc & Hlen & Hp & Hsub) Hcs].
  destruct (decide (Node.dataId σ c = Some (head path))) as [Hid|Hid].
  - constructor; [|done]. exists mc. split_and!; try done.
    + unfold Node.dataOf. by rewrite (updateAtFrom_data σ g Hg).
    + by apply Hc.
  - constructor; [by exists mc|]. by apply IHcs.
Qed.

End SameSteps.

Section Promote.

Variable v : PgnViewer.t.
Variables pp id : string.
Variables node parent : Node.t.
Variable d : MoveData.t.
Variable index : nat.

Hypothesis tree_ok :
  Node.pathsOk (PgnViewer.heap v) (PgnViewer.moves v) "" = true.
Hypothesis pp_even : Nat.even (String.length pp) = true.
Hypothesis id_length : String.length id = 2%nat.
Hypothesis resolves : PgnViewer.nodeAtPathOrNull v (pp +:+ id) = Some node.
Hypothesis has_data : Node.dataOf (PgnViewer.heap v) node = Some d.
Hypothesis data_id : MoveData.id d = id.
Hypothesis parent_resolves : PgnViewer.nodeAtPathOrNull v pp = Some parent.
Hypothesis found :
  list_find (λ child, Node.dataId (PgnViewer.heap v) child = Some id)
    (Node.children parent) = Some (index, node).

(** The viewer after the write to the last move of the old mainline. *)
Let v1 : PgnViewer.t :=
  match PgnViewer.truthy (PgnViewer.result v),
        Node.dataOf (PgnViewer.heap v) (Node.end_ (PgnViewer.moves v)) with
  | Some res, Some lastData =>
      let newComments := MoveData.comments lastData ++ ["Result: " +:+ res] in
      let fresh := length (PgnViewer.heap v) in
      PgnViewer.withResult
        (PgnViewer.withMoves
           (PgnViewer.withHeap v
              (PgnViewer.heap v ++
               [MoveData.withComments lastData newComments]))
           (Node.updateEnd (λ n, Node.withData n (Some fresh))
              (PgnViewer.moves v)))
        (Some "*")
  | _, _ => v
  end.

Let reorder (parent : Node.t) : Node.t :=
  match JsArray.splice (Node.children parent) (Z.of_nat index) 1 with
  | (removedNode :: _, rest) =>
      Node.withChildren parent (JsArray.unshift rest removedNode)
  | ([], rest) => Node.withChildren parent rest
  end.

Let removedNode : option Node.t :=
  parent ← PgnViewer.nodeAtPathOrNull v1 pp;
  (JsArray.splice (Node.children parent) (Z.of_nat index) 1).1 !! 0%nat.

Let v2 : PgnViewer.t :=
  PgnViewer.withPath
    (PgnViewer.withMoves v1
       (PgnViewer.updateAtFrom (PgnViewer.heap v1) reorder
          (PgnViewer.moves v1) pp))
    (Path.mk (pp +:+
              default "" (removedNode ≫= Node.dataId (PgnViewer.heap v1)))).

Let v3 : PgnViewer.t :=
  match
    (node ← PgnViewer.findLastNode <$> removedNode;
     d ← Node.dataOf (PgnViewer.heap v2) node;
     JsArray.find (λ comment, JsString.startsWith comment "Result:" = true)
       (MoveData.comments d))
  with
  | Some found =>
      PgnViewer.withResult v2 (Some (JsString.replace found "Result: " ""))
  | None => v2
  end.

Lemma promote_eq :
  PgnViewer.promoteVariation v (pp +:+ id) =
  foldl (λ v r, match r with
                | Some r => PgnViewer.writeComments v r []
                | None => v
                end)
    v3 (Node.mainline (PgnViewer.moves v3)).
Proof.
  unfold PgnViewer.promoteVariation.
  rewrite resolves, has_data, slice_init_app, parent_resolves, data_id
    by done.
  unfold JsArray.findIndex. rewrite found. reflexivity.
Qed.

Lemma forest_refl (σ σ' : Store) (cs : list Node.t) :
  (∀ n, Node.sameMoves σ σ' n n) → Forall2 (Node.sameMoves σ σ') cs cs.
Proof. intros H. induction cs; by constructor. Qed.

Lemma has_children : Node.children (PgnViewer.moves v) ≠ [].
Proof.
  intros Hnil. unfold PgnViewer.nodeAtPathOrNull in resolves.
  rewrite nodeAtPathOrNullFrom_eq in resolves.
  rewrite decide_False in resolves by by apply app_not_empty, id_not_empty.
  unfold childById, JsArray.find in resolves. by rewrite Hnil in resolves.
Qed.

Lemma v1_same :
  Forall2 (Node.sameMoves (PgnViewer.heap v) (PgnViewer.heap v1))
    (Node.children (PgnViewer.moves v)) (Node.children (PgnViewer.moves v1)).
Proof.
  unfold v1. destruct (PgnViewer.truthy _) as [res|];
    [destruct (Node.dataOf _ (Node.end_ _)) as [lastData|] eqn:Hend|];
    try by apply forest_refl, sameMoves_refl.
  by apply (forest_updateEnd _ _ _ _ "" tree_ok Hend has_children).
Qed.

Lemma v1_ok :
  Node.pathsOk (PgnViewer.heap v1) (PgnViewer.moves v1) "" = true.
Proof. exact (pathsOk_same _ _ _ _ _ v1_same tree_ok). Qed.

Lemma v1_parent :
  ∃ parent1 node1,
    PgnViewer.nodeAtPathOrNull v1 pp = Some parent1 ∧
    Node.children parent1 !! index = Some node1 ∧
    Node.dataId (PgnViewer.heap v1) node1 = Some id ∧
    Node.sameMoves (PgnViewer.heap v) (PgnViewer.heap v1) node node1 ∧
    Node.pathsOk (PgnViewer.heap v1) parent1 pp = true.
Proof.
  destruct (resolve_same _ _ _ _ _ _ v1_same parent_resolves)
    as (parent1 & Hparent1 & Hchildren & _).
  destruct (same_find _ _ _ _ _ Hchildren _ _ found)
    as (node1 & Hfind1 & Hsame).
  apply list_find_Some in Hfind1 as (Hlookup & Hid1 & _).
  exists parent1, node1. split_and!; try done.
  by destruct (pathsOk_resolve _ _ _ _ _ v1_ok Hparent1) as [Hok _].
Qed.

Lemma promote_facts :
  let v' := PgnViewer.promoteVariation v (pp +:+ id) in
  PgnViewer.path v' = Path.mk (pp +:+ id) ∧
  Node.pathsOk (PgnViewer.heap v') (PgnViewer.moves v') "" = true ∧
  ∃ parent' node',
    PgnViewer.nodeAtPathOrNull v' pp = Some parent' ∧
    Node.children parent' !! 0%nat = Some node' ∧
    PgnViewer.nodeAtPathOrNull v' (pp +:+ id) = Some node' ∧
    Node.sameMoves (PgnViewer.heap v) (PgnViewer.heap v') node node'.
Proof.
  intros v'. unfold v'. rewrite promote_eq. clear v'.
  destruct v1_parent as (parent1 & node1 & Hparent1 & Hlookup & Hid1 &
                         Hsame & Hparent_ok).
  assert (removedNode = Some node1) as Hremoved.
  { unfold removedNode. rewrite Hparent1. cbn -[JsArray.splice].
    by rewrite (splice_one _ _ _ Hlookup). }
  assert (reorder parent1 =
          Node.withChildren parent1
            (node1 :: delete index (Node.children parent1))) as Hreorder.
  { unfold reorder. by rewrite (splice_one _ _ _ Hlookup). }
  assert (PgnViewer.heap v3 = PgnViewer.heap v1 ∧
          PgnViewer.moves v3 =
            PgnViewer.updateAtFrom (PgnViewer.heap v1) reorder
              (PgnViewer.moves v1) pp ∧
          PgnViewer.path v3 = Path.mk (pp +:+ id)) as (Hheap3 & Hmoves3 & Hpath3).
  { assert (PgnViewer.path v2 = Path.mk (pp +:+ id)) as Hpath2.
    { unfold v2. rewrite Hremoved.
      change (Some node1 ≫= Node.dataId (PgnViewer.heap v1))
        with (Node.dataId (PgnViewer.heap v1) node1).
      by rewrite Hid1. }
    unfold v3.
    match goal with
    | |- context [match ?o with Some _ => _ | None => _ end] => destruct o
    end; (split_and!; [reflexivity|reflexivity|exact Hpath2]). }
  set (refs := Node.mainline (PgnViewer.moves v3)).
  destruct (clear_moves refs v3) as [Hmoves' Hpath'].
  pose proof (λ r, clear_lookup refs r v3) as Hlook.
  cbv zeta in Hmoves', Hpath', Hlook.
  set (v' := foldl _ v3 refs) in *.
  assert (∀ r : Ref,
            (λ d, MoveData.withComments d []) <$> PgnViewer.heap v1 !! r
            = (λ d, MoveData.withComments d []) <$> PgnViewer.heap v' !! r)
    as Herase.
  { intros r. rewrite Hlook, Hheap3.
    destruct (bool_decide _); [|done].
    by destruct (PgnViewer.heap v1 !! r). }
  assert (∀ r : Ref,
            MoveData.id <$> PgnViewer.heap v' !! r
            = MoveData.id <$> PgnViewer.heap v1 !! r) as Hids.
  { intros r. rewrite Hlook, Hheap3.
    destruct (bool_decide _); [|done].
    by destruct (PgnViewer.heap v1 !! r). }
  assert (∀ p, PgnViewer.nodeAtPathOrNull v' p =
               PgnViewer.nodeAtPathOrNullFrom (PgnViewer.heap v1)
                 (PgnViewer.updateAtFrom (PgnViewer.heap v1) reorder
                    (PgnViewer.moves v1) pp) p) as Hresolve.
  { intros p. unfold PgnViewer.nodeAtPathOrNull.
    rewrite Hmoves', Hmoves3. by apply resolve_heap_ids. }
  assert (∀ n, Node.data (reorder n) = Node.data n) as Hdata.
  { intros n. unfold reorder. by destruct (JsArray.splice _ _ _) as [[|? ?] ?]. }
  split_and!.
  - by rewrite Hpath', Hpath3.
  - rewrite Hmoves', Hmoves3.
    eapply pathsOk_same;
      [apply forest_refl, sameMoves_refl, Herase|].
    apply updateAtFrom_pathsOk; [done| |apply v1_ok].
    intros m q Hm. unfold PgnViewer.nodeAtPathOrNull in Hparent1.
    rewrite Hparent1 in Hm. injection Hm as <-. rewrite Hreorder.
    destruct parent1 as [dp cs].
    unfold Node.withChildren. cbn [Node.children Node.data] in *.
    rewrite !pathsOk_unfold. intros Hcs.
    constructor.
    + rewrite list.Forall_forall in Hcs. apply Hcs.
      by eapply list_elem_of_lookup_2.
    + by apply Forall_delete.
  - exists (reorder parent1), node1. split_and!.
    + rewrite Hresolve, resolve_update by done.
      unfold PgnViewer.nodeAtPathOrNull in Hparent1. by rewrite Hparent1.
    + by rewrite Hreorder.
    + rewrite Hresolve, resolve_app, resolve_update by done.
      unfold PgnViewer.nodeAtPathOrNull in Hparent1. rewrite Hparent1.
      simpl. rewrite Hreorder. destruct parent1 as [dp cs]. simpl.
      by apply childById_first.
    + by apply (sameMoves_heap _ _ _ _ Herase).
Qed.

End Promote.

(** [promoteVariation] in a tree built as [makeMoves] builds it, for the
    path of a move: the cursor is put on the path; the tree is still one
    in which every move stores the path that leads to it; and the path
    resolves to the first child of its parent, a node with the moves of
    the promoted one, comments apart. *)
Theorem promoteVariation_promotes (v : PgnViewer.t) (path : string)
  (node : Node.t) :
  Node.pathsOk (PgnViewer.heap v) (PgnViewer.moves v) "" = true →
  path ≠ "" →
  PgnViewer.nodeAtPathOrNull v path = Some node →
  let v' := PgnViewer.promoteVariation v path in
  PgnViewer.path v' = Path.mk path ∧
  Node.pathsOk (PgnViewer.heap v') (PgnViewer.moves v') "" = true ∧
  ∃ parent' node',
    PgnViewer.nodeAtPathOrNull v' (JsString.slice path 0 (-2))
      = Some parent' ∧
    Node.children parent' !! 0%nat = Some node' ∧
    PgnViewer.nodeAtPathOrNull v' path = Some node' ∧
    Node.sameMoves (PgnViewer.heap v) (PgnViewer.heap v') node node'.
Proof.
  intros Hok Hne Hres.
  destruct (pathsOk_resolve _ _ _ _ _ Hok Hres) as (_ & Heven & Hdata).
  destruct (Hdata Hne) as (m & Hm & _).
  destruct (resolve_split _ _ _ _ Heven Hne Hres)
    as (parent & index & Hparent & Hfind & Hid & Hpp & Hsplit).
  set (pp := JsString.slice path 0 (-2)) in *.
  set (id := JsString.sliceFrom path (-2)) in *.
  clearbody pp id. subst path.
  apply (promote_facts v pp id node parent m index); try done.
  apply list_find_elem in Hfind as [_ Hnid].
  unfold Node.dataId in Hnid. rewrite Hm in Hnid. by injection Hnid.
Qed.

Lemma promoteVariation_clears_mainline_witness :
  MoveData.comments (MoveData.withComments Scenario.c5 []) = [].
Proof.
  assert ("/?UE" ≠ "") as Hne by done.
  apply (promoteVariation_clears_mainline Scenario.viewer "/?UE"
           (Scenario.leaf 3%nat) Scenario.c5 eq_refl Hne eq_refl eq_refl
           (Scenario.leaf 3%nat)).
  - apply list_elem_of_further, list_elem_of_here.
  - reflexivity.
Defined.

Lemma promoteVariation_promotes_witness :
  PgnViewer.path (PgnViewer.promoteVariation Scenario.viewer "/?UE")
  = Path.mk "/?UE".
Proof.
  assert ("/?UE" ≠ "") as Hne by done.
  exact (proj1 (promoteVariation_promotes Scenario.viewer "/?UE"
                  (Scenario.leaf 3%nat) eq_refl Hne eq_refl)).
Defined.

(** ** A line of moves inserted at once *)

Section InsertLine.

Lemma addNode_heap (v : PgnViewer.t) (node : Node.t) (path : string) :
  PgnViewer.heap (PgnViewer.addNode v node path).2 = PgnViewer.heap v.
Proof.
  unfold PgnViewer.addNode, PgnViewer.updateAt.
  destruct (PgnViewer.nodeAtPathOrNull v (path +:+ _)); [done|].
  by destruct (PgnViewer.nodeAtPathOrNull v path).
Qed.

(** [addNodes] on moves with 2-character identifiers, at a path that
    resolves: every insert succeeds, each move going below the one
    before it; the path returned is the path given followed by the
    identifiers of the moves, and it resolves afterwards. *)
Theorem addNodes_inserts_line (nodes : list Node.t) :
  ∀ (v : PgnViewer.t) (path : string),
    Nat.even (String.length path) = true →
    is_Some (PgnViewer.nodeAtPathOrNull v path) →
    Forall (λ node, ∃ id, Node.dataId (PgnViewer.heap v) node = Some id ∧
                          String.length id = 2%nat) nodes →
    ∃ v',
      PgnViewer.addNodes v nodes path =
        (Some (path +:+
               foldr String.append ""
                 (omap (Node.dataId (PgnViewer.heap v)) nodes)), v') ∧
      PgnViewer.heap v' = PgnViewer.heap v ∧
      is_Some (PgnViewer.nodeAtPathOrNull v'
                 (path +:+
                  foldr String.append ""
                    (omap (Node.dataId (PgnViewer.heap v)) nodes))).
Proof.
  induction nodes as [|node rest IH]; intros v path Heven Hres Hids.
  { exists v. simpl. by rewrite app_empty_r. }
  apply Forall_cons_1 in Hids as [(id & Hid & Hlen) Hrest].
  destruct Hres as [parent Hparent].
  assert (∃ v1,
            PgnViewer.addNode v node path = (Some (path +:+ id), v1) ∧
            is_Some (PgnViewer.nodeAtPathOrNull v1 (path +:+ id)))
    as (v1 & Hadd & Hres1).
  { destruct (childById (PgnViewer.heap v) parent id) as [child|] eqn:Hchild.
    - exists v. split.
      + by eapply addNode_existing.
      + exists child. by rewrite (resolve_newPath v path parent id).
    - eexists. split.
      + by eapply addNode_appended.
      + exists node. by eapply appended_child. }
  pose proof (addNode_heap v node path) as Hheap. rewrite Hadd in Hheap.
  simpl in Hheap.
  destruct (IH v1 (path +:+ id)) as (v' & Hadds & Hheap' & Hres').
  { rewrite app_length, Hlen, Nat.even_add, Heven. done. }
  { done. }
  { by rewrite Hheap. }
  exists v'. simpl. rewrite Hadd, Hid. simpl.
  rewrite decide_False by by apply app_not_empty, id_not_empty.
  rewrite Hheap in Hadds, Hres', Hheap'. rewrite app_assoc in Hadds, Hres'.
  done.
Qed.

End InsertLine.

Lemma addNodes_inserts_line_witness :
  ∃ v',
    PgnViewer.addNodes Scenario.viewer
      [Scenario.leaf 5%nat; Scenario.leaf 7%nat] "/?UE"
    = (Some "/?UE$519", v') ∧
    PgnViewer.heap v' = Scenario.heap ∧
    is_Some (PgnViewer.nodeAtPathOrNull v' "/?UE$519").
Proof.
  apply (addNodes_inserts_line [Scenario.leaf 5%nat; Scenario.leaf 7%nat]
           Scenario.viewer "/?UE" eq_refl).
  - by eexists.
  - repeat constructor; by eexists.
Defined.

(** ** Identity of path objects *)

(** [isChildOf] is false for every two paths there are, also for a path
    and the path of its parent, which [equals] does identify: [init]
    allocates the object that is compared with the parent given. *)
Theorem isChildOf_never (objects : list Path.t) (this parent : nat)
  (p q : Path.t) :
  objects !! this = Some p →
  objects !! parent = Some q →
  ∃ objects',
    PathObject.isChildOf objects this parent = Some (false, objects') ∧
    objects' !! length objects = Some (Path.init p) ∧
    (Path.path q = Path.path (Path.init p) →
     Path.equals (Path.init p) q = true).
Proof.
  intros Hthis Hparent. pose proof (lookup_lt_Some _ _ _ Hparent) as Hlt.
  unfold PathObject.isChildOf, PathObject.init, PathObject.new.
  rewrite Hthis. simpl. eexists. split_and!.
  - rewrite bool_decide_eq_false_2; [done|lia].
  - by rewrite list_lookup_middle.
  - intros Heq. unfold Path.equals. by apply bool_decide_eq_true.
Qed.

Lemma isChildOf_never_witness :
  ∃ objects',
    PathObject.isChildOf [Path.mk "/?WG"; Path.mk "/?"] 0 1
      = Some (false, objects') ∧
    objects' !! 2%nat = Some (Path.mk "/?") ∧
    (Path.path (Path.mk "/?") = Path.path (Path.init (Path.mk "/?WG")) →
     Path.equals (Path.init (Path.mk "/?WG")) (Path.mk "/?") = true).
Proof.
  exact (isChildOf_never [Path.mk "/?WG"; Path.mk "/?"] 0 1
           (Path.mk "/?WG") (Path.mk "/?") eq_refl eq_refl).
Defined.
